(** * Graph algorithms of [paths.go]: cycle test, shortest path, strongly
    connected components and path enumeration.

    The Go functions are embedded as Rocq functions over the values they
    handle.  Go maps that are only read and written by key ([visited],
    [weights], [bestPredecessors], [lowlink], ...) are [gmap]s; the two
    snapshots a graph hands out are association lists, because the code
    ranges over them and the order in which Go visits a map is not fixed:
    the order of the list is the order of one run, and the theorems hold for
    every order.  A loop that Go runs until a condition fails takes a [fuel]
    argument; [None] stands for a run that has not finished within it.

    The file has the functions first, then the graphs they are run on and
    the invariants of their loops, then the properties. *)

From Stdlib Require Import ZArith Lia Ascii.
From stdpp Require Import base option list relations gmap strings.

Local Open Scope Z_scope.

(** ** Errors *)

(** The error values of the package.  [Wrapf ctx e] is
    [fmt.Errorf(ctx, ..., e)] with the verb [%w]: it keeps [e] in its chain.
    The text a hash is formatted to by [%v] is not modelled.
    [ErrInvalidGraphKind] is the value [StronglyConnectedComponents] makes
    with [errors.New]; [ErrVertexNotFound] and [ErrQueueEmpty] come from the
    graph and from the priority queue. *)
Inductive Error : Type :=
| ErrVertexNotFound
| ErrTargetNotReachable
| ErrInvalidGraphKind
| ErrQueueEmpty
| ErrFacade (msg : string)
| Wrapf (ctx : string) (e : Error).

(** [errors.Is err target] for the values above. *)
Fixpoint errorsIs (err target : Error) : Prop :=
  err = target \/
  match err with
  | Wrapf _ e => errorsIs e target
  | _ => False
  end.

(** ** Weights *)

(** The [float64] values [ShortestPath] computes with: [math.Inf(1)], and
    sums of the [int] weights of edges, which are whole numbers.  The sum of
    two of them is the exact sum here.  In Go it is the exact sum as long as
    it is at most 2^53 in absolute value, and is rounded beyond: the model
    follows the code on the graphs that [exactWeights] admits, on which no
    sum of a run passes 2^53. *)
Inductive float64 : Type :=
| Finite (z : Z)
| PosInf.

#[global] Instance float64_eq_dec : EqDecision float64.
Proof. solve_decision. Defined.

Definition f64_add (a b : float64) : float64 :=
  match a, b with
  | Finite x, Finite y => Finite (x + y)
  | _, _ => PosInf
  end.

Definition f64_ltb (a b : float64) : bool :=
  match a, b with
  | Finite x, Finite y => bool_decide (x < y)
  | Finite _, PosInf => true
  | PosInf, _ => false
  end.

(** [math.IsInf(f, 1)] *)
Definition IsInf (a : float64) : bool :=
  match a with
  | PosInf => true
  | Finite _ => false
  end.

Definition f64_le (a b : float64) : Prop := f64_ltb b a = false.

(** ** The graph, as the functions see it *)

Record EdgeProperties : Type := { Weight : Z }.

Record Edge : Type := { Properties : EdgeProperties }.

Record GraphTraits : Type := { IsDirected : bool; IsWeighted : bool }.

(** The zero value of a Go type ([var hash K]). *)
Class GoZero (A : Type) : Type := zeroValue : A.

#[global] Instance Z_zero : GoZero Z := 0.
#[global] Instance string_zero : GoZero string := EmptyString.

(** ** The priority queue *)

(** Modelled from the spec: the priority queue of the package (push,
    pop-minimum, update-priority, size), whose code is not in [paths.go].
    Its operations are the fields of a class, so that the functions that use
    a queue can be read against any implementation; [Pop] returns the pair
    [(item, err)] of the Go method together with the queue it leaves. *)
Class PriorityQueue (A : Type) : Type := {
  queueOf : Type;
  newPriorityQueue : queueOf;
  Push : queueOf -> A -> float64 -> queueOf;
  Pop : queueOf -> (A * option Error) * queueOf;
  UpdatePriority : queueOf -> A -> float64 -> queueOf;
  Len : queueOf -> nat
}.

Arguments queueOf {A} _.

(** [UpdatePriority] on the entries of a queue: the priority of [x] is
    replaced wherever [x] occurs. *)
Definition setPriority {A : Type} `{EqDecision A} (x : A) (p : float64)
    (l : list (A * float64)) : list (A * float64) :=
  map (fun e => if decide (e.1 = x) then (x, p) else e) l.

(** Modelled from the spec: what the queue promises.  [items q] are the
    entries [q] holds.  A push adds its entry (an implementation may ignore
    the push of an item it already holds); a pop on a queue that is not empty
    hands out an entry of least priority, whichever it is among equals, and
    removes it; an update changes the priority of the item it names and
    nothing else, so it leaves a queue without that item as it is; the size
    is the number of entries. *)
Class PriorityQueueSpec {A : Type} `{EqDecision A} (Q : PriorityQueue A)
    (items : queueOf Q -> list (A * float64)) : Prop := {
  items_new : items newPriorityQueue = [];
  items_Len q : Len q = length (items q);
  items_Push q x p :
    items (Push q x p) ≡ₚ (x, p) :: items q \/
    (x ∈ (items q).*1 /\ items (Push q x p) ≡ₚ items q);
  items_Pop q :
    items q <> [] ->
    exists x p q',
      Pop q = ((x, None), q') /\
      items q ≡ₚ (x, p) :: items q' /\
      forall e, e ∈ items q -> f64_le p e.2;
  items_UpdatePriority q x p :
    items (UpdatePriority q x p) ≡ₚ setPriority x p (items q)
}.

Section ListQueue.

Context {A : Type} `{EqDecision A} `{GoZero A}.

(** Modelled from the spec: a queue kept as the list of its entries, oldest
    first.  Among entries of least priority [Pop] takes the oldest. *)
Fixpoint minEntry (best : A * float64) (l : list (A * float64)) : A * float64 :=
  match l with
  | [] => best
  | e :: l' => minEntry (if f64_ltb e.2 best.2 then e else best) l'
  end.

Fixpoint removeFirst (m : A * float64) (l : list (A * float64))
    : list (A * float64) :=
  match l with
  | [] => []
  | e :: l' => if decide (e = m) then l' else e :: removeFirst m l'
  end.

Definition listPop (q : list (A * float64))
    : (A * option Error) * list (A * float64) :=
  match q with
  | [] => ((zeroValue, Some ErrQueueEmpty), [])
  | e :: l => let m := minEntry e l in ((m.1, None), removeFirst m q)
  end.

#[global] Instance listQueue : PriorityQueue A := {|
  queueOf := list (A * float64);
  newPriorityQueue := [];
  Push q x p := q ++ [(x, p)];
  Pop := listPop;
  UpdatePriority q x p := setPriority x p q;
  Len q := length q
|}.

End ListQueue.

Section Graphs.

Context {K : Type} `{Countable K} `{GoZero K}.
Context {T : Type}.

(** The inner map of a snapshot: the edges of one vertex, keyed by the hash
    at their other end, in the order this run ranges over them. *)
Definition EdgeMap : Type := list (K * Edge).

(** [map[K]map[K]Edge[K]] *)
Definition Snapshot : Type := list (K * EdgeMap).

(** [m[k]] on the outer map: the first entry for [k]; a key that is not
    there gives the nil map, over which [range] does nothing. *)
Fixpoint edgesOf (m : Snapshot) (k : K) : EdgeMap :=
  match m with
  | [] => []
  | (k', es) :: m' => if decide (k' = k) then es else edgesOf m' k
  end.

(** The hashes a [range] over the inner map of [k] yields. *)
Definition neighbours (m : Snapshot) (k : K) : list K := (edgesOf m k).*1.

(** The methods of [Graph[K, T]] these functions call, each with the pair
    of results it returns in Go. *)
Record Graph : Type := {
  Vertex : K -> T * option Error;
  AdjacencyMap : Snapshot * option Error;
  PredecessorMap : Snapshot * option Error;
  Traits : GraphTraits
}.

(** ** CreatesCycle *)

(** [stack = append(stack, adjacency)] for every key of the ranged map; the
    head of the list is the top of the Go slice. *)
Definition pushAll (hashes : list K) (stack : list K) : list K :=
  fold_left (fun st adjacency => adjacency :: st) hashes stack.

(** The loop [for len(stack) > 0] of [CreatesCycle]. *)
Fixpoint createsCycleLoop (fuel : nat) (predecessorMap : Snapshot) (target : K)
    (stack : list K) (visited : gmap K bool) : option bool :=
  match fuel with
  | O => None
  | S fuel' =>
    match stack with
    | [] => Some false
    | currentHash :: stack' =>
      match visited !! currentHash with
      | Some _ => createsCycleLoop fuel' predecessorMap target stack' visited
      | None =>
        if decide (currentHash = target) then Some true
        else createsCycleLoop fuel' predecessorMap target
               (pushAll (neighbours predecessorMap currentHash) stack')
               (<[currentHash := true]> visited)
      end
    end
  end.

Definition CreatesCycle (fuel : nat) (g : Graph) (source target : K)
    : option (bool * option Error) :=
  match Vertex g source with
  | (_, Some err) =>
      Some (false, Some (Wrapf "could not get vertex with hash %v: %w" err))
  | (_, None) =>
    match Vertex g target with
    | (_, Some err) =>
        Some (false, Some (Wrapf "could not get vertex with hash %v: %w" err))
    | (_, None) =>
      if decide (source = target) then Some (true, None)
      else
        match PredecessorMap g with
        | (_, Some err) =>
            Some (false, Some (Wrapf "failed to get predecessor map: %w" err))
        | (predecessorMap, None) =>
            match createsCycleLoop fuel predecessorMap target [source] ∅ with
            | Some b => Some (b, None)
            | None => None
            end
        end
    end
  end.

(** Fuel that lets the loop of [CreatesCycle] finish on [predecessorMap]:
    every entry of the map is expanded at most once. *)
Definition snapshotSize (m : Snapshot) : nat :=
  sum_list (map (fun e => S (length e.2)) m).

Definition cycleFuel (predecessorMap : Snapshot) : nat :=
  (2 + snapshotSize predecessorMap)%nat.

(** ** Walking the snapshots *)

(** [Step m u v]: [v] is a key of [m[u]].  On the adjacency snapshot this is
    an edge from [u] to [v]; on the predecessor snapshot it is one step
    backward, from [u] to a predecessor [v]. *)
Definition Step (m : Snapshot) (u v : K) : Prop := v ∈ neighbours m u.

(** [v] is reached from [u] in no or more steps. *)
Definition Reach (m : Snapshot) : K -> K -> Prop := rtc (Step m).

(** [l] lists the vertices of a walk along [m], each a neighbour of the one
    before. *)
Fixpoint IsWalk (m : Snapshot) (l : list K) : Prop :=
  match l with
  | [] => True
  | u :: l' =>
    match l' with
    | [] => True
    | v :: _ => Step m u v /\ IsWalk m l'
    end
  end.

(** [l] is a path from [source] to [target] along [m]. *)
Definition IsPath (m : Snapshot) (source target : K) (l : list K) : Prop :=
  head l = Some source /\ last l = Some target /\ IsWalk m l.

(** A path from [a] to [b] along the edges the predecessor snapshot [pm]
    records: each vertex of the path is a predecessor of the next one. *)
Inductive PathVia (pm : Snapshot) : K -> K -> Prop :=
| PathVia_refl a : PathVia pm a a
| PathVia_step a b c : Step pm b a -> PathVia pm b c -> PathVia pm a c.

(** The snapshot is the map of a graph: no key twice, in the outer map and
    in every inner map, and the other end of every edge is a key of the outer
    map (every vertex has an entry, also one without edges). *)
Definition wellFormed (m : Snapshot) : bool :=
  bool_decide (NoDup m.*1) &&
  forallb (fun e => bool_decide (NoDup e.2.*1) &&
                    forallb (fun f => bool_decide (f.1 ∈ m.*1)) e.2) m.

(** [g.Vertex(k)] finds the vertex, or fails because it is not there. *)
Definition hasVertex (g : Graph) (k : K) : Prop := (Vertex g k).2 = None.

Definition vertexNotFound (g : Graph) (k : K) : Prop :=
  (Vertex g k).2 = Some ErrVertexNotFound.

(** ** ShortestPath *)

Context {Q : PriorityQueue K}.

(** [weights[k]]: a key that is not in the map reads as the zero value. *)
Definition weightOf (weights : gmap K float64) (k : K) : float64 :=
  default (Finite 0) (weights !! k).

(** The body of [for hash := range adjacencyMap].  The map [visited] of the
    Go function is written here and before the loop but never read; it is
    left out. *)
Definition initStep (source : K) (st : gmap K float64 * queueOf Q) (hash : K)
    : gmap K float64 * queueOf Q :=
  let weights := if decide (hash = source) then st.1
                 else <[hash := PosInf]> st.1 in
  (weights, Push st.2 hash (weightOf weights hash)).

Record spState : Type := {
  weights : gmap K float64;
  bestPredecessors : gmap K K;
  queue : queueOf Q
}.

(** The weight [ShortestPath] gives an edge: 1 on an unweighted graph. *)
Definition effectiveWeight (traits : GraphTraits) (edge : Edge) : Z :=
  if IsWeighted traits then Weight (Properties edge) else 1.

(** The body of [for adjacency, edge := range adjacencyMap[vertex]]. *)
Definition relax (traits : GraphTraits) (hasInfiniteWeight : bool) (vertex : K)
    (st : spState) (entry : K * Edge) : spState :=
  let adjacency := entry.1 in
  let edgeWeight := effectiveWeight traits entry.2 in
  let weight := f64_add (weightOf (weights st) vertex) (Finite edgeWeight) in
  if f64_ltb weight (weightOf (weights st) adjacency) && negb hasInfiniteWeight
  then {| weights := <[adjacency := weight]> (weights st);
          bestPredecessors := <[adjacency := vertex]> (bestPredecessors st);
          queue := UpdatePriority (queue st) adjacency weight |}
  else st.

(** The loop [for queue.Len() > 0]; the error of [Pop] is dropped, as in
    [vertex, _ := queue.Pop()]. *)
Fixpoint shortestPathLoop (fuel : nat) (traits : GraphTraits)
    (adjacencyMap : Snapshot) (st : spState) : option spState :=
  match fuel with
  | O => None
  | S fuel' =>
    if bool_decide (0 < Len (queue st))%nat then
      let '((vertex, _), queue') := Pop (queue st) in
      let hasInfiniteWeight := IsInf (weightOf (weights st) vertex) in
      let st' := {| weights := weights st;
                    bestPredecessors := bestPredecessors st;
                    queue := queue' |} in
      shortestPathLoop fuel' traits adjacencyMap
        (fold_left (relax traits hasInfiniteWeight vertex)
                   (edgesOf adjacencyMap vertex) st')
    else Some st
  end.

(** The loop [for current != source] that walks [bestPredecessors] back from
    the target. *)
Fixpoint walkBack (fuel : nat) (bestPredecessors : gmap K K) (source : K)
    (current : K) (path : list K) : option (list K * option Error) :=
  match fuel with
  | O => None
  | S fuel' =>
    if decide (current = source) then Some (path, None)
    else
      match bestPredecessors !! current with
      | None => Some ([], Some ErrTargetNotReachable)
      | Some current' =>
          walkBack fuel' bestPredecessors source current' (current' :: path)
      end
  end.

(** The state the loop starts in: the weights and the queue after the range
    over the adjacency map, and no best predecessor. *)
Definition shortestPathStart (source : K) (adjacencyMap : Snapshot) : spState :=
  let weights := <[source := Finite 0]> (∅ : gmap K float64) in
  let queue := newPriorityQueue in
  let init := fold_left (initStep source) adjacencyMap.*1 (weights, queue) in
  {| weights := init.1; bestPredecessors := ∅; queue := init.2 |}.

Definition ShortestPath (fuel : nat) (g : Graph) (source target : K)
    : option (list K * option Error) :=
  match AdjacencyMap g with
  | (_, Some err) =>
      Some ([], Some (Wrapf "could not get adjacency map: %w" err))
  | (adjacencyMap, None) =>
    match shortestPathLoop fuel (Traits g) adjacencyMap
            (shortestPathStart source adjacencyMap) with
    | None => None
    | Some st => walkBack fuel (bestPredecessors st) source target [target]
    end
  end.

(** Fuel that lets both loops of [ShortestPath] finish: one turn for every
    vertex, and the last test. *)
Definition pathFuel (adjacencyMap : Snapshot) : nat :=
  (2 + length adjacencyMap)%nat.

(** The number of edges of a path given by its vertices. *)
Definition edgeCount (l : list K) : nat := Nat.pred (length l).

(** The weights [ShortestPath] works with are not negative. *)
Definition nonNegative (traits : GraphTraits) (m : Snapshot) : bool :=
  forallb (fun e =>
    forallb (fun f => bool_decide (0 <= effectiveWeight traits f.2)) e.2) m.

(** The sizes of the weights [ShortestPath] works with, summed over all
    edges of the snapshot. *)
Definition weightSum (traits : GraphTraits) (m : Snapshot) : Z :=
  foldr Z.add 0
    ((fun f => Z.abs (effectiveWeight traits f.2)) <$> flat_map snd m).

(** The weights are small enough for [float64] to add them without
    rounding.  A vertex is taken off the queue once and its edges are relaxed
    then, so every sum [weights[vertex] + float64(edgeWeight)] of a run adds
    the weights of different edges and is at most [weightSum] in absolute
    value, and [float64] holds every whole number up to 2^53 exactly. *)
Definition exactWeights (traits : GraphTraits) (m : Snapshot) : bool :=
  bool_decide (weightSum traits m <= 2 ^ 53).

(** ** StronglyConnectedComponents *)

Record sccState : Type := {
  adjacencyMap : Snapshot;
  components : list (list K);
  stack : list K;
  onStack : gmap K bool;
  visited : gmap K unit;
  lowlink : gmap K Z;
  index : gmap K Z;
  time : Z
}.

(** [m[k]] on a map of [int]: the zero value for a key that is not there. *)
Definition intOf (m : gmap K Z) (k : K) : Z := default 0 (m !! k).

(** [state.lowlink[vertexHash] = int(math.Min(float64(lowlink[vertexHash]),
    float64(other)))]; the conversions are exact on the discovery times. *)
Definition lowerLowlink (vertexHash : K) (other : Z) (state : sccState)
    : sccState :=
  {| adjacencyMap := adjacencyMap state;
     components := components state;
     stack := stack state;
     onStack := onStack state;
     visited := visited state;
     lowlink := <[vertexHash := Z.min (intOf (lowlink state) vertexHash) other]>
                  (lowlink state);
     index := index state;
     time := time state |}.

(** The loop [for hash != vertexHash] that pops a component off the stack;
    [hash] starts as the zero value of [K].  Popping the empty stack is an
    index out of range, on which the Go run panics: no result. *)
Fixpoint popComponent (vertexHash hash : K) (stack : list K)
    (onStack : gmap K bool) (component : list K)
    : option (list K * gmap K bool * list K) :=
  if decide (hash = vertexHash) then Some (stack, onStack, component)
  else
    match stack with
    | [] => None
    | top :: stack' =>
        popComponent vertexHash top stack' (<[top := false]> onStack)
                     (component ++ [top])
    end.

(** [findSCC]; [fuel] bounds the depth of the recursion. *)
Fixpoint findSCC (fuel : nat) (vertexHash : K) (state : sccState)
    : option sccState :=
  match fuel with
  | O => None
  | S fuel' =>
    let state :=
      {| adjacencyMap := adjacencyMap state;
         components := components state;
         stack := vertexHash :: stack state;
         onStack := <[vertexHash := true]> (onStack state);
         visited := <[vertexHash := tt]> (visited state);
         lowlink := <[vertexHash := time state]> (lowlink state);
         index := <[vertexHash := time state]> (index state);
         time := time state + 1 |} in
    let fix range (adjacencies : list K) (state : sccState)
        : option sccState :=
      match adjacencies with
      | [] => Some state
      | adjacency :: rest =>
        match visited state !! adjacency with
        | None =>
          match findSCC fuel' adjacency state with
          | None => None
          | Some state =>
              range rest
                (lowerLowlink vertexHash (intOf (lowlink state) adjacency) state)
          end
        | Some _ =>
          if default false (onStack state !! adjacency)
          then range rest
                 (lowerLowlink vertexHash (intOf (index state) adjacency) state)
          else range rest state
        end
      end in
    match range (neighbours (adjacencyMap state) vertexHash) state with
    | None => None
    | Some state =>
      if decide (intOf (lowlink state) vertexHash = intOf (index state) vertexHash)
      then
        match popComponent vertexHash zeroValue (stack state) (onStack state) []
        with
        | None => None
        | Some (stack', onStack', component) =>
            Some {| adjacencyMap := adjacencyMap state;
                    components := components state ++ [component];
                    stack := stack';
                    onStack := onStack';
                    visited := visited state;
                    lowlink := lowlink state;
                    index := index state;
                    time := time state |}
        end
      else Some state
    end
  end.

(** The loop [for hash := range state.adjacencyMap]. *)
Fixpoint sccRange (fuel : nat) (hashes : list K) (state : sccState)
    : option sccState :=
  match hashes with
  | [] => Some state
  | hash :: rest =>
    match visited state !! hash with
    | Some _ => sccRange fuel rest state
    | None =>
      match findSCC fuel hash state with
      | None => None
      | Some state => sccRange fuel rest state
      end
    end
  end.

Definition StronglyConnectedComponents (fuel : nat) (g : Graph)
    : option (list (list K) * option Error) :=
  if negb (IsDirected (Traits g)) then Some ([], Some ErrInvalidGraphKind)
  else
    match AdjacencyMap g with
    | (_, Some err) =>
        Some ([], Some (Wrapf "could not get adjacency map: %w" err))
    | (adjacencyMap, None) =>
      let state := {| adjacencyMap := adjacencyMap;
                      components := [];
                      stack := [];
                      onStack := ∅;
                      visited := ∅;
                      lowlink := ∅;
                      index := ∅;
                      time := 0 |} in
      match sccRange fuel adjacencyMap.*1 state with
      | None => None
      | Some state => Some (components state, None)
      end
    end.

(** The components are a partition of the vertices [vs]: every vertex is in
    one component, once, and in no other. *)
Definition Partitions (comps : list (list K)) (vs : list K) : Prop :=
  forall v, v ∈ vs ->
    exists i c, comps !! i = Some c /\ v ∈ c /\
      length (filter (fun x => x = v) c) = 1%nat /\
      forall j c', comps !! j = Some c' -> v ∈ c' -> j = i.

End Graphs.

Arguments Graph K T : clear implicits.
Arguments Snapshot K : clear implicits.
Arguments EdgeMap K : clear implicits.

(** ** FindAllPaths *)

(** The functions of Go's [strings] package that [FindAllPaths] calls, after
    their documentation. *)

(** [strings.HasPrefix] *)
Fixpoint HasPrefix (s prefix : string) {struct prefix} : bool :=
  match prefix with
  | EmptyString => true
  | String c prefix' =>
    match s with
    | EmptyString => false
    | String d s' => if decide (c = d) then HasPrefix s' prefix' else false
    end
  end.

(** [strings.Contains] *)
Fixpoint Contains (s substr : string) : bool :=
  HasPrefix s substr ||
  match s with
  | EmptyString => false
  | String _ s' => Contains s' substr
  end.

(** [strings.Split(s, sep)] for a separator that is not empty: [s] is cut at
    every occurrence of [sep], found from the left; [current] is the piece
    being read and [skip] the number of characters of a separator still to
    pass over. *)
Fixpoint splitFrom (skip : nat) (sep s current : string) : list string :=
  match s with
  | EmptyString => [current]
  | String c s' =>
    match skip with
    | S skip' => splitFrom skip' sep s' current
    | O =>
      if HasPrefix s sep
      then current :: splitFrom (Nat.pred (String.length sep)) sep s' EmptyString
      else splitFrom O sep s' (current +:+ String c EmptyString)
    end
  end.

Definition Split (s sep : string) : list string := splitFrom O sep s EmptyString.

Definition gap : string := "->".

(** The text [FindAllPaths] writes a path as: its hashes with [gap] between
    them. *)
Fixpoint joinPath (l : list string) : string :=
  match l with
  | [] => EmptyString
  | x :: l' =>
    match l' with
    | [] => x
    | _ :: _ => x +:+ gap +:+ joinPath l'
    end
  end.

Section AllPaths.

Context {T : Type} {Q : PriorityQueue string}.

(** The body of [for adjacency, _ := range adjacencyMap[lastVertex]]. *)
Definition expand (target path : string) (st : queueOf Q * list string)
    (adjacency : string) : queueOf Q * list string :=
  if Contains path adjacency then st
  else
    let resultPath := path +:+ gap +:+ adjacency in
    if decide (adjacency = target) then (st.1, st.2 ++ [resultPath])
    else (Push st.1 resultPath (Finite 0), st.2).

(** One turn of the loop, after the pop: the path is split, and extended by
    the neighbours of its last vertex. *)
Definition allPathsTurn (adjacencyMap : Snapshot string) (target path : string)
    (st : queueOf Q * list string) : queueOf Q * list string :=
  let vertexArray := Split path gap in
  match last vertexArray with
  | Some lastVertex =>
      fold_left (expand target path) (neighbours adjacencyMap lastVertex) st
  | None => st
  end.

(** The loop [for queue.Len() > 0] of [FindAllPaths]. *)
Fixpoint findAllPathsLoop (fuel : nat) (adjacencyMap : Snapshot string)
    (target : string) (queue : queueOf Q) (paths : list string)
    : option (list string * option Error) :=
  match fuel with
  | O => None
  | S fuel' =>
    if bool_decide (0 < Len queue)%nat then
      let '((path, err), queue') := Pop queue in
      match err with
      | Some err => Some ([], Some (Wrapf "pop err %w" err))
      | None =>
          let st := allPathsTurn adjacencyMap target path (queue', paths) in
          findAllPathsLoop fuel' adjacencyMap target st.1 st.2
      end
    else Some (paths, None)
  end.

Definition FindAllPaths (fuel : nat) (g : Graph string T)
    (source target : string) : option (list string * option Error) :=
  match AdjacencyMap g with
  | (_, Some err) =>
      Some ([], Some (Wrapf "could not get adjacency map: %w" err))
  | (adjacencyMap, None) =>
      findAllPathsLoop fuel adjacencyMap target
        (Push newPriorityQueue source (Finite 0)) []
  end.


End AllPaths.

(** The hashes a path from [source] can go through. *)
Definition hashesOf (m : Snapshot string) (source : string) : list string :=
  source :: flat_map (fun e => e.2.*1) m.

(** No hash contains the separator. *)
Definition separatorFree (hashes : list string) : bool :=
  forallb (fun h => negb (Contains h gap)) hashes.

(** A path without a repeated vertex. *)
Definition SimplePath (m : Snapshot string) (source target : string)
    (l : list string) : Prop :=
  IsPath m source target l /\ NoDup l.

(** The test [strings.Contains(path, adjacency)] answers whether the vertex
    is on the path: a neighbour of the last vertex of a path from [source]
    that occurs in the text of the path is one of its vertices. *)
Definition containsIsMembership (m : Snapshot string) (source : string) : Prop :=
  forall l v h,
    SimplePath m source v l -> Step m v h ->
    Contains (joinPath l) h = true -> h ∈ l.

(** Hashes for which the test is right: none is empty, none has a character
    of the separator, none occurs inside another. *)
Fixpoint noneOf (chars s : string) : bool :=
  match s with
  | EmptyString => true
  | String c s' => negb (Contains chars (String c EmptyString)) && noneOf chars s'
  end.

Definition plainHashes (hashes : list string) : bool :=
  forallb (fun h =>
    negb (bool_decide (h = EmptyString)) && noneOf gap h &&
    forallb (fun h' => implb (Contains h' h) (bool_decide (h' = h))) hashes)
    hashes.

(** Fuel for the loop of [FindAllPaths]: a path with [n] hashes still to
    take is extended in at most [d] ways, each with one hash less to take. *)
Fixpoint pathBudget (d n : nat) : nat :=
  match n with
  | O => 1
  | S n' => S (d * pathBudget d n')
  end.

Definition maxDegree (m : Snapshot string) : nat :=
  foldr Nat.max O (map (fun e => length e.2) m).

Definition allPathsFuel (m : Snapshot string) (source : string) : nat :=
  S (pathBudget (maxDegree m) (length (remove_dups (hashesOf m source)))).


(** ** Graphs to run the functions on *)

Definition edge (w : Z) : Edge := {| Properties := {| Weight := w |} |}.

(** Modelled from the spec: the graph behind the query interface, given by its
    vertices, its two snapshots and its traits.  The value of a vertex is its
    hash; the lookup of a hash that is not a vertex fails with the not-found
    error. *)
Definition graphOf {K : Type} `{EqDecision K} `{GoZero K} (vertices : list K)
    (adjacency predecessors : Snapshot K) (traits : GraphTraits) : Graph K K := {|
  Vertex k := if decide (k ∈ vertices) then (k, None)
              else (zeroValue, Some ErrVertexNotFound);
  AdjacencyMap := (adjacency, None);
  PredecessorMap := (predecessors, None);
  Traits := traits
|}.

Definition directed : GraphTraits := {| IsDirected := true; IsWeighted := false |}.
Definition directedWeighted : GraphTraits :=
  {| IsDirected := true; IsWeighted := true |}.
Definition undirected : GraphTraits := {| IsDirected := false; IsWeighted := false |}.

(** 1 -> 2 -> 3 *)
Definition chainAdjacency : Snapshot Z :=
  [(1, [(2, edge 0)]); (2, [(3, edge 0)]); (3, [])].
Definition chainPredecessors : Snapshot Z :=
  [(1, []); (2, [(1, edge 0)]); (3, [(2, edge 0)])].
Definition chain : Graph Z Z :=
  graphOf [1; 2; 3] chainAdjacency chainPredecessors directed.

(** The graph of [int] hashes with the one vertex 0 and no edge. *)
Definition zeroVertex : Graph Z Z := graphOf [0] [(0, [])] [(0, [])] directed.

(** 0 -> 1 and 1 -> 0: one strongly connected component. *)
Definition zeroCycleAdjacency : Snapshot Z :=
  [(0, [(1, edge 0)]); (1, [(0, edge 0)])].
Definition zeroCycle : Graph Z Z :=
  graphOf [0; 1] zeroCycleAdjacency zeroCycleAdjacency directed.

(** The chain 1 -> 2 -> 3 read as an undirected graph. *)
Definition chainUndirected : Graph Z Z :=
  graphOf [1; 2; 3] chainAdjacency chainPredecessors undirected.

(** A -> B (1), B -> C (2), A -> C (5), with weights. *)
Definition triangleAdjacency : Snapshot string :=
  [("A", [("B", edge 1); ("C", edge 5)]); ("B", [("C", edge 2)]); ("C", [])].
Definition trianglePredecessors : Snapshot string :=
  [("A", []); ("B", [("A", edge 1)]); ("C", [("A", edge 5); ("B", edge 2)])].
Definition triangle : Graph string string :=
  graphOf ["A"; "B"; "C"] triangleAdjacency trianglePredecessors directedWeighted.

(** A -> B, A -> C, B -> D, C -> D, without weights. *)
Definition diamondAdjacency : Snapshot string :=
  [("A", [("B", edge 0); ("C", edge 0)]); ("B", [("D", edge 0)]);
   ("C", [("D", edge 0)]); ("D", [])].
Definition diamondPredecessors : Snapshot string :=
  [("A", []); ("B", [("A", edge 0)]); ("C", [("A", edge 0)]);
   ("D", [("B", edge 0); ("C", edge 0)])].
Definition diamond : Graph string string :=
  graphOf ["A"; "B"; "C"; "D"] diamondAdjacency diamondPredecessors directed.

(** S -> A (1), A -> B (-5), B -> A (-5): a cycle of negative weight. *)
Definition negativeAdjacency : Snapshot string :=
  [("S", [("A", edge 1)]); ("A", [("B", edge (-5))]); ("B", [("A", edge (-5))])].
Definition negativePredecessors : Snapshot string :=
  [("S", []); ("A", [("S", edge 1); ("B", edge (-5))]); ("B", [("A", edge (-5))])].
Definition negativeCycle : Graph string string :=
  graphOf ["S"; "A"; "B"] negativeAdjacency negativePredecessors directedWeighted.

(** A -> "B->C" -> D: a hash that contains the separator. *)
Definition separatorAdjacency : Snapshot string :=
  [("A", [("B->C", edge 0)]); ("B->C", [("D", edge 0)]); ("D", [])].
Definition separatorPredecessors : Snapshot string :=
  [("A", []); ("B->C", [("A", edge 0)]); ("D", [("B->C", edge 0)])].
Definition separatorGraph : Graph string string :=
  graphOf ["A"; "B->C"; "D"] separatorAdjacency separatorPredecessors directed.

(** AB -> A: a hash that occurs inside another. *)
Definition insideAdjacency : Snapshot string := [("AB", [("A", edge 0)]); ("A", [])].
Definition insidePredecessors : Snapshot string := [("AB", []); ("A", [("AB", edge 0)])].
Definition insideGraph : Graph string string :=
  graphOf ["AB"; "A"] insideAdjacency insidePredecessors directed.


(** "2" -> "10" -> "1" -> "3": the hash "1" occurs inside the hash "10". *)
Definition numberedAdjacency : Snapshot string :=
  [("2", [("10", edge 0)]); ("10", [("1", edge 0)]); ("1", [("3", edge 0)]);
   ("3", [])].
Definition numberedPredecessors : Snapshot string :=
  [("2", []); ("10", [("2", edge 0)]); ("1", [("10", edge 0)]);
   ("3", [("1", edge 0)])].
Definition numbered : Graph string string :=
  graphOf ["2"; "10"; "1"; "3"] numberedAdjacency numberedPredecessors directed.
(** ** Invariants of the loops *)

Section CycleInvariant.

Context {K : Type} `{Countable K}.

(** What is left to do for the search of [CreatesCycle]: the entries of the
    snapshot whose key is not visited. *)
Definition unvisitedSize (pm : Snapshot K) (visited : gmap K bool) : nat :=
  sum_list (map (fun e => match visited !! e.1 with
                          | Some _ => O
                          | None => S (length e.2)
                          end) pm).

(** The invariant of the search from [source]: the stack and the visited
    vertices are reached from [source]; no visited vertex is the target; the
    predecessors of a visited vertex are visited or wait on the stack. *)
Record cycleInv (pm : Snapshot K) (source target : K) (stack : list K)
    (visited : gmap K bool) : Prop := {
  inv_stack : forall x, x ∈ stack -> Reach pm source x;
  inv_visited : forall x, is_Some (visited !! x) -> Reach pm source x /\ x <> target;
  inv_closed : forall x y, is_Some (visited !! x) -> Step pm x y ->
                 is_Some (visited !! y) \/ y ∈ stack;
  inv_source : is_Some (visited !! source) \/ source ∈ stack
}.

End CycleInvariant.

Section ChainOfPredecessors.

Context {K : Type} `{Countable K}.

(** [Chain bp source v l]: [l] lists the vertices from [source] to [v], each
    the best predecessor of the next one. *)
Inductive Chain (bp : gmap K K) (source : K) : K -> list K -> Prop :=
| Chain_source : Chain bp source source [source]
| Chain_step v u l :
    v <> source -> bp !! v = Some u -> Chain bp source u l ->
    Chain bp source v (l ++ [v]).

End ChainOfPredecessors.

Section ShortestPathInvariant.

Context {K : Type} `{Countable K}.
Context {Q : PriorityQueue K} (items : queueOf Q -> list (K * float64)).

Variables (traits : GraphTraits) (am : Snapshot K) (source : K).

Definition Wt (st : spState) (v : K) : float64 := weightOf (weights st) v.
Definition queued (st : spState) (v : K) : Prop := v ∈ (items (queue st)).*1.
Definition popped (st : spState) (v : K) : Prop := v ∈ am.*1 /\ ~ queued st v.

(** What holds between two turns of the loop of [ShortestPath], and, with
    [rel] naming the edges that have had their turn, inside the range over
    the edges of the vertex just popped: the queue holds every vertex once,
    with its weight; a popped vertex weighs no more than a queued one; the
    edges of a popped vertex of finite weight are relaxed; the best
    predecessor of a vertex is popped, has an edge to it and accounts for its
    weight; the chain of best predecessors of a vertex leads back to
    [source] through popped vertices. *)
Record spInv (rel : K -> K * Edge -> Prop) (st : spState) : Prop := {
  I_keys : NoDup (items (queue st)).*1;
  I_sub : forall v, queued st v -> v ∈ am.*1;
  I_prio : forall v p, (v, p) ∈ items (queue st) -> p = Wt st v;
  I_src : Wt st source = Finite 0;
  I_pos : forall v, f64_le (Finite 0) (Wt st v);
  I_mono : forall u v, popped st u -> queued st v -> f64_le (Wt st u) (Wt st v);
  I_relaxed : forall u v e,
    popped st u -> Wt st u <> PosInf -> (v, e) ∈ edgesOf am u -> rel u (v, e) ->
    f64_le (Wt st v) (f64_add (Wt st u) (Finite (effectiveWeight traits e)));
  I_bp : forall v u, bestPredecessors st !! v = Some u ->
    popped st u /\ Wt st u <> PosInf /\ v <> source /\ v ∈ am.*1 /\
    exists e, (v, e) ∈ edgesOf am u /\
      Wt st v = f64_add (Wt st u) (Finite (effectiveWeight traits e));
  I_fin : forall v, v ∈ am.*1 -> v <> source -> Wt st v <> PosInf ->
    is_Some (bestPredecessors st !! v);
  I_chain : forall v u, bestPredecessors st !! v = Some u ->
    exists l, Chain (bestPredecessors st) source u l /\ NoDup l /\ (v ∉ l) /\
      forall x, x ∈ l -> popped st x
}.

(** Inside the range over the edges of the popped vertex [x], of weight
    [wx], with the edges [done] behind. *)
Record relaxInv (x : K) (wx : float64) (done : EdgeMap K) (st : spState)
    : Prop := {
  R_core : spInv (fun u ve => u <> x \/ ve ∈ done) st;
  R_popped : popped st x;
  R_wx : Wt st x = wx;
  R_le : forall u, popped st u -> f64_le (Wt st u) wx
}.

Definition withQueue (st : spState) (q : queueOf Q) : spState :=
  {| weights := weights st; bestPredecessors := bestPredecessors st; queue := q |}.

End ShortestPathInvariant.

Arguments I_keys {K _ _ Q items traits am source rel st}.
Arguments I_sub {K _ _ Q items traits am source rel st}.
Arguments I_prio {K _ _ Q items traits am source rel st}.
Arguments I_src {K _ _ Q items traits am source rel st}.
Arguments I_pos {K _ _ Q items traits am source rel st}.
Arguments I_mono {K _ _ Q items traits am source rel st}.
Arguments I_relaxed {K _ _ Q items traits am source rel st}.
Arguments I_bp {K _ _ Q items traits am source rel st}.
Arguments I_fin {K _ _ Q items traits am source rel st}.
Arguments I_chain {K _ _ Q items traits am source rel st}.

Section AllPathsInvariant.

Context {Q : PriorityQueue string}.
Context (items : queueOf Q -> list (string * float64)).

Variables (am : Snapshot string) (source target : string).

(** A partial path: a walk from [source] without a repeated vertex. *)
Definition WalkFrom (l : list string) : Prop :=
  head l = Some source /\ IsWalk am l /\ NoDup l.

(** The queue of [FindAllPaths] holds texts of partial paths, its results
    are texts of such paths that end at the target. *)
Definition queueOk (q : queueOf Q) : Prop :=
  forall p w, (p, w) ∈ items q -> exists l, p = joinPath l /\ WalkFrom l.

Definition pathsOk (paths : list string) : Prop :=
  forall p, p ∈ paths ->
    exists l, p = joinPath l /\ WalkFrom l /\ last l = Some target.

(** What the entries of the queue can still cost: an entry with [k] hashes
    has the budget of the hashes it has not taken. *)
Definition hashCount : nat := length (remove_dups (hashesOf am source)).

Definition budgetOf (e : string * float64) : nat :=
  pathBudget (maxDegree am) (hashCount - length (Split e.1 gap)).

Definition potential (q : queueOf Q) : nat := sum_list_with budgetOf (items q).

(** The budget of an extension of a path with [k] hashes. *)
Definition stepBudget (k : nat) : nat :=
  if decide (k < hashCount)%nat
  then pathBudget (maxDegree am) (hashCount - S k) else O.

(** A simple path to the target is among the results, or one of its proper
    beginnings waits in the queue. *)
Definition complete (q : queueOf Q) (paths : list string) : Prop :=
  forall l, SimplePath am source target l ->
    joinPath l ∈ paths \/
    exists l1 l2, l = l1 ++ l2 /\ l1 <> [] /\ l2 <> [] /\
                  joinPath l1 ∈ (items q).*1.

End AllPathsInvariant.

(** ** Paths, weights and cycles *)

Section MoreGraphs.

Context {K : Type} `{Countable K}.

(** The hashes at the far end of the edges of a snapshot. *)
Definition edgeTargets (m : Snapshot K) : list K := flat_map (fun e => e.2.*1) m.

(** [es[v]] on an inner map: the edge kept under the key [v]. *)
Fixpoint edgeOf (es : EdgeMap K) (v : K) : option Edge :=
  match es with
  | [] => None
  | (v', e) :: es' => if decide (v' = v) then Some e else edgeOf es' v
  end.

(** [m[u][v]] *)
Definition edgeBetween (m : Snapshot K) (u v : K) : option Edge :=
  edgeOf (edgesOf m u) v.

(** The weight [ShortestPath] counts for the step from [u] to [v]. *)
Definition stepWeight (traits : GraphTraits) (m : Snapshot K) (u v : K) : Z :=
  match edgeBetween m u v with
  | Some e => effectiveWeight traits e
  | None => 0
  end.

(** The total weight of a path given by its vertices. *)
Fixpoint walkWeight (traits : GraphTraits) (m : Snapshot K) (l : list K) : Z :=
  match l with
  | [] => 0
  | u :: l' =>
    match l' with
    | [] => 0
    | v :: _ => stepWeight traits m u v + walkWeight traits m l'
    end
  end.


(** Every best predecessor has an edge to the vertex it is recorded for. *)
Definition alongEdges (m : Snapshot K) (bp : gmap K K) : Prop :=
  forall v u, bp !! v = Some u -> Step m u v.

(** No vertex comes back to itself along the steps of the snapshot. *)
Definition Acyclic (m : Snapshot K) : Prop := forall v, ~ tc (Step m) v v.

(** [pm'] is the predecessor snapshot [pm] with one more edge, from [source]
    to [target]: [source] is one more predecessor of [target]. *)
Definition WithEdge (pm pm' : Snapshot K) (source target : K) : Prop :=
  forall u v, Step pm' u v <-> Step pm u v \/ (u = target /\ v = source).

End MoreGraphs.


(** 1 -> 2 -> 3 with the edge from 1 to 3 added, seen from the predecessors. *)
Definition chainShortcutPredecessors : Snapshot Z :=
  [(1, []); (2, [(1, edge 0)]); (3, [(2, edge 0); (1, edge 0)])].

(** A graph of weights without an entry for its vertex 9, which 1 leads to:
    1 -> 2 (-3), 1 -> 9 (1). *)
Definition looseAdjacency : Snapshot Z :=
  [(1, [(2, edge (-3)); (9, edge 1)]); (2, [])].
Definition loose : Graph Z Z :=
  graphOf [1; 2] looseAdjacency [] directedWeighted.


(** The chain 1 -> 2 -> 3 with its maps ranged over in another order. *)
Definition chainReorderedPredecessors : Snapshot Z :=
  [(3, [(2, edge 0)]); (1, []); (2, [(1, edge 0)])].
Definition chainAgain : Graph Z Z :=
  graphOf [3; 1; 2] chainAdjacency chainReorderedPredecessors directed.

(** ** The sums of [float64] *)

(** The arithmetic of [float64] that [ShortestPath] uses: the sum
    [weights[vertex] + float64(edgeWeight)] and the conversion
    [float64(edgeWeight)] of an [int]. *)
Record Float64Ops : Type := {
  add64 : float64 -> float64 -> float64;
  ofInt : Z -> float64
}.

(** The arithmetic is exact on the whole numbers from 0 to [bound]. *)
Definition exactUpTo (bound : Z) (ops : Float64Ops) : Prop :=
  (forall w, 0 <= w <= bound -> ofInt ops w = Finite w) /\
  (forall x y, 0 <= x -> 0 <= y -> x + y <= bound ->
     add64 ops (Finite x) (Finite y) = Finite (x + y)).

(** A whole number as [float64] keeps it: 53 binary digits, rounded to the
    nearest value that has them, and to the one with an even last digit when
    two are as near.  (Sums beyond 2^1024 do not occur: they take more than
    2^960 weights of type [int].) *)
Definition round64 (z : Z) : Z :=
  let a := Z.abs z in
  let e := Z.log2 a - 52 in
  if e <=? 0 then z
  else
    let u := 2 ^ e in
    let q := a / u in
    let r := a mod u in
    let q' := if 2 * r <? u then q
              else if u <? 2 * r then q + 1
              else if Z.even q then q else q + 1 in
    Z.sgn z * (q' * u).

(** The arithmetic of Go on whole numbers. *)
Definition ieeeOps : Float64Ops := {|
  add64 a b := match a, b with
               | Finite x, Finite y => Finite (round64 (x + y))
               | _, _ => PosInf
               end;
  ofInt w := Finite (round64 w)
|}.

Section Rounding.

Context {K : Type} `{Countable K}.
Context {T : Type} {Q : PriorityQueue K}.

(** The weight of the edges that leave [u], summed. *)
Definition outWeight (traits : GraphTraits) (m : Snapshot K) (u : K) : Z :=
  foldr Z.add 0 ((fun f => Z.abs (effectiveWeight traits f.2)) <$> edgesOf m u).

(** [relax], [shortestPathLoop] and [ShortestPath] with the arithmetic of
    [float64] left open. *)
Definition relaxWith (ops : Float64Ops) (traits : GraphTraits)
    (hasInfiniteWeight : bool) (vertex : K) (st : spState) (entry : K * Edge)
    : spState :=
  let adjacency := entry.1 in
  let edgeWeight := effectiveWeight traits entry.2 in
  let weight := add64 ops (weightOf (weights st) vertex) (ofInt ops edgeWeight) in
  if f64_ltb weight (weightOf (weights st) adjacency) && negb hasInfiniteWeight
  then {| weights := <[adjacency := weight]> (weights st);
          bestPredecessors := <[adjacency := vertex]> (bestPredecessors st);
          queue := UpdatePriority (queue st) adjacency weight |}
  else st.

Fixpoint shortestPathLoopWith (ops : Float64Ops) (fuel : nat)
    (traits : GraphTraits) (adjacencyMap : Snapshot K) (st : spState)
    : option spState :=
  match fuel with
  | O => None
  | S fuel' =>
    if bool_decide (0 < Len (queue st))%nat then
      let '((vertex, _), queue') := Pop (queue st) in
      let hasInfiniteWeight := IsInf (weightOf (weights st) vertex) in
      let st' := {| weights := weights st;
                    bestPredecessors := bestPredecessors st;
                    queue := queue' |} in
      shortestPathLoopWith ops fuel' traits adjacencyMap
        (fold_left (relaxWith ops traits hasInfiniteWeight vertex)
                   (edgesOf adjacencyMap vertex) st')
    else Some st
  end.

Definition ShortestPathWith (ops : Float64Ops) (fuel : nat) (g : Graph K T)
    (source target : K) : option (list K * option Error) :=
  match AdjacencyMap g with
  | (_, Some err) =>
      Some ([], Some (Wrapf "could not get adjacency map: %w" err))
  | (adjacencyMap, None) =>
    match shortestPathLoopWith ops fuel (Traits g) adjacencyMap
            (shortestPathStart source adjacencyMap) with
    | None => None
    | Some st => walkBack fuel (bestPredecessors st) source target [target]
    end
  end.

End Rounding.

(** A -> B (2^53), B -> C (3), A -> C (2^53 + 4): sums that [float64]
    rounds. *)
Definition largeAdjacency : Snapshot string :=
  [("A", [("B", edge (2 ^ 53)); ("C", edge (2 ^ 53 + 4))]);
   ("B", [("C", edge 3)]); ("C", [])].
Definition largePredecessors : Snapshot string :=
  [("A", []); ("B", [("A", edge (2 ^ 53))]);
   ("C", [("A", edge (2 ^ 53 + 4)); ("B", edge 3)])].
Definition large : Graph string string :=
  graphOf ["A"; "B"; "C"] largeAdjacency largePredecessors directedWeighted.
(** ** The search of StronglyConnectedComponents *)

Section SccInvariant.

Context {K : Type} `{Countable K} `{GoZero K}.

Local Abbreviation sccState := (sccState (K := K)).

(** The vertices a snapshot speaks of: its keys and the far ends of its
    edges. *)
Definition vertices (m : Snapshot K) : list K := m.*1 ++ edgeTargets m.

(** The first lines of [findSCC]: the vertex is pushed, marked and numbered. *)
Definition sccPush (vertexHash : K) (state : sccState) : sccState :=
  {| adjacencyMap := adjacencyMap state;
     components := components state;
     stack := vertexHash :: stack state;
     onStack := <[vertexHash := true]> (onStack state);
     visited := <[vertexHash := tt]> (visited state);
     lowlink := <[vertexHash := time state]> (lowlink state);
     index := <[vertexHash := time state]> (index state);
     time := time state + 1 |}.

(** The loop [for adjacency := range state.adjacencyMap[vertexHash]] of
    [findSCC], with [call] for the call of [findSCC] on a neighbour. *)
Definition sccNeighbours (call : K -> sccState -> option sccState)
    (vertexHash : K) : list K -> sccState -> option sccState :=
  fix range (adjacencies : list K) (state : sccState) : option sccState :=
    match adjacencies with
    | [] => Some state
    | adjacency :: rest =>
      match visited state !! adjacency with
      | None =>
        match call adjacency state with
        | None => None
        | Some state =>
            range rest
              (lowerLowlink vertexHash (intOf (lowlink state) adjacency) state)
        end
      | Some _ =>
        if default false (onStack state !! adjacency)
        then range rest
               (lowerLowlink vertexHash (intOf (index state) adjacency) state)
        else range rest state
      end
    end.

(** The last lines of [findSCC]: the component of a vertex whose lowlink is
    its index is popped. *)
Definition sccPop (vertexHash : K) (state : sccState) : option sccState :=
  if decide (intOf (lowlink state) vertexHash = intOf (index state) vertexHash)
  then
    match popComponent vertexHash zeroValue (stack state) (onStack state) []
    with
    | None => None
    | Some (stack', onStack', component) =>
        Some {| adjacencyMap := adjacencyMap state;
                components := components state ++ [component];
                stack := stack';
                onStack := onStack';
                visited := visited state;
                lowlink := lowlink state;
                index := index state;
                time := time state |}
    end
  else Some state.

Definition isVisited (st : sccState) (v : K) : Prop := is_Some (visited st !! v).
Definition idx (st : sccState) (v : K) : Z := intOf (index st) v.
Definition low (st : sccState) (v : K) : Z := intOf (lowlink st) v.

(** The vertices of [vs] that the search has not visited. *)
Definition unvisited (vs : list K) (st : sccState) : nat :=
  length (filter (fun v => visited st !! v = None) vs).

(** Fuel for [StronglyConnectedComponents]: the calls of [findSCC] are
    nested at most as deep as there are vertices. *)
Definition sccFuel (m : Snapshot K) : nat := S (length (vertices m)).

Variable am : Snapshot K.

(** What holds of the state between the steps of the search, with [gray]
    the vertices whose call of [findSCC] has not returned: a visited vertex
    has an index below the time; the marks [onStack] name the vertices on the
    stack; a visited vertex is on the stack or in one component, once; the
    gray vertices are on the stack; a gray vertex reaches the vertices above
    it on the stack, and every vertex on the stack reaches a gray vertex that
    is not above it; the edges of a vertex whose call has returned lead to
    visited vertices; the edges of a component lead into it or into an
    earlier one; a component holds the vertices that reach and are reached
    from each of its own. *)
Record sccInv (gray : list K) (st : sccState) : Prop := {
  V_am : adjacencyMap st = am;
  V_univ : forall v, isVisited st v -> v ∈ vertices am;
  V_time : forall v, isVisited st v -> idx st v < time st;
  V_on : forall v, default false (onStack st !! v) = true <-> v ∈ stack st;
  V_nodup : NoDup (stack st ++ concat (components st));
  V_visited : forall v, isVisited st v <-> v ∈ stack st ++ concat (components st);
  V_gray : forall x, x ∈ gray -> x ∈ stack st;
  V_gray_reach : forall x y,
    x ∈ gray -> y ∈ stack st -> idx st x <= idx st y -> Reach am x y;
  V_stack_reach : forall y, y ∈ stack st ->
    exists x, x ∈ gray /\ idx st x <= idx st y /\ Reach am y x;
  V_black : forall a b, isVisited st a -> a ∉ gray -> Step am a b -> isVisited st b;
  V_closed : forall i c a b,
    components st !! i = Some c -> a ∈ c -> Step am a b ->
    exists j c', (j <= i)%nat /\ components st !! j = Some c' /\ b ∈ c';
  V_scc : forall c, c ∈ components st ->
    c <> [] /\ forall u v, u ∈ c -> (v ∈ c <-> Reach am u v /\ Reach am v u)
}.

(** What the state [st] keeps of the state [st0] in which [findSCC] was
    called on [v]: the visited vertices with their index and lowlink; the
    vertices visited since have an index from the time of the call on, and
    sit on the stack above the stack of [st0] or are in a component. *)
Record sccKeeps (v : K) (st0 st : sccState) : Prop := {
  K_mono : forall x, isVisited st0 x -> isVisited st x;
  K_index : forall x, isVisited st0 x -> idx st x = idx st0 x;
  K_low : forall x, isVisited st0 x -> low st x = low st0 x;
  K_new : forall x, ~ isVisited st0 x -> isVisited st x -> time st0 <= idx st x;
  K_idx : idx st v = time st0;
  K_time : time st0 < time st
}.

(** Inside the loop over the neighbours of [v], with the neighbours [seen]
    behind: [v] is on the stack above the stack of [st0], below the vertices
    pushed since; its lowlink is the index of a vertex it reaches on the
    stack, and no edge from the new part of the stack into the stack of
    [st0], but the edges of [v] still to come, leads below it. *)
Record sccLoop (gray : list K) (v : K) (st0 : sccState) (seen : list K)
    (st : sccState) : Prop := {
  L_inv : sccInv (v :: gray) st;
  L_keeps : sccKeeps v st0 st;
  L_stack : exists ext, stack st = ext ++ v :: stack st0 /\
    forall x, x ∈ ext -> ~ isVisited st0 x;
  L_low_le : low st v <= idx st v;
  L_low_reach : exists y,
    y ∈ v :: stack st0 /\ idx st y = low st v /\ Reach am v y;
  L_edges : forall x y,
    x ∈ stack st -> x ∉ stack st0 -> y ∈ stack st0 -> Step am x y ->
    x <> v \/ y ∈ seen -> low st v <= idx st y;
  L_seen : forall w, w ∈ seen -> isVisited st w
}.

(** What a call of [findSCC] on [v] in the state [st0] leaves. *)
Record sccPost (gray : list K) (v : K) (st0 st : sccState) : Prop := {
  P_inv : sccInv gray st;
  P_keeps : sccKeeps v st0 st;
  P_v : isVisited st v;
  P_stack : exists ext, stack st = ext ++ stack st0 /\
    (forall x, x ∈ ext -> ~ isVisited st0 x) /\
    ((ext = [] /\ low st v = idx st v) \/
     (v ∈ ext /\ low st v < idx st v /\
      exists y, y ∈ stack st0 /\ idx st y = low st v /\ Reach am v y));
  P_edges : forall x y,
    x ∈ stack st -> x ∉ stack st0 -> y ∈ stack st0 -> Step am x y ->
    low st v <= idx st y
}.

End SccInvariant.

(** 1 -> 2, 2 -> 1, 2 -> 3: the component of 1 and 2, and the one of 3. *)
Definition loopAdjacency : Snapshot Z :=
  [(1, [(2, edge 0)]); (2, [(1, edge 0); (3, edge 0)]); (3, [])].
Definition loopPredecessors : Snapshot Z :=
  [(1, [(2, edge 0)]); (2, [(1, edge 0)]); (3, [(2, edge 0)])].
Definition loopGraph : Graph Z Z :=
  graphOf [1; 2; 3] loopAdjacency loopPredecessors directed.
(** ** The texts of FindAllPaths, whatever the hashes *)

Section AllPathsTexts.

Context {Q : PriorityQueue string}.
Context (items : queueOf Q -> list (string * float64)).

Variables (am : Snapshot string) (source target : string).

(** The hashes that do not occur in the text [p]: the ones the test
    [strings.Contains] lets [p] be extended by. *)
Definition freeHashes (p : string) : nat :=
  length (filter (fun h => Contains p h = false)
                 (remove_dups (hashesOf am source))).

(** What an entry of the queue can still cost, and what one extension of
    the text [p] can. *)
Definition textBudget (e : string * float64) : nat :=
  pathBudget (maxDegree am) (freeHashes e.1).

Definition textPotential (q : queueOf Q) : nat :=
  sum_list_with textBudget (items q).

Definition extensionBudget (p : string) : nat :=
  match freeHashes p with
  | O => O
  | S n => pathBudget (maxDegree am) n
  end.

(** Every text in the queue begins with the source. *)
Definition fromSource (q : queueOf Q) : Prop :=
  forall p w, (p, w) ∈ items q -> HasPrefix p source = true.

(** Every result is a text that begins with the source and in which the
    target does not occur, extended by the separator and the target. *)
Definition toTarget (paths : list string) : Prop :=
  forall p, p ∈ paths ->
    exists p0, HasPrefix p0 source = true /\ Contains p0 target = false /\
               p = p0 +:+ gap +:+ target.

End AllPathsTexts.
(** * Properties *)

Lemma errorsIs_refl (e : Error) : errorsIs e e.
Proof. destruct e; by left. Qed.

(** ** Snapshots and walks *)

Section SnapshotFacts.

Context {K : Type} `{Countable K}.

Implicit Types (m : Snapshot K) (u v : K) (l : list K).

Lemma pushAll_spec (hashes stack : list K) :
  pushAll hashes stack = reverse hashes ++ stack.
Proof.
  unfold pushAll. revert stack.
  induction hashes as [|x hashes IH]; intros stack; simpl; [done|].
  rewrite IH, reverse_cons, <- app_assoc. done.
Qed.

Lemma edgesOf_elem m k es :
  NoDup m.*1 -> (k, es) ∈ m -> edgesOf m k = es.
Proof.
  induction m as [|[k' es'] m IH]; simpl; intros Hnd Hin.
  - by apply elem_of_nil in Hin.
  - apply NoDup_cons in Hnd as [Hk' Hnd].
    apply elem_of_cons in Hin as [Heq|Hin].
    + inversion Heq; subst. by rewrite decide_True.
    + destruct (decide (k' = k)) as [->|Hne]; [|by apply IH].
      exfalso. apply Hk'. apply list_elem_of_fmap. by exists (k, es).
Qed.

Lemma edgesOf_not_key m k : k ∉ m.*1 -> edgesOf m k = [].
Proof.
  induction m as [|[k' es'] m IH]; simpl; intros Hk; [done|].
  apply not_elem_of_cons in Hk as [Hne Hk].
  rewrite decide_False by done. by apply IH.
Qed.

Lemma edgesOf_key m k : edgesOf m k <> [] -> (k, edgesOf m k) ∈ m.
Proof.
  induction m as [|[k' es'] m IH]; simpl; intros Hk; [done|].
  destruct (decide (k' = k)) as [->|Hne].
  - apply elem_of_cons. by left.
  - apply elem_of_cons. right. by apply IH.
Qed.

Lemma Step_key m u v : Step m u v -> u ∈ m.*1.
Proof.
  unfold Step, neighbours. intros Hv.
  assert (Hne : edgesOf m u <> []).
  { intros E. rewrite E in Hv. by apply elem_of_nil in Hv. }
  apply edgesOf_key in Hne. apply list_elem_of_fmap. by exists (u, edgesOf m u).
Qed.

(** A path, seen from its last edge. *)
Lemma IsWalk_snoc m l u v :
  IsWalk m (l ++ [u]) -> Step m u v -> IsWalk m ((l ++ [u]) ++ [v]).
Proof.
  induction l as [|x l IH]; simpl; intros Hw Hs; [done|].
  destruct l as [|y l]; simpl in *.
  - destruct Hw as [Hxu _]. done.
  - destruct Hw as [Hxy Hw]. split; [done|]. by apply IH.
Qed.

Lemma IsWalk_app_inv m l1 l2 : IsWalk m (l1 ++ l2) -> IsWalk m l1 /\ IsWalk m l2.
Proof.
  induction l1 as [|x l1 IH]; simpl; intros Hw; [done|].
  destruct l1 as [|y l1]; simpl in *.
  - split; [done|]. destruct l2; [done|]. by destruct Hw.
  - destruct Hw as [Hxy Hw]. apply IH in Hw as [H1 H2]. done.
Qed.

Lemma Reach_IsPath m u v : Reach m u v <-> exists l, IsPath m u v l.
Proof.
  split.
  - induction 1 as [x|x y z Hxy _ (l & Hh & Hl & Hw)].
    + exists [x]. by repeat split.
    + exists (x :: l). destruct l as [|y' l]; [done|]. simpl in Hh.
      inversion Hh; subst. repeat split; simpl; try done.
  - intros (l & Hh & Hl & Hw). revert u Hh Hw.
    induction l as [|x l IH]; intros u Hh Hw; [done|].
    simpl in Hh. inversion Hh; subst. destruct l as [|y l].
    + simpl in Hl. inversion Hl; subst. apply rtc_refl.
    + destruct Hw as [Hxy Hw]. eapply rtc_l; [exact Hxy|].
      apply IH; try done.
Qed.

End SnapshotFacts.

(** ** CreatesCycle *)

Section CreatesCycleFacts.

Context {K : Type} `{Countable K}.
Context {T : Type}.

Implicit Types (pm : Snapshot K) (visited : gmap K bool) (stack : list K).

Lemma unvisitedSize_empty pm : unvisitedSize pm ∅ = snapshotSize pm.
Proof.
  unfold unvisitedSize, snapshotSize. f_equal; by apply map_ext.
Qed.

Lemma unvisitedSize_mono pm visited k :
  (unvisitedSize pm (<[k := true]> visited) <= unvisitedSize pm visited)%nat.
Proof.
  unfold unvisitedSize. induction pm as [|[k' es] pm IH]; simpl; [lia|].
  destruct (decide (k = k')) as [->|Hne].
  - rewrite lookup_insert_eq. destruct (visited !! k'); lia.
  - rewrite lookup_insert_ne by done. destruct (visited !! k'); lia.
Qed.

Lemma unvisitedSize_visit pm visited k :
  visited !! k = None ->
  (unvisitedSize pm (<[k := true]> visited) + length (neighbours pm k)
   <= unvisitedSize pm visited)%nat.
Proof.
  intros Hk. unfold neighbours. rewrite length_fmap.
  induction pm as [|[k' es] pm IH]; simpl; [unfold unvisitedSize; simpl; lia|].
  unfold unvisitedSize in *. simpl.
  destruct (decide (k' = k)) as [->|Hne].
  - rewrite lookup_insert_eq, Hk.
    pose proof (unvisitedSize_mono pm visited k) as Hm.
    unfold unvisitedSize in Hm. lia.
  - rewrite lookup_insert_ne by done. destruct (visited !! k'); lia.
Qed.

(** The loop finishes within the fuel the stack and the entries that are not
    visited ask for. *)
Lemma createsCycleLoop_finishes fuel pm target stack visited :
  (length stack + unvisitedSize pm visited < fuel)%nat ->
  is_Some (createsCycleLoop fuel pm target stack visited).
Proof.
  revert stack visited.
  induction fuel as [|fuel IH]; intros stack visited Hf; [lia|].
  simpl. destruct stack as [|cur stack]; [by eexists|].
  destruct (visited !! cur) eqn:Hcur.
  - apply IH. simpl in Hf. lia.
  - destruct (decide (cur = target)); [by eexists|].
    apply IH. rewrite pushAll_spec, length_app, length_reverse.
    pose proof (unvisitedSize_visit pm visited cur Hcur). simpl in Hf. lia.
Qed.

Lemma cycleInv_init pm source target : cycleInv pm source target [source] ∅.
Proof.
  split.
  - intros x Hx. apply list_elem_of_singleton in Hx as ->. apply rtc_refl.
  - intros x [? Hx]. by rewrite lookup_empty in Hx.
  - intros x y [? Hx]. by rewrite lookup_empty in Hx.
  - right. by apply list_elem_of_singleton.
Qed.

Lemma cycleInv_skip pm source target cur stack visited :
  is_Some (visited !! cur) ->
  cycleInv pm source target (cur :: stack) visited ->
  cycleInv pm source target stack visited.
Proof.
  intros Hcur [Hst Hvis Hcl Hsrc]. split.
  - intros x Hx. apply Hst. by apply elem_of_cons; right.
  - done.
  - intros x y Hx Hxy. destruct (Hcl x y Hx Hxy) as [Hy|Hy]; [by left|].
    apply elem_of_cons in Hy as [->|Hy]; [by left|by right].
  - destruct Hsrc as [Hs|Hs]; [by left|].
    apply elem_of_cons in Hs as [->|Hs]; [by left|by right].
Qed.

Lemma cycleInv_visit pm source target cur stack visited :
  visited !! cur = None -> cur <> target ->
  cycleInv pm source target (cur :: stack) visited ->
  cycleInv pm source target (pushAll (neighbours pm cur) stack)
           (<[cur := true]> visited).
Proof.
  intros Hcur Hne [Hst Hvis Hcl Hsrc].
  assert (Hrc : Reach pm source cur) by (apply Hst, elem_of_cons; by left).
  split.
  - intros x Hx. rewrite pushAll_spec in Hx.
    apply elem_of_app in Hx as [Hx|Hx].
    + rewrite elem_of_reverse in Hx. eapply rtc_r; [exact Hrc|exact Hx].
    + apply Hst. by apply elem_of_cons; right.
  - intros x Hx. destruct (decide (cur = x)) as [<-|Hcx]; [done|].
    rewrite lookup_insert_ne in Hx by done. by apply Hvis.
  - intros x y Hx Hxy. rewrite pushAll_spec.
    destruct (decide (cur = x)) as [<-|Hcx].
    + right. apply elem_of_app. left. by rewrite elem_of_reverse.
    + rewrite lookup_insert_ne in Hx by done.
      destruct (Hcl x y Hx Hxy) as [Hy|Hy].
      * left. destruct (decide (cur = y)) as [<-|?].
        -- rewrite lookup_insert_eq. by eexists.
        -- by rewrite lookup_insert_ne.
      * apply elem_of_cons in Hy as [->|Hy].
        -- left. rewrite lookup_insert_eq. by eexists.
        -- right. apply elem_of_app. by right.
  - destruct Hsrc as [Hs|Hs].
    + left. destruct (decide (cur = source)) as [<-|?].
      * rewrite lookup_insert_eq. by eexists.
      * by rewrite lookup_insert_ne.
    + apply elem_of_cons in Hs as [->|Hs].
      * left. rewrite lookup_insert_eq. by eexists.
      * right. rewrite pushAll_spec. apply elem_of_app. by right.
Qed.

(** With the stack empty, the visited vertices are all that [source]
    reaches. *)
Lemma cycleInv_done pm source target visited x :
  cycleInv pm source target [] visited ->
  Reach pm source x -> is_Some (visited !! x).
Proof.
  intros [Hst Hvis Hcl Hsrc] Hr.
  assert (Hs : is_Some (visited !! source)).
  { destruct Hsrc as [Hs|Hs]; [done|]. by apply elem_of_nil in Hs. }
  clear Hsrc Hst Hvis. revert Hs.
  induction Hr as [x|x y z Hxy _ IH]; intros Hs; [done|].
  apply IH. destruct (Hcl x y Hs Hxy) as [Hy|Hy]; [done|].
  by apply elem_of_nil in Hy.
Qed.

Lemma createsCycleLoop_sound fuel pm source target stack visited b :
  cycleInv pm source target stack visited ->
  createsCycleLoop fuel pm target stack visited = Some b ->
  (b = true <-> Reach pm source target).
Proof.
  revert stack visited.
  induction fuel as [|fuel IH]; intros stack visited Hinv Hrun; [done|].
  simpl in Hrun. destruct stack as [|cur stack].
  - inversion Hrun; subst. split; [done|]. intros Hr.
    apply (cycleInv_done _ _ _ _ _ Hinv) in Hr.
    by apply (inv_visited _ _ _ _ _ Hinv) in Hr as [_ Hne].
  - destruct (visited !! cur) eqn:Hcur.
    + eapply IH; [|exact Hrun]. eapply cycleInv_skip; [|exact Hinv].
      rewrite Hcur. by eexists.
    + destruct (decide (cur = target)) as [->|Hne].
      * inversion Hrun; subst. split; [|done]. intros _.
        apply (inv_stack _ _ _ _ _ Hinv). by apply elem_of_cons; left.
      * eapply IH; [|exact Hrun]. by apply cycleInv_visit.
Qed.

Lemma PathVia_Reach pm a b : PathVia pm a b <-> Reach pm b a.
Proof.
  split.
  - induction 1 as [a|a b c Hba _ IH]; [apply rtc_refl|].
    eapply rtc_r; [exact IH|exact Hba].
  - revert a. unfold Reach. apply rtc_ind_r.
    + apply PathVia_refl.
    + intros y z _ Hyz IH. eapply PathVia_step; [exact Hyz|exact IH].
Qed.

(** On the same vertex twice the answer is true, before the predecessor
    snapshot is asked for. *)
Lemma CreatesCycle_same (g : Graph K T) (v : K) (fuel : nat) :
  hasVertex g v -> CreatesCycle fuel g v v = Some (true, None).
Proof.
  unfold hasVertex, CreatesCycle. destruct (Vertex g v) as [x e]. simpl.
  intros ->. by rewrite decide_True.
Qed.

(** C7: on two vertices of the graph [CreatesCycle] answers true exactly when
    they are equal or the target is reached from the source by walking
    backward through predecessor edges.  So it answers true on [v], [v], and
    when it answers false on [a], [b] the snapshot has no path from [b] to
    [a]. *)
Theorem CreatesCycle_reach (g : Graph K T) (pm : Snapshot K) (source target : K)
    (fuel : nat) :
  hasVertex g source -> hasVertex g target ->
  PredecessorMap g = (pm, None) -> (cycleFuel pm <= fuel)%nat ->
  exists b, CreatesCycle fuel g source target = Some (b, None) /\
    (b = true <-> source = target \/ Reach pm source target) /\
    (source = target -> b = true) /\
    (b = false -> ~ PathVia pm target source).
Proof.
  intros Hs Ht Hpm Hfuel. destruct (decide (source = target)) as [->|Hne].
  { exists true. rewrite CreatesCycle_same by done.
    split; [done|]. split; [|done]. split; [intros _; by left|done]. }
  unfold hasVertex in *. unfold CreatesCycle.
  destruct (Vertex g source) as [vs es]. destruct (Vertex g target) as [vt et].
  simpl in Hs, Ht. subst es et. rewrite decide_False by done. rewrite Hpm.
  destruct (createsCycleLoop_finishes fuel pm target [source] ∅) as [b Hb].
  { rewrite unvisitedSize_empty. unfold cycleFuel in Hfuel. simpl. lia. }
  rewrite Hb. exists b. split; [done|].
  pose proof (createsCycleLoop_sound _ _ source _ _ _ _
                (cycleInv_init pm source target) Hb) as Hiff.
  split; [|split].
  - rewrite Hiff. split; [by right|]. intros [->|Hr]; [apply rtc_refl|done].
  - done.
  - intros -> Hp. apply PathVia_Reach in Hp. apply Hiff in Hp. done.
Qed.

(** C9: when the lookup of the source fails because the vertex is not there,
    or the source is there and the lookup of the target fails so,
    [CreatesCycle] returns that error, wrapped, and [false] in the place of
    the answer. *)
Theorem CreatesCycle_vertex_not_found (g : Graph K T) (source target : K)
    (fuel : nat) :
  vertexNotFound g source \/ (hasVertex g source /\ vertexNotFound g target) ->
  exists err, CreatesCycle fuel g source target = Some (false, Some err) /\
              errorsIs err ErrVertexNotFound.
Proof.
  unfold vertexNotFound, hasVertex, CreatesCycle.
  destruct (Vertex g source) as [vs es]. destruct (Vertex g target) as [vt et].
  simpl. intros [->|[-> ->]]; eexists; (split; [reflexivity|]); simpl; auto.
Qed.

End CreatesCycleFacts.

Lemma CreatesCycle_reach_witness :
  exists b, CreatesCycle 10 chain 3 1 = Some (b, None) /\
    (b = true <-> 3 = 1 \/ Reach chainPredecessors 3 1) /\
    (3 = 1 -> b = true) /\
    (b = false -> ~ PathVia chainPredecessors 1 3).
Proof.
  apply (CreatesCycle_reach chain chainPredecessors 3 1 10);
    [reflexivity | reflexivity | reflexivity | vm_compute; lia].
Defined.

Lemma CreatesCycle_vertex_not_found_witness :
  exists err, CreatesCycle 10 chain 1 7 = Some (false, Some err) /\
              errorsIs err ErrVertexNotFound.
Proof.
  apply (CreatesCycle_vertex_not_found chain 1 7 10).
  right. split; reflexivity.
Defined.

(** ** Weights and the priority queue *)

Ltac f64_cases :=
  repeat match goal with
         | x : float64 |- _ => destruct x
         end;
  unfold f64_le, f64_ltb, f64_add, IsInf in *; simpl in *;
  repeat match goal with
         | H : bool_decide _ = true |- _ => apply bool_decide_eq_true_1 in H
         | H : bool_decide _ = false |- _ => apply bool_decide_eq_false_1 in H
         | |- bool_decide _ = true => apply bool_decide_eq_true_2
         | |- bool_decide _ = false => apply bool_decide_eq_false_2
         end;
  try done; try congruence; try lia.

Lemma f64_le_refl a : f64_le a a.
Proof. f64_cases. Qed.

Lemma f64_le_trans a b c : f64_le a b -> f64_le b c -> f64_le a c.
Proof. intros. f64_cases. Qed.

Lemma f64_ltb_le a b : f64_ltb a b = true -> f64_le a b.
Proof. intros. f64_cases. Qed.

Lemma f64_le_PosInf a : f64_le a PosInf.
Proof. f64_cases. Qed.

Lemma f64_le_add a z : 0 <= z -> f64_le a (f64_add a (Finite z)).
Proof. intros. f64_cases. Qed.

Lemma f64_le_Finite a z : f64_le a (Finite z) -> exists y, a = Finite y /\ y <= z.
Proof. intros. destruct a as [y|]; [exists y; split; [done|]|]; f64_cases. Qed.

Section QueueFacts.

Context {A : Type} `{EqDecision A} `{GoZero A}.

Implicit Types (l : list (A * float64)) (e m : A * float64).

Lemma setPriority_fst (x : A) p l : (setPriority x p l).*1 = l.*1.
Proof.
  unfold setPriority. induction l as [|e l IH]; simpl; [done|].
  f_equal; [|exact IH]. by destruct (decide (e.1 = x)) as [<-|].
Qed.

Lemma setPriority_length (x : A) p l : length (setPriority x p l) = length l.
Proof. unfold setPriority. by rewrite length_map. Qed.

Lemma setPriority_elem (x : A) p l y py :
  (y, py) ∈ setPriority x p l ->
  (y = x /\ py = p /\ x ∈ l.*1) \/ (y <> x /\ (y, py) ∈ l).
Proof.
  unfold setPriority. intros Hin. apply list_elem_of_fmap in Hin as ([z pz] & Heq & Hin).
  simpl in Heq. destruct (decide (z = x)) as [->|Hne].
  - inversion Heq; subst. left. repeat split.
    apply list_elem_of_fmap. by exists (x, pz).
  - inversion Heq; subst. by right.
Qed.

Lemma minEntry_elem best l : minEntry best l ∈ best :: l.
Proof.
  revert best. induction l as [|e l IH]; intros best; simpl.
  - by apply list_elem_of_singleton.
  - specialize (IH (if f64_ltb e.2 best.2 then e else best)).
    apply elem_of_cons in IH as [->|IH].
    + destruct (f64_ltb e.2 best.2); [apply elem_of_cons; right|];
        apply elem_of_cons; by left.
    + apply elem_of_cons; right. by apply elem_of_cons; right.
Qed.

Lemma minEntry_least best l e :
  e ∈ best :: l -> f64_le (minEntry best l).2 e.2.
Proof.
  revert best e. induction l as [|e' l IH]; intros best e Hin; simpl.
  - apply list_elem_of_singleton in Hin as ->. apply f64_le_refl.
  - set (b := if f64_ltb e'.2 best.2 then e' else best).
    assert (Hb1 : f64_le b.2 best.2).
    { unfold b. destruct (f64_ltb e'.2 best.2) eqn:E;
        [by apply f64_ltb_le|apply f64_le_refl]. }
    assert (Hb2 : f64_le b.2 e'.2).
    { unfold b. destruct (f64_ltb e'.2 best.2) eqn:E;
        [apply f64_le_refl|done]. }
    apply elem_of_cons in Hin as [->|Hin].
    + eapply f64_le_trans; [|exact Hb1]. apply IH. by apply elem_of_cons; left.
    + apply elem_of_cons in Hin as [->|Hin].
      * eapply f64_le_trans; [|exact Hb2]. apply IH. by apply elem_of_cons; left.
      * apply IH. by apply elem_of_cons; right.
Qed.

Lemma removeFirst_perm m l : m ∈ l -> l ≡ₚ m :: removeFirst m l.
Proof.
  induction l as [|e l IH]; simpl; intros Hin.
  - by apply elem_of_nil in Hin.
  - destruct (decide (e = m)) as [->|Hne]; [done|].
    apply elem_of_cons in Hin as [->|Hin]; [done|].
    rewrite (IH Hin) at 1. apply Permutation_swap.
Qed.

(** The list queue keeps the promise of the queue. *)
Lemma listQueue_spec : PriorityQueueSpec (listQueue (A := A)) (fun q => q).
Proof.
  split; simpl.
  - done.
  - done.
  - intros q x p. left. symmetry. apply Permutation_cons_append.
  - intros q Hq. destruct q as [|e l]; [done|].
    exists (minEntry e l).1, (minEntry e l).2, (removeFirst (minEntry e l) (e :: l)).
    split; [done|]. split.
    + rewrite <- surjective_pairing. apply removeFirst_perm, minEntry_elem.
    + intros e' He'. by apply minEntry_least.
  - done.
Qed.

End QueueFacts.

(** ** StronglyConnectedComponents *)

Section SccFacts.

Context {K : Type} `{Countable K} `{GoZero K}.
Context {T : Type}.

(** C8: on a graph whose traits say it is not directed,
    [StronglyConnectedComponents] fails with the error for the wrong kind of
    graph and returns no component. *)
Theorem StronglyConnectedComponents_undirected (g : Graph K T) (fuel : nat) :
  IsDirected (Traits g) = false ->
  StronglyConnectedComponents fuel g = Some ([], Some ErrInvalidGraphKind).
Proof. unfold StronglyConnectedComponents. by intros ->. Qed.

End SccFacts.

Lemma StronglyConnectedComponents_undirected_witness :
  StronglyConnectedComponents 5 chainUndirected = Some ([], Some ErrInvalidGraphKind).
Proof.
  apply (StronglyConnectedComponents_undirected chainUndirected 5). reflexivity.
Defined.

(** C4, on the graph whose one vertex has the hash 0: the loop that pops the
    component starts with [hash] at the zero value, which is the vertex, so
    it pops nothing.  The one component returned is empty and the vertex is
    in no component. *)
Theorem StronglyConnectedComponents_zero_hash :
  StronglyConnectedComponents 5 zeroVertex = Some ([[]], None) /\
  ~ Partitions [[]] [0].
Proof.
  split; [reflexivity|].
  intros Hp. destruct (Hp 0) as (i & c & Hi & Hc & _).
  { by apply list_elem_of_singleton. }
  destruct i as [|i]; simpl in Hi; [|done].
  inversion Hi; subst. by apply elem_of_nil in Hc.
Qed.

(** The same slip on the cycle through 0 and 1, when the range starts at 0:
    both vertices stay on the stack and the one component is empty. *)
Example StronglyConnectedComponents_zero_first :
  StronglyConnectedComponents 5 zeroCycle = Some ([[]], None).
Proof. reflexivity. Qed.

(** ** ShortestPath *)

Section ShortestPathFacts.

Context {K : Type} `{Countable K}.
Context {T : Type}.
Context {Q : PriorityQueue K} (items : queueOf Q -> list (K * float64)).
Context {QS : PriorityQueueSpec Q items}.

Implicit Types (st : spState) (am : Snapshot K) (bp : gmap K K).

Lemma weightOf_insert (w : gmap K float64) v x y :
  weightOf (<[v := x]> w) y = if decide (v = y) then x else weightOf w y.
Proof.
  unfold weightOf. destruct (decide (v = y)) as [->|Hne].
  - by rewrite lookup_insert_eq.
  - by rewrite lookup_insert_ne.
Qed.

(** *** The loops finish *)

Lemma relax_length traits h x st entry :
  length (items (queue (relax traits h x st entry))) = length (items (queue st)).
Proof.
  unfold relax. destruct (_ && _); simpl; [|done].
  by rewrite items_UpdatePriority, setPriority_length.
Qed.

Lemma fold_relax_length traits h x es st :
  length (items (queue (fold_left (relax traits h x) es st)))
  = length (items (queue st)).
Proof.
  revert st. induction es as [|e es IH]; intros st; simpl; [done|].
  by rewrite IH, relax_length.
Qed.

Lemma shortestPathLoop_finishes fuel traits am st :
  (length (items (queue st)) < fuel)%nat ->
  is_Some (shortestPathLoop fuel traits am st).
Proof.
  revert st. induction fuel as [|fuel IH]; intros st Hf; [lia|].
  simpl. rewrite items_Len. case_bool_decide as Hlen; [|by eexists].
  destruct (items_Pop (queue st)) as (x & p & q' & Hpop & Hperm & _).
  { intros E. rewrite E in Hlen. simpl in Hlen. lia. }
  rewrite Hpop. apply IH. rewrite fold_relax_length. simpl.
  rewrite Hperm in Hf. simpl in Hf. lia.
Qed.

Lemma initStep_length source ks w q :
  (length (items (fold_left (initStep source) ks (w, q)).2)
   <= length ks + length (items q))%nat.
Proof.
  revert w q. induction ks as [|k ks IH]; intros w q; simpl; [lia|].
  etransitivity; [apply IH|].
  destruct (items_Push q k
              (weightOf (if decide (k = source) then w else <[k:=PosInf]> w) k))
    as [Hp|[_ Hp]]; rewrite Hp; simpl; lia.
Qed.

Lemma shortestPathLoop_more_fuel fuel traits am st r :
  shortestPathLoop fuel traits am st = Some r ->
  forall k, shortestPathLoop (fuel + k) traits am st = Some r.
Proof.
  revert st. induction fuel as [|fuel IH]; intros st Hrun k; [done|].
  simpl in Hrun |- *. case_bool_decide; [|done].
  destruct (Pop (queue st)) as [[vertex err] queue']. by apply IH.
Qed.

(** Two vertices that are each the best predecessor of the other: walking
    back from either never ends. *)
Lemma walkBack_cycle bp (source a b : K) :
  a <> source -> b <> source -> bp !! a = Some b -> bp !! b = Some a ->
  forall fuel path,
    walkBack fuel bp source a path = None /\
    walkBack fuel bp source b path = None.
Proof.
  intros Ha Hb Hab Hba. induction fuel as [|fuel IH]; intros path; [done|].
  simpl. rewrite !decide_False by done. rewrite Hab, Hba.
  split; apply IH.
Qed.

Lemma shortestPathStart_length source am :
  (length (items (queue (shortestPathStart source am))) <= length am)%nat.
Proof.
  unfold shortestPathStart. simpl.
  pose proof (initStep_length source am.*1 (<[source:=Finite 0]> ∅)
                newPriorityQueue) as Hlen.
  rewrite items_new, length_fmap in Hlen. simpl in Hlen. lia.
Qed.

(** *** Walking back along the best predecessors *)

Lemma walkBack_Chain bp source v l :
  Chain bp source v l ->
  forall rest fuel, (length l <= fuel)%nat ->
    walkBack fuel bp source v (v :: rest) = Some (l ++ rest, None).
Proof.
  induction 1 as [|v u l Hne Hbp _ IH]; intros rest fuel Hf.
  - destruct fuel as [|fuel]; [simpl in Hf; lia|]. simpl.
    by rewrite decide_True.
  - destruct fuel as [|fuel]; [rewrite length_app in Hf; simpl in Hf; lia|].
    simpl. rewrite decide_False by done. rewrite Hbp.
    rewrite IH, <- app_assoc; [done|]. rewrite length_app in Hf. simpl in Hf. lia.
Qed.

Lemma Chain_insert bp source v u x l :
  Chain bp source x l -> v ∉ l -> Chain (<[v := u]> bp) source x l.
Proof.
  induction 1 as [|x y l Hne Hbp _ IH]; intros Hv; [constructor|].
  apply not_elem_of_app in Hv as [Hvl Hvx].
  apply not_elem_of_cons in Hvx as [Hvx _].
  apply (Chain_step _ _ x y); [done| |by apply IH]. by rewrite lookup_insert_ne.
Qed.

Lemma Chain_last bp source v l : Chain bp source v l -> last l = Some v.
Proof. destruct 1; [done|]. by rewrite last_snoc. Qed.

Lemma Chain_head bp source v l : Chain bp source v l -> head l = Some source.
Proof.
  induction 1 as [|x y l Hne Hbp _ IH]; [done|].
  destruct l; [done|]. done.
Qed.

Lemma walkBack_error fuel bp (source current : K) path r err :
  walkBack fuel bp source current path = Some (r, Some err) ->
  err = ErrTargetNotReachable.
Proof.
  revert current path. induction fuel as [|fuel IH]; intros current path; [done|].
  simpl. destruct (decide (current = source)); [done|].
  destruct (bp !! current); [apply IH|]. by intros [= _ <-].
Qed.

(** The only errors [ShortestPath] returns are the one of the graph, wrapped,
    and the one for a target that is not reachable: the error of a pop is
    never among them. *)
Lemma ShortestPath_errors (g : Graph K T) source target fuel r err :
  ShortestPath fuel g source target = Some (r, Some err) ->
  err = ErrTargetNotReachable \/
  exists e, (AdjacencyMap g).2 = Some e /\
            err = Wrapf "could not get adjacency map: %w" e.
Proof.
  unfold ShortestPath. destruct (AdjacencyMap g) as [am [e|]].
  - intros [= _ <-]. right. by exists e.
  - destruct (shortestPathLoop _ _ _ _); [|done].
    intros Hw. left. by apply walkBack_error in Hw.
Qed.

(** *** The invariant of the search *)

Section Dijkstra.

Variables (traits : GraphTraits) (am : Snapshot K) (source : K).
Hypothesis Hwf : wellFormed am = true.
Hypothesis Hnn : nonNegative traits am = true.

Lemma wf_NoDup : NoDup am.*1.
Proof.
  unfold wellFormed in Hwf. apply andb_prop in Hwf as [Hnd _].
  by apply bool_decide_eq_true_1 in Hnd.
Qed.

Lemma edgesOf_entry u v (e : Edge) :
  (v, e) ∈ edgesOf am u -> (u, edgesOf am u) ∈ am.
Proof.
  intros Hin. apply edgesOf_key. intros E. rewrite E in Hin.
  by apply elem_of_nil in Hin.
Qed.

Lemma wf_target u v (e : Edge) : (v, e) ∈ edgesOf am u -> v ∈ am.*1.
Proof.
  intros Hin. pose proof (edgesOf_entry _ _ _ Hin) as Hent.
  unfold wellFormed in Hwf. apply andb_prop in Hwf as [_ Hall].
  rewrite forallb_forall in Hall. apply list_elem_of_In in Hent.
  apply Hall in Hent. apply andb_prop in Hent as [_ Hent].
  rewrite forallb_forall in Hent. apply list_elem_of_In in Hin.
  apply Hent in Hin. by apply bool_decide_eq_true_1 in Hin.
Qed.

Lemma nn_edge u v (e : Edge) :
  (v, e) ∈ edgesOf am u -> 0 <= effectiveWeight traits e.
Proof.
  intros Hin. pose proof (edgesOf_entry _ _ _ Hin) as Hent.
  unfold nonNegative in Hnn. rewrite forallb_forall in Hnn.
  apply list_elem_of_In in Hent. apply Hnn in Hent.
  rewrite forallb_forall in Hent. apply list_elem_of_In in Hin.
  apply Hent in Hin. by apply bool_decide_eq_true_1 in Hin.
Qed.

Lemma Step_edge u v : Step am u v <-> exists e, (v, e) ∈ edgesOf am u.
Proof.
  unfold Step, neighbours. rewrite list_elem_of_fmap. split.
  - intros ([v' e] & -> & Hin). by exists e.
  - intros (e & Hin). by exists (v, e).
Qed.

Local Abbreviation queued := (queued items).
Local Abbreviation popped := (popped items am).
Local Abbreviation spInv := (spInv items traits am source).
Local Abbreviation relaxInv := (relaxInv items traits am source).

(** Popping the least entry. *)
Lemma pop_inv st x p q' :
  spInv (fun _ _ => True) st ->
  items (queue st) ≡ₚ (x, p) :: items q' ->
  (forall e, e ∈ items (queue st) -> f64_le p e.2) ->
  relaxInv x (Wt st x) [] (withQueue st q').
Proof.
  intros [Ik Is Ip Isrc Ipos Im Ir Ib If Ic] Hperm Hmin.
  assert (Hkeys : (items (queue st)).*1 ≡ₚ x :: (items q').*1).
  { by rewrite Hperm. }
  assert (Hnd : NoDup (x :: (items q').*1)) by (by rewrite <- Hkeys).
  apply NoDup_cons in Hnd as [Hx Hnd].
  assert (Hq : forall v, queued st v <-> v = x \/ queued (withQueue st q') v).
  { intros v. unfold queued. simpl. rewrite Hkeys. apply elem_of_cons. }
  assert (Hxq : queued st x) by (apply Hq; by left).
  assert (Hpx : p = Wt st x).
  { apply Ip. rewrite Hperm. apply elem_of_cons. by left. }
  assert (Hpop : forall u, popped (withQueue st q') u -> u = x \/ popped st u).
  { intros u [Hu Hnq]. destruct (decide (u = x)) as [->|Hne]; [by left|].
    right. split; [done|]. intros Hqu. apply Hq in Hqu as [?|?]; done. }
  assert (Hle : forall u, popped (withQueue st q') u -> f64_le (Wt st u) (Wt st x)).
  { intros u Hu. apply Hpop in Hu as [->|Hu]; [apply f64_le_refl|].
    by apply Im. }
  split; [split|..]; simpl; try done.
  - intros v Hv. apply Is, Hq. by right.
  - intros v p' Hv. apply Ip. rewrite Hperm. apply elem_of_cons. by right.
  - intros u v Hu Hv. change (Wt (withQueue st q') ?a) with (Wt st a).
    apply Hpop in Hu as [->|Hu].
    + rewrite <- Hpx.
      assert (Hin : v ∈ (items (queue st)).*1) by (apply Hq; by right).
      apply list_elem_of_fmap in Hin as ([v' p'] & -> & Hin).
      simpl. rewrite <- (Ip _ _ Hin). apply (Hmin _ Hin).
    + apply Im; [done|]. apply Hq. by right.
  - intros u v e Hu Hfin Hin [Hne|Hd]; [|by apply elem_of_nil in Hd].
    apply Hpop in Hu as [->|Hu]; [done|]. by apply (Ir u v e).
  - intros v u Hbp. destruct (Ib v u Hbp) as ([Hu Hnq] & Hrest).
    split; [|done]. split; [done|]. intros Hqu. apply Hnq, Hq. by right.
  - intros v u Hbp. destruct (Ic v u Hbp) as (l & Hc & Hndl & Hvl & Hall).
    exists l. split; [done|]. split; [done|]. split; [done|].
    intros z Hz. destruct (Hall z Hz) as [Hzam Hzq]. split; [done|].
    intros Hqz. apply Hzq, Hq. by right.
  - split; [by apply Is|done].
Qed.

(** One edge of the popped vertex. *)
Lemma relax_inv x wx done st v e :
  relaxInv x wx done st -> (v, e) ∈ edgesOf am x ->
  relaxInv x wx (done ++ [(v, e)]) (relax traits (IsInf wx) x st (v, e)).
Proof.
  intros [[Ik Is Ip Isrc Ipos Im Ir Ib If Ic] Rp Rwx Rle] Hin.
  pose proof (nn_edge _ _ _ Hin) as Hew.
  pose proof (wf_target _ _ _ Hin) as Hv.
  unfold relax. simpl. fold (Wt st x) (Wt st v). rewrite Rwx.
  set (w := f64_add wx (Finite (effectiveWeight traits e))).
  destruct (f64_ltb w (Wt st v) && negb (IsInf wx)) eqn:Hc.
  - apply andb_prop in Hc as [Hlt Hinf].
    assert (Hfin : wx <> PosInf) by (intros ->; done).
    assert (Hww : f64_le wx w) by (by apply f64_le_add).
    assert (Hnp : ~ popped st v).
    { intros Hp. apply Rle in Hp.
      pose proof (f64_le_trans _ _ _ Hp Hww) as Hle.
      unfold f64_le in Hle. congruence. }
    assert (Hq : queued st v).
    { destruct (decide (v ∈ (items (queue st)).*1)) as [|Hn]; [done|].
      exfalso. apply Hnp. by split. }
    assert (Hvx : v <> x) by (intros ->; by destruct Rp).
    assert (Hvs : v <> source).
    { intros ->. rewrite Isrc in Hlt. rewrite <- Rwx in Hww.
      pose proof (f64_le_trans _ _ _ (Ipos x) Hww) as Hle.
      unfold f64_le in Hle. congruence. }
    set (st' := {| weights := <[v:=w]> (weights st);
                   bestPredecessors := <[v:=x]> (bestPredecessors st);
                   queue := UpdatePriority (queue st) v w |}).
    assert (HW : forall y, Wt st' y = if decide (v = y) then w else Wt st y).
    { intros y. unfold Wt, st'. simpl. apply weightOf_insert. }
    assert (HWne : forall y, y <> v -> Wt st' y = Wt st y).
    { intros y Hy. rewrite HW. by rewrite decide_False. }
    assert (HWv : Wt st' v = w).
    { rewrite HW. by rewrite decide_True. }
    assert (Hkeys : (items (queue st')).*1 ≡ₚ (items (queue st)).*1).
    { unfold st'. simpl. by rewrite items_UpdatePriority, setPriority_fst. }
    assert (Hqq : forall y, queued st' y <-> queued st y).
    { intros y. unfold queued. by rewrite Hkeys. }
    assert (Hpp : forall y, popped st' y <-> popped st y).
    { intros y. unfold popped. by rewrite Hqq. }
    assert (Hpne : forall y, popped st y -> y <> v).
    { intros y Hy ->. done. }
    split; [split|..].
    + by rewrite Hkeys.
    + intros y Hy. apply Is. by apply Hqq.
    + intros y p Hy. unfold st' in Hy. simpl in Hy.
      rewrite items_UpdatePriority in Hy.
      apply setPriority_elem in Hy as [(-> & -> & _)|[Hne Hy]]; [done|].
      rewrite HWne by done. by apply Ip.
    + by rewrite HWne.
    + intros y. rewrite HW. destruct (decide (v = y)); [|done].
      rewrite <- Rwx in Hww. by apply (f64_le_trans _ _ _ (Ipos x)).
    + intros u y Hu Hy. apply Hpp in Hu. apply Hqq in Hy.
      rewrite (HWne u) by (by apply Hpne). rewrite HW.
      destruct (decide (v = y)) as [<-|Hne]; [|by apply Im].
      eapply f64_le_trans; [by apply Rle|done].
    + intros u y e' Hu Hufin Hy Hrel. apply Hpp in Hu.
      rewrite (HWne u) in * by (by apply Hpne). rewrite HW.
      destruct (decide (v = y)) as [<-|Hne].
      * destruct (decide (u = x)) as [->|Hux].
        -- destruct Hrel as [?|Hd]; [done|]. rewrite Rwx.
           apply elem_of_app in Hd as [Hd|Hd].
           ++ eapply f64_le_trans; [apply f64_ltb_le, Hlt|].
              rewrite <- Rwx. apply (Ir x v e'); try done. by right.
           ++ apply list_elem_of_singleton in Hd. inversion Hd; subst.
              apply f64_le_refl.
        -- eapply f64_le_trans; [apply f64_ltb_le, Hlt|].
           apply (Ir u v e'); try done. by left.
      * apply (Ir u y e'); try done.
        destruct Hrel as [?|Hd]; [by left|].
        apply elem_of_app in Hd as [Hd|Hd]; [by right|].
        apply list_elem_of_singleton in Hd. inversion Hd; subst. done.
    + intros y u Hbp. unfold st' in Hbp. simpl in Hbp.
      destruct (decide (v = y)) as [<-|Hne].
      * rewrite lookup_insert_eq in Hbp. inversion Hbp; subst u.
        rewrite HWv, (HWne x) by done. rewrite Rwx.
        split; [by apply Hpp|]. repeat split; try done. by exists e.
      * rewrite lookup_insert_ne in Hbp by done.
        destruct (Ib y u Hbp) as (Hu & Hufin & Hys & Hyam & e' & He' & HWy).
        rewrite (HWne u) by (by apply Hpne). rewrite (HWne y) by done.
        split; [by apply Hpp|]. repeat split; try done. by exists e'.
    + intros y Hy Hys Hyfin. unfold st'. simpl.
      destruct (decide (v = y)) as [<-|Hne].
      * rewrite lookup_insert_eq. by eexists.
      * rewrite lookup_insert_ne by done. apply If; try done.
        by rewrite <- (HWne y).
    + assert (Hchx : exists l, Chain (bestPredecessors st) source x l /\ NoDup l /\
                       forall z, z ∈ l -> popped st z).
      { destruct (decide (x = source)) as [->|Hxs].
        - exists [source]. split; [constructor|]. split; [apply NoDup_singleton|].
          intros z Hz. by apply list_elem_of_singleton in Hz as ->.
        - destruct (If x) as [u Hu]; [by destruct Rp|done|by rewrite Rwx|].
          destruct (Ic x u Hu) as (l & Hc & Hnd & Hxl & Hall).
          exists (l ++ [x]). split; [by apply (Chain_step _ _ x u)|].
          split.
          + apply NoDup_app. split; [done|]. split; [|apply NoDup_singleton].
            intros z Hz Hzx. by apply list_elem_of_singleton in Hzx as ->.
          + intros z Hz. apply elem_of_app in Hz as [Hz|Hz]; [by apply Hall|].
            by apply list_elem_of_singleton in Hz as ->. }
      intros y u Hbp. unfold st' in Hbp |- *. simpl in Hbp |- *.
      destruct (decide (v = y)) as [<-|Hne].
      * rewrite lookup_insert_eq in Hbp. inversion Hbp; subst u.
        destruct Hchx as (l & Hc & Hnd & Hall). exists l.
        assert (Hvl : v ∉ l) by (intros Hvl; by apply Hall in Hvl).
        split; [by apply Chain_insert|]. split; [done|]. split; [done|].
        intros z Hz. by apply Hpp, Hall.
      * rewrite lookup_insert_ne in Hbp by done.
        destruct (Ic y u Hbp) as (l & Hc & Hnd & Hyl & Hall). exists l.
        assert (Hvl : v ∉ l) by (intros Hvl; by apply Hall in Hvl).
        split; [by apply Chain_insert|]. split; [done|]. split; [done|].
        intros z Hz. by apply Hpp, Hall.
    + by apply Hpp.
    + by rewrite HWne.
    + intros u Hu. apply Hpp in Hu. rewrite HWne by (by apply Hpne).
      by apply Rle.
  - split; [split|..]; try done.
    intros u y e' Hu Hufin Hy [Hne|Hd]; [apply (Ir u y e'); try done; by left|].
    apply elem_of_app in Hd as [Hd|Hd]; [apply (Ir u y e'); try done; by right|].
    apply list_elem_of_singleton in Hd. inversion Hd; subst y e'.
    destruct (decide (u = x)) as [->|Hux]; [|apply (Ir u v e); try done; by left].
    rewrite Rwx in *. fold w.
    apply andb_false_iff in Hc as [Hc|Hc]; [done|].
    destruct wx; [done|]. done.
Qed.

Lemma fold_relax_inv x wx es done st :
  relaxInv x wx done st -> (forall ve, ve ∈ es -> ve ∈ edgesOf am x) ->
  relaxInv x wx (done ++ es) (fold_left (relax traits (IsInf wx) x) es st).
Proof.
  revert done st. induction es as [|[v e] es IH]; intros done st Hinv Hes; simpl.
  - by rewrite app_nil_r.
  - rewrite (cons_middle (v, e) done es), app_assoc. apply IH.
    + apply relax_inv; [done|]. apply Hes. by apply elem_of_cons; left.
    + intros ve Hve. apply Hes. by apply elem_of_cons; right.
Qed.

Lemma relaxInv_finish x wx st :
  relaxInv x wx (edgesOf am x) st -> spInv (fun _ _ => True) st.
Proof.
  intros [[Ik Is Ip Isrc Ipos Im Ir Ib If Ic] Rp Rwx Rle]. split; try done.
  intros u v e Hu Hfin Hin _. apply (Ir u v e); try done.
  destruct (decide (u = x)) as [->|Hne]; [by right|by left].
Qed.

(** One turn of the loop keeps the invariant. *)
Lemma turn_inv st x p q' :
  spInv (fun _ _ => True) st ->
  items (queue st) ≡ₚ (x, p) :: items q' ->
  (forall e, e ∈ items (queue st) -> f64_le p e.2) ->
  spInv (fun _ _ => True)
    (fold_left (relax traits (IsInf (weightOf (weights st) x)) x)
               (edgesOf am x) (withQueue st q')).
Proof.
  intros Hinv Hperm Hmin.
  apply (relaxInv_finish x (Wt st x)).
  apply (fold_relax_inv x (Wt st x) (edgesOf am x) [] (withQueue st q')).
  - by apply (pop_inv st x p q').
  - done.
Qed.

Lemma shortestPathLoop_inv fuel st :
  spInv (fun _ _ => True) st ->
  (length (items (queue st)) < fuel)%nat ->
  exists st', shortestPathLoop fuel traits am st = Some st' /\
    spInv (fun _ _ => True) st' /\ items (queue st') = [].
Proof.
  revert st. induction fuel as [|fuel IH]; intros st Hinv Hf; [lia|].
  simpl. rewrite items_Len. case_bool_decide as Hlen.
  - destruct (items_Pop (queue st)) as (x & p & q' & Hpop & Hperm & Hmin).
    { intros E. rewrite E in Hlen. simpl in Hlen. lia. }
    rewrite Hpop. apply IH.
    + by apply (turn_inv st x p q').
    + rewrite fold_relax_length. simpl. rewrite Hperm in Hf. simpl in Hf. lia.
  - exists st. split; [done|]. split; [done|].
    destruct (items (queue st)); [done|]. simpl in Hlen. lia.
Qed.

(** The state the loop starts from. *)
Lemma initStep_inv ks1 ks2 w q :
  NoDup (ks1 ++ ks2) ->
  w !! source = Some (Finite 0) ->
  (forall k, k <> source -> w !! k = if decide (k ∈ ks1) then Some PosInf else None) ->
  (items q).*1 ≡ₚ ks1 ->
  (forall k p, (k, p) ∈ items q -> p = weightOf w k) ->
  let r := fold_left (initStep source) ks2 (w, q) in
  r.1 !! source = Some (Finite 0) /\
  (forall k, k <> source ->
     r.1 !! k = if decide (k ∈ ks1 ++ ks2) then Some PosInf else None) /\
  (items r.2).*1 ≡ₚ ks1 ++ ks2 /\
  (forall k p, (k, p) ∈ items r.2 -> p = weightOf r.1 k).
Proof.
  revert ks1 w q. induction ks2 as [|k ks2 IH]; intros ks1 w q Hnd Hs Hw Hq Hp.
  - simpl. rewrite app_nil_r. done.
  - simpl. rewrite (cons_middle k ks1 ks2), app_assoc in Hnd |- *.
    assert (Hk : k ∉ ks1).
    { apply NoDup_app in Hnd as [Hnd _]. apply NoDup_app in Hnd as (_ & Hd & _).
      intros Hin. apply (Hd k Hin). by apply list_elem_of_singleton. }
    set (w' := if decide (k = source) then w else <[k:=PosInf]> w).
    assert (Hw'k : forall y, y <> k -> w' !! y = w !! y).
    { intros y Hy. unfold w'. destruct (decide (k = source)); [done|].
      by rewrite lookup_insert_ne. }
    change (initStep source (w, q) k) with (w', Push q k (weightOf w' k)).
    apply IH; try done.
    + unfold w'. destruct (decide (k = source)) as [->|Hne]; [done|].
      by rewrite lookup_insert_ne.
    + intros y Hy. destruct (decide (y = k)) as [->|Hyk].
      * unfold w'. rewrite decide_False by done. rewrite lookup_insert_eq.
        rewrite decide_True; [done|]. apply elem_of_app. right.
        by apply list_elem_of_singleton.
      * rewrite Hw'k, Hw by done.
        destruct (decide (y ∈ ks1)) as [Hin|Hin].
        -- rewrite decide_True; [done|]. apply elem_of_app. by left.
        -- rewrite decide_False; [done|]. intros Hin'.
           apply elem_of_app in Hin' as [?|Hin']; [done|].
           by apply list_elem_of_singleton in Hin'.
    + destruct (items_Push q k (weightOf w' k)) as [Hpush|[Hin _]].
      * rewrite Hpush. simpl. rewrite Hq. apply Permutation_cons_append.
      * exfalso. apply Hk. by rewrite <- Hq.
    + intros y p Hy.
      destruct (items_Push q k (weightOf w' k)) as [Hpush|[Hin _]].
      * rewrite Hpush in Hy. apply elem_of_cons in Hy as [Heq|Hy].
        -- by inversion Heq; subst.
        -- assert (Hyk : y <> k).
           { intros ->. apply Hk. rewrite <- Hq. apply list_elem_of_fmap.
             by exists (k, p). }
           unfold weightOf. rewrite Hw'k by done. by apply Hp.
      * exfalso. apply Hk. by rewrite <- Hq.
Qed.

Lemma init_inv : spInv (fun _ _ => True) (shortestPathStart source am).
Proof.
  unfold shortestPathStart.
  set (r := fold_left (initStep source) am.*1
              (<[source := Finite 0]> (∅ : gmap K float64), newPriorityQueue)).
  cbv zeta.
  destruct (initStep_inv [] am.*1 (<[source := Finite 0]> ∅) newPriorityQueue)
    as (Hs & Hw & Hq & Hp).
  - apply wf_NoDup.
  - by rewrite lookup_insert_eq.
  - intros k Hk. rewrite lookup_insert_ne by done. rewrite lookup_empty.
    rewrite decide_False; [done|]. apply not_elem_of_nil.
  - by rewrite items_new.
  - intros k p Hin. rewrite items_new in Hin. by apply elem_of_nil in Hin.
  - simpl in Hs, Hw, Hq, Hp. fold r in Hs, Hw, Hq, Hp.
    assert (HW : forall k, weightOf r.1 k = Finite 0 \/ weightOf r.1 k = PosInf).
    { intros k. unfold weightOf. destruct (decide (k = source)) as [->|Hne].
      - rewrite Hs. by left.
      - rewrite Hw by done. destruct (decide (k ∈ am.*1)); [by right|by left]. }
    assert (Hnp : forall u,
              ~ popped {| weights := r.1; bestPredecessors := ∅; queue := r.2 |} u).
    { intros u [Hu Hnq]. apply Hnq. unfold queued. simpl. by rewrite Hq. }
    split; simpl; unfold Wt, queued; simpl.
    + rewrite Hq. apply wf_NoDup.
    + intros v. by rewrite Hq.
    + done.
    + unfold weightOf. by rewrite Hs.
    + intros v. destruct (HW v) as [-> | ->]; done.
    + intros u v Hu. by apply Hnp in Hu.
    + intros u v e Hu. by apply Hnp in Hu.
    + intros v u Hbp. by rewrite lookup_empty in Hbp.
    + intros v Hv Hvs Hfin. exfalso. apply Hfin. unfold weightOf.
      rewrite Hw by done. by rewrite decide_True.
    + intros v u Hbp. by rewrite lookup_empty in Hbp.
Qed.

(** *** When the queue is empty *)

Section Final.

Variable st : spState.
Hypothesis Hinv : spInv (fun _ _ => True) st.
Hypothesis Hempty : items (queue st) = [].

Lemma final_popped v : v ∈ am.*1 -> popped st v.
Proof.
  intros Hv. split; [done|]. unfold queued. rewrite Hempty. apply not_elem_of_nil.
Qed.

(** Every vertex [source] reaches has a finite weight. *)
Lemma final_reach v :
  Reach am source v -> Wt st v <> PosInf /\ (v = source \/ v ∈ am.*1).
Proof.
  revert v. unfold Reach. apply rtc_ind_r.
  - split; [|by left]. by rewrite (I_src Hinv).
  - intros y z _ Hyz [Hfin _].
    apply Step_edge in Hyz as Hedge. destruct Hedge as [e He].
    split; [|right; by apply (wf_target y z e)].
    pose proof (I_relaxed Hinv y z e
                  (final_popped y (Step_key _ _ _ Hyz)) Hfin He I) as Hle.
    intros Hz. rewrite Hz in Hle. destruct (Wt st y); [done|done].
Qed.

Lemma final_chain v :
  is_Some (bestPredecessors st !! v) ->
  exists l, Chain (bestPredecessors st) source v l /\
            (length l <= length am)%nat.
Proof.
  intros [u Hu].
  destruct (I_chain Hinv v u Hu) as (l & Hc & Hnd & Hvl & Hall).
  destruct (I_bp Hinv v u Hu) as (_ & _ & Hvs & Hvam & _).
  exists (l ++ [v]). split; [by apply (Chain_step _ _ v u)|].
  rewrite <- (length_fmap fst am). apply submseteq_length, NoDup_submseteq.
  - apply NoDup_app. split; [done|]. split; [|apply NoDup_singleton].
    intros z Hz Hzv. by apply list_elem_of_singleton in Hzv as ->.
  - intros z Hz. apply elem_of_app in Hz as [Hz|Hz].
    + by destruct (Hall z Hz).
    + by apply list_elem_of_singleton in Hz as ->.
Qed.

Lemma Chain_IsWalk v l :
  Chain (bestPredecessors st) source v l -> IsWalk am l.
Proof.
  induction 1 as [|v u l Hne Hbp Hc IH]; [done|].
  apply Chain_last in Hc as Hlast. apply last_Some in Hlast as [l0 ->].
  apply IsWalk_snoc; [done|].
  destruct (I_bp Hinv v u Hbp) as (_ & _ & _ & _ & e & He & _).
  apply Step_edge. by exists e.
Qed.

Lemma Chain_IsPath v l :
  Chain (bestPredecessors st) source v l -> IsPath am source v l.
Proof.
  intros Hc. split; [by apply (Chain_head _ _ _ _ Hc)|].
  split; [by apply (Chain_last _ _ _ _ Hc)|by apply (Chain_IsWalk v)].
Qed.

(** What walking back from [target] gives. *)
Lemma final_walkBack target fuel :
  (length am < fuel)%nat ->
  (exists path, walkBack fuel (bestPredecessors st) source target [target]
                = Some (path, None) /\
     (target = source /\ path = [source] \/
      Chain (bestPredecessors st) source target path) /\
     Reach am source target) \/
  (walkBack fuel (bestPredecessors st) source target [target]
   = Some ([], Some ErrTargetNotReachable) /\
   ~ Reach am source target).
Proof.
  intros Hf. destruct fuel as [|fuel]; [lia|].
  destruct (decide (target = source)) as [->|Hne].
  { left. exists [source]. simpl. rewrite decide_True by done.
    split; [done|]. split; [by left|apply rtc_refl]. }
  destruct (bestPredecessors st !! target) as [u|] eqn:Hbp.
  - destruct (final_chain target) as (l & Hc & Hlen); [by eexists|].
    left. exists l.
    rewrite (walkBack_Chain _ _ _ _ Hc [] (S fuel)) by lia.
    rewrite app_nil_r. split; [done|]. split; [by right|].
    apply Reach_IsPath. exists l. by apply Chain_IsPath.
  - right. split.
    + simpl. rewrite decide_False by done. by rewrite Hbp.
    + intros Hr. apply final_reach in Hr as [Hfin [->|Ham]]; [done|].
      destruct (I_fin Hinv target Ham Hne Hfin) as [u Hu]. congruence.
Qed.

(** On a graph without weights the weight of a vertex is the number of edges
    of its chain, and no path to it has fewer edges. *)
Hypothesis Hunit : forall e, effectiveWeight traits e = 1.

Lemma Chain_edgeCount v l :
  Chain (bestPredecessors st) source v l ->
  Wt st v = Finite (Z.of_nat (edgeCount l)).
Proof.
  induction 1 as [|v u l Hne Hbp Hc IH].
  - by rewrite (I_src Hinv).
  - destruct (I_bp Hinv v u Hbp) as (_ & _ & _ & _ & e & _ & HW).
    rewrite HW, IH, Hunit. simpl. f_equal. unfold edgeCount.
    rewrite length_app. simpl.
    apply Chain_last in Hc. destruct l; [done|]. simpl. lia.
Qed.

Lemma final_lower l : forall u v a,
  IsPath am u v l -> u = source \/ u ∈ am.*1 -> Wt st u = Finite a ->
  f64_le (Wt st v) (Finite (a + Z.of_nat (edgeCount l))).
Proof.
  induction l as [|x l IH]; intros u v a (Hh & Hl & Hw) Hu Ha; [done|].
  simpl in Hh. inversion Hh; subst x. destruct l as [|y l].
  - simpl in Hl. inversion Hl; subst v. rewrite Ha.
    unfold edgeCount. simpl. rewrite Z.add_0_r. apply f64_le_refl.
  - destruct Hw as [Huy Hw].
    apply Step_edge in Huy as Hedge. destruct Hedge as [e He].
    pose proof (I_relaxed Hinv u y e
                  (final_popped u (Step_key _ _ _ Huy))
                  ltac:(by rewrite Ha) He I) as Hle.
    rewrite Ha, Hunit in Hle. simpl in Hle.
    apply f64_le_Finite in Hle as (b & Hb & Hba).
    eapply f64_le_trans.
    + apply (IH y v b); [|right; by apply (wf_target u y e)|done].
      split; [done|]. split; [|done]. by rewrite last_cons_cons in Hl.
    + unfold edgeCount. simpl.
      unfold f64_le, f64_ltb. apply bool_decide_eq_false_2. lia.
Qed.

End Final.

End Dijkstra.

Local Abbreviation spInv := (spInv items).

(** *** The function *)

Lemma unweighted_unit (traits : GraphTraits) (e : Edge) :
  IsWeighted traits = false -> effectiveWeight traits e = 1.
Proof. unfold effectiveWeight. by intros ->. Qed.

Lemma unweighted_nonNegative (traits : GraphTraits) am :
  IsWeighted traits = false -> nonNegative traits am = true.
Proof.
  intros Hu. unfold nonNegative. apply forallb_forall. intros e _.
  apply forallb_forall. intros f _. apply bool_decide_eq_true_2.
  by rewrite unweighted_unit.
Qed.

(** With enough fuel the loop of [ShortestPath] ends with the queue empty, in
    a state that keeps the invariant; the result is what walking back from
    the target gives there. *)
Lemma ShortestPath_run (g : Graph K T) am source target fuel :
  AdjacencyMap g = (am, None) ->
  wellFormed am = true -> nonNegative (Traits g) am = true ->
  (pathFuel am <= fuel)%nat ->
  exists st, spInv (Traits g) am source (fun _ _ => True) st /\
    items (queue st) = [] /\
    ShortestPath fuel g source target
    = walkBack fuel (bestPredecessors st) source target [target].
Proof.
  intros Ham Hwf Hnn Hf. unfold ShortestPath. rewrite Ham.
  pose proof (init_inv (Traits g) am source Hwf) as Hinit.
  destruct (shortestPathLoop_inv (Traits g) am source Hwf Hnn fuel _ Hinit)
    as (st & Hrun & Hinv & Hempty).
  { pose proof (shortestPathStart_length source am). unfold pathFuel in Hf. lia. }
  rewrite Hrun. by exists st.
Qed.

(** C3: for weights that are not negative, as [ShortestPath] takes them,
    and whose sum [float64] holds exactly, the function returns the error for
    a target that is not reachable exactly when the target is not among the
    vertices reached from the source along the edges of the adjacency
    snapshot; when it is among them the function returns a path from the
    source to the target, and no error. *)
Theorem ShortestPath_reachable (g : Graph K T) am source target fuel :
  AdjacencyMap g = (am, None) ->
  wellFormed am = true -> nonNegative (Traits g) am = true ->
  exactWeights (Traits g) am = true ->
  (pathFuel am <= fuel)%nat ->
  (ShortestPath fuel g source target = Some ([], Some ErrTargetNotReachable)
   <-> ~ Reach am source target) /\
  (Reach am source target ->
   exists path, ShortestPath fuel g source target = Some (path, None) /\
                IsPath am source target path).
Proof.
  intros Ham Hwf Hnn _ Hf.
  destruct (ShortestPath_run g am source target fuel Ham Hwf Hnn Hf)
    as (st & Hinv & Hempty & ->).
  destruct (final_walkBack (Traits g) am source Hwf st Hinv Hempty target fuel)
    as [(path & Hpath & Hc & Hr)|[Herr Hn]].
  { unfold pathFuel in Hf. lia. }
  - split; [split|].
    + rewrite Hpath. done.
    + done.
    + intros _. exists path. split; [done|].
      destruct Hc as [[-> ->]|Hc]; [done|].
      by apply (Chain_IsPath (Traits g) am source st Hinv).
  - split; [done|]. done.
Qed.

(** C6: on a graph whose traits say it has no weights, every edge counts 1,
    and a path [ShortestPath] returns is a path from the source to the target
    that no other such path undercuts in the number of its edges.  There is
    such a result whenever the target is reachable. *)
Theorem ShortestPath_unweighted_fewest_edges (g : Graph K T) am source target
    fuel :
  AdjacencyMap g = (am, None) ->
  wellFormed am = true -> IsWeighted (Traits g) = false ->
  (pathFuel am <= fuel)%nat ->
  (forall e, effectiveWeight (Traits g) e = 1) /\
  (Reach am source target ->
   exists path, ShortestPath fuel g source target = Some (path, None)) /\
  (forall path, ShortestPath fuel g source target = Some (path, None) ->
     IsPath am source target path /\
     forall other, IsPath am source target other ->
       (edgeCount path <= edgeCount other)%nat).
Proof.
  intros Ham Hwf Hu Hf.
  assert (Hunit : forall e, effectiveWeight (Traits g) e = 1).
  { intros e. by apply unweighted_unit. }
  pose proof (unweighted_nonNegative (Traits g) am Hu) as Hnn.
  destruct (ShortestPath_run g am source target fuel Ham Hwf Hnn Hf)
    as (st & Hinv & Hempty & ->).
  split; [done|].
  destruct (final_walkBack (Traits g) am source Hwf st Hinv Hempty target fuel)
    as [(path' & Hpath & Hc & Hr)|[Herr Hn]].
  { unfold pathFuel in Hf. lia. }
  - split; [intros _; by exists path'|]. intros path Hres.
    rewrite Hpath in Hres. inversion Hres; subst path'. clear Hres.
    assert (HW : Wt st target = Finite (Z.of_nat (edgeCount path)) /\
                 IsPath am source target path).
    { destruct Hc as [[-> ->]|Hc].
      - split; [by rewrite (I_src Hinv)|done].
      - split; [by apply (Chain_edgeCount (Traits g) am source st Hinv Hunit)|].
        by apply (Chain_IsPath (Traits g) am source st Hinv). }
    destruct HW as [HW Hp]. split; [done|]. intros other Ho.
    pose proof (final_lower (Traits g) am source Hwf st Hinv Hempty Hunit
                  other source target 0 Ho (or_introl eq_refl)
                  (I_src Hinv)) as Hle.
    rewrite HW in Hle. unfold f64_le, f64_ltb in Hle.
    apply bool_decide_eq_false_1 in Hle. lia.
  - split; [done|]. intros path Hres. rewrite Herr in Hres. done.
Qed.

(** C10: [ShortestPath] never looks a vertex up.  From a hash to itself it
    returns the path of that one hash and no error, whether the hash is a
    vertex of the graph or not, and whatever the weights. *)
Theorem ShortestPath_same (g : Graph K T) am (v : K) fuel :
  AdjacencyMap g = (am, None) -> (pathFuel am <= fuel)%nat ->
  ShortestPath fuel g v v = Some ([v], None).
Proof.
  intros Ham Hf. unfold ShortestPath. rewrite Ham.
  destruct (shortestPathLoop_finishes fuel (Traits g) am (shortestPathStart v am))
    as [st Hst].
  { pose proof (shortestPathStart_length v am). unfold pathFuel in Hf. lia. }
  rewrite Hst. destruct fuel as [|fuel]; [unfold pathFuel in Hf; lia|].
  simpl. by rewrite decide_True.
Qed.

End ShortestPathFacts.

(** *** Runs *)

Lemma ShortestPath_reachable_witness :
  (ShortestPath (Q := listQueue) 10 triangle "A" "C"
   = Some ([], Some ErrTargetNotReachable)
   <-> ~ Reach triangleAdjacency "A" "C") /\
  (Reach triangleAdjacency "A" "C" ->
   exists path, ShortestPath (Q := listQueue) 10 triangle "A" "C"
                = Some (path, None) /\
                IsPath triangleAdjacency "A" "C" path).
Proof.
  apply (ShortestPath_reachable (Q := listQueue) (QS := listQueue_spec) (fun q => q)
           triangle triangleAdjacency "A" "C" 10);
    [reflexivity | reflexivity | reflexivity | reflexivity | vm_compute; lia].
Defined.

Lemma ShortestPath_unweighted_fewest_edges_witness :
  (forall e, effectiveWeight (Traits diamond) e = 1) /\
  (Reach diamondAdjacency "A" "D" ->
   exists path, ShortestPath (Q := listQueue) 10 diamond "A" "D"
                = Some (path, None)) /\
  (forall path, ShortestPath (Q := listQueue) 10 diamond "A" "D"
                = Some (path, None) ->
     IsPath diamondAdjacency "A" "D" path /\
     forall other, IsPath diamondAdjacency "A" "D" other ->
       (edgeCount path <= edgeCount other)%nat).
Proof.
  apply (ShortestPath_unweighted_fewest_edges (Q := listQueue) (QS := listQueue_spec)
           (fun q => q) diamond diamondAdjacency "A" "D" 10);
    [reflexivity | reflexivity | reflexivity | vm_compute; lia].
Defined.

Lemma ShortestPath_same_witness :
  vertexNotFound chain 7 /\
  ShortestPath (Q := listQueue) 10 chain 7 7 = Some ([7], None).
Proof.
  split; [reflexivity|].
  apply (ShortestPath_same (Q := listQueue) (QS := listQueue_spec) (fun q => q)
           chain chainAdjacency 7 10); [reflexivity | vm_compute; lia].
Defined.

(** The example of the weighted path: the way over B (1 + 2) beats the edge
    of weight 5. *)
Example ShortestPath_triangle :
  ShortestPath (Q := listQueue) 10 triangle "A" "C" = Some (["A"; "B"; "C"], None).
Proof. reflexivity. Qed.

(** Outside what [ShortestPath] takes: on a cycle of negative weight A is
    reached from S, but A and B end as the best predecessor of each other
    and the walk back from A never arrives at S, so the function returns
    neither a path nor the error. *)
Example ShortestPath_negative_cycle :
  wellFormed negativeAdjacency = true /\
  Reach negativeAdjacency "S" "A" /\
  forall fuel, ShortestPath (Q := listQueue) fuel negativeCycle "S" "A" = None.
Proof.
  split; [reflexivity|]. split.
  { eapply rtc_l; [|apply rtc_refl]. unfold Step. vm_compute.
    apply list_elem_of_singleton. reflexivity. }
  intros fuel. unfold ShortestPath.
  change (AdjacencyMap negativeCycle) with (negativeAdjacency, @None Error).
  cbv beta iota zeta.
  set (st0 := shortestPathStart "S" negativeAdjacency).
  destruct (shortestPathLoop 4 (Traits negativeCycle) negativeAdjacency st0)
    as [stF|] eqn:E; [|vm_compute in E; discriminate].
  destruct (le_lt_dec 4 fuel) as [Hge|Hlt].
  - replace fuel with (4 + (fuel - 4))%nat by lia.
    rewrite (shortestPathLoop_more_fuel _ _ _ _ _ E).
    assert (Hbp : bestPredecessors stF !! "A" = Some "B" /\
                  bestPredecessors stF !! "B" = Some "A").
    { vm_compute in E. inversion E. split; reflexivity. }
    destruct Hbp as [Hab Hba].
    apply (walkBack_cycle (bestPredecessors stF) "S" "A" "B"); done.
  - clear E. do 4 (destruct fuel as [|fuel]; [reflexivity|]). lia.
Qed.
(** ** Texts of paths *)

Section StringFacts.

Implicit Types (s t u x h : string) (l : list string).

Lemma sapp_nil_l s : EmptyString +:+ s = s.
Proof. reflexivity. Qed.

Lemma sapp_cons c s t : String c s +:+ t = String c (s +:+ t).
Proof. reflexivity. Qed.

Lemma sapp_nil_r s : s +:+ EmptyString = s.
Proof. induction s as [|c s IH]; [done|]. by rewrite sapp_cons, IH. Qed.

Lemma sapp_assoc s t u : (s +:+ t) +:+ u = s +:+ (t +:+ u).
Proof. induction s as [|c s IH]; [done|]. by rewrite !sapp_cons, IH. Qed.

Lemma HasPrefix_spec s x : HasPrefix s x = true <-> exists b, s = x +:+ b.
Proof.
  revert s. induction x as [|c x IH]; intros s; simpl.
  - split; [intros _; by exists s|done].
  - destruct s as [|d s]; [split; [done|intros [b Hb]; done]|].
    destruct (decide (c = d)) as [->|Hne].
    + rewrite IH. split; intros [b Hb]; exists b.
      * by rewrite sapp_cons, Hb.
      * rewrite sapp_cons in Hb. by inversion Hb.
    + split; [done|]. intros [b Hb]. rewrite sapp_cons in Hb. inversion Hb. done.
Qed.

Lemma Contains_spec s x : Contains s x = true <-> exists a b, s = a +:+ x +:+ b.
Proof.
  induction s as [|c s IH]; simpl.
  - rewrite orb_false_r, HasPrefix_spec. split.
    + intros [b Hb]. by exists EmptyString, b.
    + intros (a & b & Hab). destruct a; [by exists b|done].
  - rewrite orb_true_iff, HasPrefix_spec, IH. split.
    + intros [[b Hb]|(a & b & Hab)]; [by exists EmptyString, b|].
      exists (String c a), b. by rewrite sapp_cons, Hab.
    + intros (a & b & Hab). destruct a as [|d a].
      * left. by exists b.
      * right. exists a, b. rewrite sapp_cons in Hab. by inversion Hab.
Qed.

Lemma Contains_cons c s x :
  Contains (String c s) x = HasPrefix (String c s) x || Contains s x.
Proof. reflexivity. Qed.

Lemma Contains_refl x : Contains x x = true.
Proof. apply Contains_spec. exists EmptyString, EmptyString. by rewrite sapp_nil_l, sapp_nil_r. Qed.

Lemma Contains_app_l s t x : Contains s x = true -> Contains (s +:+ t) x = true.
Proof.
  rewrite !Contains_spec. intros (a & b & ->). exists a, (b +:+ t).
  by rewrite !sapp_assoc.
Qed.

Lemma Contains_app_r s t x : Contains t x = true -> Contains (s +:+ t) x = true.
Proof.
  rewrite !Contains_spec. intros (a & b & ->). exists (s +:+ a), b.
  by rewrite !sapp_assoc.
Qed.

Lemma Contains_app_false s t x :
  Contains (s +:+ t) x = false -> Contains s x = false /\ Contains t x = false.
Proof.
  intros Hc. split.
  - destruct (Contains s x) eqn:E; [|done].
    by rewrite (Contains_app_l s t x E) in Hc.
  - destruct (Contains t x) eqn:E; [|done].
    by rewrite (Contains_app_r s t x E) in Hc.
Qed.

Lemma joinPath_snoc l h :
  l <> [] -> joinPath (l ++ [h]) = joinPath l +:+ gap +:+ h.
Proof.
  induction l as [|x l IH]; intros Hl; [done|].
  destruct l as [|y l]; [done|].
  change (joinPath ((x :: y :: l) ++ [h]))
    with (x +:+ gap +:+ joinPath ((y :: l) ++ [h])).
  rewrite IH by done.
  change (joinPath (x :: y :: l)) with (x +:+ gap +:+ joinPath (y :: l)).
  by rewrite !sapp_assoc.
Qed.

(** A vertex of the path occurs in its text. *)
Lemma Contains_joinPath l h : h ∈ l -> Contains (joinPath l) h = true.
Proof.
  induction l as [|x l IH]; intros Hin; [by apply elem_of_nil in Hin|].
  destruct l as [|y l].
  - apply list_elem_of_singleton in Hin as ->. apply Contains_refl.
  - change (joinPath (x :: y :: l)) with (x +:+ gap +:+ joinPath (y :: l)).
    apply elem_of_cons in Hin as [->|Hin].
    + apply Contains_app_l, Contains_refl.
    + apply Contains_app_r, Contains_app_r. by apply IH.
Qed.

(** Splitting a text without the separator leaves it whole. *)
Lemma splitFrom_whole s current :
  Contains s gap = false -> splitFrom O gap s current = [current +:+ s].
Proof.
  revert current. induction s as [|c s IH]; intros current Hc.
  - simpl. by rewrite sapp_nil_r.
  - rewrite Contains_cons in Hc. apply orb_false_iff in Hc as [Hp Hc].
    cbn [splitFrom]. rewrite Hp. rewrite IH by done.
    by rewrite sapp_assoc.
Qed.

Lemma splitFrom_gap s rest current :
  Contains s gap = false ->
  splitFrom O gap (s +:+ gap +:+ rest) current
  = (current +:+ s) :: splitFrom O gap rest EmptyString.
Proof.
  revert current. induction s as [|c s IH]; intros current Hc.
  - rewrite sapp_nil_l, sapp_nil_r. reflexivity.
  - rewrite Contains_cons in Hc. apply orb_false_iff in Hc as [Hp Hc].
    rewrite sapp_cons. cbn [splitFrom].
    assert (Hp' : HasPrefix (String c (s +:+ gap +:+ rest)) gap = false).
    { destruct s as [|d s]; [rewrite sapp_nil_l|rewrite sapp_cons];
        simpl in Hp |- *.
      - destruct (decide ("-"%char = c)); [|done]. done.
      - destruct (decide ("-"%char = c)); [|done].
        destruct (decide (">"%char = d)); [done|done]. }
    rewrite Hp'. rewrite IH by done. by rewrite sapp_assoc.
Qed.

(** Splitting the text of a path gives its hashes back, when none of them
    contains the separator. *)
Lemma Split_joinPath l :
  l <> [] -> Forall (fun h => Contains h gap = false) l ->
  Split (joinPath l) gap = l.
Proof.
  unfold Split. induction l as [|x l IH]; intros Hl Hall; [done|].
  apply Forall_cons in Hall as [Hx Hall]. destruct l as [|y l].
  - simpl. by rewrite splitFrom_whole.
  - change (joinPath (x :: y :: l)) with (x +:+ gap +:+ joinPath (y :: l)).
    rewrite splitFrom_gap by done. rewrite IH by done. done.
Qed.

(** A text free of the characters of the separator that occurs in the text
    of a path occurs in one of its hashes. *)
Lemma HasPrefix_gap s rest h :
  noneOf gap h = true ->
  HasPrefix (s +:+ gap +:+ rest) h = true -> HasPrefix s h = true.
Proof.
  revert s. induction h as [|c h IH]; intros s Hn Hp; [done|].
  simpl in Hn. apply andb_prop in Hn as [Hc Hn].
  destruct s as [|d s].
  - rewrite sapp_nil_l in Hp. simpl in Hp.
    destruct (decide (c = "-"%char)) as [->|Hne]; [done|done].
  - rewrite sapp_cons in Hp.
    simpl in Hp |- *. destruct (decide (c = d)); [|done]. by apply IH.
Qed.

Lemma Contains_gap s rest h :
  h <> EmptyString -> noneOf gap h = true ->
  Contains (s +:+ gap +:+ rest) h = true ->
  Contains s h = true \/ Contains rest h = true.
Proof.
  intros Hh Hn. destruct h as [|c h]; [done|].
  assert (Hc : c <> "-"%char /\ c <> ">"%char).
  { simpl in Hn. apply andb_prop in Hn as [Hc _].
    split; intros ->; done. }
  destruct Hc as [Hc1 Hc2].
  induction s as [|d s IH]; intros Hcon.
  - right. rewrite sapp_nil_l in Hcon. simpl in Hcon.
    rewrite !(decide_False (P := c = _)) in Hcon by done.
    simpl in Hcon. done.
  - rewrite sapp_cons in Hcon.
    cbn [Contains] in Hcon. apply orb_true_iff in Hcon as [Hp|Hcon].
    + left. cbn [Contains]. apply orb_true_iff. left.
      by apply (HasPrefix_gap (String d s) rest).
    + destruct (IH Hcon) as [Hs|Hr]; [|by right].
      left. cbn [Contains]. apply orb_true_iff. by right.
Qed.

Lemma Contains_joinPath_inv l h :
  h <> EmptyString -> noneOf gap h = true ->
  Contains (joinPath l) h = true -> exists x, x ∈ l /\ Contains x h = true.
Proof.
  intros Hh Hn. induction l as [|x l IH]; intros Hc.
  - simpl in Hc. destruct h; done.
  - destruct l as [|y l].
    + exists x. split; [by apply elem_of_cons; left|done].
    + change (joinPath (x :: y :: l)) with (x +:+ gap +:+ joinPath (y :: l)) in Hc.
      apply Contains_gap in Hc as [Hc|Hc]; try done.
      * exists x. split; [by apply elem_of_cons; left|done].
      * destruct (IH Hc) as (z & Hz & Hzh). exists z.
        split; [by apply elem_of_cons; right|done].
Qed.

End StringFacts.

(** ** FindAllPaths *)

Section AllPathsFacts.

Context {T : Type} {Q : PriorityQueue string}.
Context (items : queueOf Q -> list (string * float64)).
Context {QS : PriorityQueueSpec Q items}.

Variables (am : Snapshot string) (source target : string).

Implicit Types (l : list string) (p h v : string) (q : queueOf Q)
  (paths : list string).

Local Abbreviation WalkFrom := (WalkFrom am source).
Local Abbreviation queueOk := (queueOk items am source).
Local Abbreviation pathsOk := (pathsOk am source target).
Local Abbreviation hashCount := (hashCount am source).
Local Abbreviation budgetOf := (budgetOf am source).
Local Abbreviation potential := (potential items am source).
Local Abbreviation stepBudget := (stepBudget am source).
Local Abbreviation complete := (complete items am source target).

Lemma IsWalk_targets x l y :
  IsWalk am (x :: l) -> y ∈ l -> y ∈ flat_map (fun e => e.2.*1) am.
Proof.
  revert x. induction l as [|z l IH]; intros x Hw Hy.
  - by apply elem_of_nil in Hy.
  - destruct Hw as [Hxz Hw]. apply elem_of_cons in Hy as [->|Hy]; [|by apply (IH z)].
    apply list_elem_of_In, in_flat_map. exists (x, edgesOf am x).
    split; [|by apply list_elem_of_In].
    apply list_elem_of_In, edgesOf_key. intros E.
    unfold Step, neighbours in Hxz. rewrite E in Hxz. by apply elem_of_nil in Hxz.
Qed.

Lemma WalkFrom_hashes l x : WalkFrom l -> x ∈ l -> x ∈ hashesOf am source.
Proof.
  intros (Hh & Hw & _) Hx. destruct l as [|y l]; [done|].
  simpl in Hh. inversion Hh; subst y. unfold hashesOf.
  apply elem_of_cons in Hx as [->|Hx]; [by apply elem_of_cons; left|].
  apply elem_of_cons; right. by apply (IsWalk_targets source l).
Qed.

Lemma WalkFrom_length l :
  WalkFrom l -> (length l <= length (remove_dups (hashesOf am source)))%nat.
Proof.
  intros Hl. apply submseteq_length, NoDup_submseteq; [by destruct Hl as (_ & _ & ?)|].
  intros x Hx. apply elem_of_remove_dups. by apply (WalkFrom_hashes l).
Qed.

Lemma WalkFrom_source : WalkFrom [source].
Proof. split; [done|]. split; [done|]. apply NoDup_singleton. Qed.

Lemma WalkFrom_snoc l v h :
  WalkFrom l -> last l = Some v -> Step am v h -> h ∉ l -> WalkFrom (l ++ [h]).
Proof.
  intros (Hh & Hw & Hnd) Hl Hs Hn. apply last_Some in Hl as [l0 ->].
  split; [|split].
  - destruct l0; done.
  - by apply IsWalk_snoc.
  - apply NoDup_app. split; [done|]. split; [|apply NoDup_singleton].
    intros x Hx Hxh. by apply list_elem_of_singleton in Hxh as ->.
Qed.

Lemma WalkFrom_prefix l1 l2 : l1 <> [] -> WalkFrom (l1 ++ l2) -> WalkFrom l1.
Proof.
  intros Hne (Hh & Hw & Hnd). split; [|split].
  - destruct l1; done.
  - by apply IsWalk_app_inv in Hw as [? _].
  - by apply NoDup_app in Hnd as [? _].
Qed.

Lemma length_edgesOf v : (length (edgesOf am v) <= maxDegree am)%nat.
Proof.
  unfold maxDegree. induction am as [|[k es] m IH]; simpl; [lia|].
  destruct (decide (k = v)); lia.
Qed.

Lemma pathBudget_pos d n : (1 <= pathBudget d n)%nat.
Proof. destruct n; simpl; lia. Qed.

Lemma pathBudget_mono d n : (pathBudget d n <= pathBudget d (S n))%nat.
Proof.
  induction n as [|n IH]; simpl; [lia|]. simpl in IH.
  assert (d * pathBudget d n <= d * S (d * pathBudget d n))%nat; [|lia].
  apply Nat.mul_le_mono_l. lia.
Qed.

Lemma Step_hashes v h : Step am v h -> h ∈ hashesOf am source.
Proof.
  intros Hs. apply elem_of_cons; right. apply (IsWalk_targets v [h]).
  - by split.
  - by apply list_elem_of_singleton.
Qed.

(** The test of [FindAllPaths] is right on hashes that are plain. *)
Lemma plainHashes_membership :
  plainHashes (hashesOf am source) = true -> containsIsMembership am source.
Proof.
  unfold plainHashes. rewrite forallb_forall.
  intros Hplain l v h [(Hh & Hl & Hw) Hnd] Hstep Hc.
  pose proof (Step_hashes v h Hstep) as Hhash.
  apply list_elem_of_In, Hplain in Hhash.
  apply andb_prop in Hhash as [Hhash Hsub].
  apply andb_prop in Hhash as [Hne Hnone].
  apply negb_true_iff, bool_decide_eq_false_1 in Hne.
  destruct (Contains_joinPath_inv l h Hne Hnone Hc) as (x & Hx & Hxh).
  rewrite forallb_forall in Hsub.
  assert (Hxhash : x ∈ hashesOf am source) by (by apply (WalkFrom_hashes l)).
  apply list_elem_of_In, Hsub in Hxhash. rewrite Hxh in Hxhash. simpl in Hxhash.
  apply bool_decide_eq_true_1 in Hxhash. by subst x.
Qed.

(** *** Partial paths in the queue *)

Hypothesis Hsep : separatorFree (hashesOf am source) = true.

Lemma WalkFrom_Split l : WalkFrom l -> Split (joinPath l) gap = l.
Proof.
  intros Hl. apply Split_joinPath.
  - destruct Hl as (Hh & _). by destruct l.
  - apply Forall_forall. intros x Hx.
    apply (WalkFrom_hashes l x Hl), list_elem_of_In in Hx.
    unfold separatorFree in Hsep. rewrite forallb_forall in Hsep.
    apply Hsep in Hx. by apply negb_true_iff in Hx.
Qed.

Lemma joinPath_inj l1 l2 :
  WalkFrom l1 -> WalkFrom l2 -> joinPath l1 = joinPath l2 -> l1 = l2.
Proof.
  intros H1 H2 Heq. rewrite <- (WalkFrom_Split l1 H1), <- (WalkFrom_Split l2 H2).
  by rewrite Heq.
Qed.

Lemma expand_ok l v h q paths :
  WalkFrom l -> last l = Some v -> Step am v h ->
  queueOk q -> pathsOk paths ->
  let st := expand target (joinPath l) (q, paths) h in
  queueOk st.1 /\ pathsOk st.2 /\
  (potential st.1 <= potential q + stepBudget (length l))%nat.
Proof.
  intros Hl Hlast Hstep Hq Hp. unfold expand.
  destruct (Contains (joinPath l) h) eqn:Hc; simpl;
    [repeat split; try done; apply Nat.le_add_r|].
  assert (Hn : h ∉ l).
  { intros Hin. apply Contains_joinPath in Hin. congruence. }
  pose proof (WalkFrom_snoc l v h Hl Hlast Hstep Hn) as Hl'.
  assert (Hj : joinPath l +:+ gap +:+ h = joinPath (l ++ [h])).
  { rewrite joinPath_snoc; [done|]. destruct Hl as (Hh & _). by destruct l. }
  rewrite Hj. destruct (decide (h = target)) as [->|Hne]; simpl.
  - split; [done|]. split; [|apply Nat.le_add_r]. intros p Hin.
    apply elem_of_app in Hin as [Hin|Hin]; [by apply Hp|].
    apply list_elem_of_singleton in Hin as ->. exists (l ++ [target]).
    split; [done|]. split; [done|]. by rewrite last_snoc.
  - pose proof (WalkFrom_length _ Hl') as Hlen.
    rewrite length_app in Hlen. change (length [h]) with 1%nat in Hlen.
    fold hashCount in Hlen.
    assert (Hb : budgetOf (joinPath (l ++ [h]), Finite 0) = stepBudget (length l)).
    { unfold budgetOf, stepBudget.
      change ((joinPath (l ++ [h]), Finite 0).1) with (joinPath (l ++ [h])).
      rewrite WalkFrom_Split by done.
      rewrite decide_True by lia. rewrite length_app.
      change (length [h]) with 1%nat. f_equal. lia. }
    destruct (items_Push q (joinPath (l ++ [h])) (Finite 0)) as [Hpush|[_ Hpush]].
    + split; [|split; [done|]].
      * intros p w Hin. rewrite Hpush in Hin.
        apply elem_of_cons in Hin as [Heq|Hin]; [|by apply (Hq p w)].
        inversion Heq; subst. by exists (l ++ [h]).
      * unfold potential. rewrite Hpush. simpl. rewrite Hb. lia.
    + split; [|split; [done|]].
      * intros p w Hin. rewrite Hpush in Hin. by apply (Hq p w).
      * unfold potential. rewrite Hpush. lia.
Qed.

Lemma fold_expand_ok l v hs q paths :
  WalkFrom l -> last l = Some v -> (forall h, h ∈ hs -> Step am v h) ->
  queueOk q -> pathsOk paths ->
  let st := fold_left (expand target (joinPath l)) hs (q, paths) in
  queueOk st.1 /\ pathsOk st.2 /\
  (potential st.1 <= potential q + length hs * stepBudget (length l))%nat.
Proof.
  intros Hl Hlast. revert q paths.
  induction hs as [|h hs IH]; intros q paths Hhs Hq Hp; simpl.
  - repeat split; try done. lia.
  - destruct (expand_ok l v h q paths) as (Hq' & Hp' & Hpot); try done.
    { apply Hhs. by apply elem_of_cons; left. }
    destruct (expand target (joinPath l) (q, paths) h) as [q' paths'].
    simpl in Hq', Hp', Hpot.
    destruct (IH q' paths') as (Hq'' & Hp'' & Hpot'); try done.
    { intros h' Hh'. apply Hhs. by apply elem_of_cons; right. }
    repeat split; try done. lia.
Qed.

(** One turn of the loop on a queue whose least entry is [p]. *)
Lemma turn_ok q paths p w q' :
  queueOk q -> pathsOk paths -> items q ≡ₚ (p, w) :: items q' ->
  let st := allPathsTurn am target p (q', paths) in
  queueOk st.1 /\ pathsOk st.2 /\ (potential st.1 < potential q)%nat.
Proof.
  intros Hq Hp Hperm.
  destruct (Hq p w) as (l & -> & Hl).
  { rewrite Hperm. by apply elem_of_cons; left. }
  assert (Hq' : queueOk q').
  { intros p' w' Hin. apply (Hq p' w'). rewrite Hperm. by apply elem_of_cons; right. }
  unfold allPathsTurn. rewrite WalkFrom_Split by done.
  assert (Hlast : exists v, last l = Some v).
  { destruct Hl as (Hh & _). destruct l as [|x l]; [done|].
    destruct (last (x :: l)) eqn:E; [by eexists|].
    by apply last_None in E. }
  destruct Hlast as [v Hv]. rewrite Hv.
  destruct (fold_expand_ok l v (neighbours am v) q' paths) as (Ha & Hb & Hc);
    try done.
  split; [done|]. split; [done|].
  assert (Hpot : potential q = (budgetOf (joinPath l, w) + potential q')%nat).
  { unfold potential. by rewrite Hperm. }
  rewrite Hpot. unfold budgetOf at 1. simpl. rewrite WalkFrom_Split by done.
  assert (Hdeg : (length (neighbours am v) <= maxDegree am)%nat).
  { unfold neighbours. rewrite length_fmap. apply length_edgesOf. }
  assert (Hstep : (length (neighbours am v) * stepBudget (length l)
                   < pathBudget (maxDegree am) (hashCount - length l))%nat).
  { unfold stepBudget. destruct (decide (length l < hashCount)%nat) as [Hlt|Hge].
    - replace (hashCount - length l)%nat with (S (hashCount - S (length l))) by lia.
      simpl. apply Nat.lt_succ_r. by apply Nat.mul_le_mono_r.
    - pose proof (pathBudget_pos (maxDegree am) (hashCount - length l)). lia. }
  lia.
Qed.

(** The loop ends, with a queue that is empty, and keeps what every turn
    keeps. *)
Lemma findAllPathsLoop_ok (P : queueOf Q -> list string -> Prop) :
  (forall q paths p w q',
     queueOk q -> pathsOk paths -> P q paths ->
     items q ≡ₚ (p, w) :: items q' ->
     P (allPathsTurn am target p (q', paths)).1
       (allPathsTurn am target p (q', paths)).2) ->
  forall fuel q paths,
    queueOk q -> pathsOk paths -> P q paths -> (potential q < fuel)%nat ->
    exists paths' q',
      findAllPathsLoop fuel am target q paths = Some (paths', None) /\
      pathsOk paths' /\ items q' = [] /\ P q' paths'.
Proof.
  intros Hturn. induction fuel as [|fuel IH]; intros q paths Hq Hp HP Hf; [lia|].
  simpl. rewrite items_Len. case_bool_decide as Hlen.
  - destruct (items_Pop q) as (p & w & q' & Hpop & Hperm & _).
    { intros E. rewrite E in Hlen. simpl in Hlen. lia. }
    rewrite Hpop.
    destruct (turn_ok q paths p w q' Hq Hp Hperm) as (Hq' & Hp' & Hpot).
    apply IH; try done.
    + by apply (Hturn q paths p w q').
    + lia.
  - exists paths, q. repeat split; try done.
    destruct (items q); [done|]. simpl in Hlen. lia.
Qed.

Lemma start_items :
  items (Push newPriorityQueue source (Finite 0)) ≡ₚ [(source, Finite 0)].
Proof.
  destruct (items_Push newPriorityQueue source (Finite 0)) as [Hp|[Hin _]].
  - by rewrite Hp, items_new.
  - rewrite items_new in Hin. by apply elem_of_nil in Hin.
Qed.

Lemma start_ok :
  queueOk (Push newPriorityQueue source (Finite 0)) /\
  (potential (Push newPriorityQueue source (Finite 0))
   < allPathsFuel am source)%nat.
Proof.
  split.
  - intros p w Hin. rewrite start_items in Hin.
    apply list_elem_of_singleton in Hin. inversion Hin; subst.
    exists [source]. split; [done|apply WalkFrom_source].
  - unfold potential. rewrite start_items. simpl. unfold budgetOf, allPathsFuel.
    fold hashCount. rewrite Nat.add_0_r. apply Nat.lt_succ_r.
    generalize (length (Split (source, Finite 0).1 gap)). intros k.
    induction k as [|k IHk]; [by rewrite Nat.sub_0_r|].
    etransitivity; [|exact IHk].
    destruct (decide (k < hashCount)%nat).
    + replace (hashCount - k)%nat with (S (hashCount - S k)) by lia.
      apply pathBudget_mono.
    + replace (hashCount - S k)%nat with (hashCount - k)%nat by lia. done.
Qed.

Lemma pathsOk_nil : pathsOk [].
Proof. intros p Hin. by apply elem_of_nil in Hin. Qed.

(** *** From a vertex to itself *)

(** The source is on every partial path, so an extension by the source never
    passes the test: with the target equal to the source nothing is
    returned. *)
Lemma fold_expand_none p hs q paths :
  Contains p target = true ->
  (fold_left (expand target p) hs (q, paths)).2 = paths.
Proof.
  intros Hc. revert q. induction hs as [|h hs IH]; intros q; simpl; [done|].
  unfold expand at 2. destruct (Contains p h) eqn:Hh; simpl; [apply IH|].
  destruct (decide (h = target)) as [->|Hne]; [congruence|]. apply IH.
Qed.

Lemma turn_none q paths p w q' :
  source = target ->
  queueOk q -> pathsOk paths -> paths = [] ->
  items q ≡ₚ (p, w) :: items q' ->
  (allPathsTurn am target p (q', paths)).2 = [].
Proof.
  intros Heq Hq _ -> Hperm.
  destruct (Hq p w) as (l & -> & Hl).
  { rewrite Hperm. by apply elem_of_cons; left. }
  unfold allPathsTurn. destruct (last (Split (joinPath l) gap)); [|done].
  apply fold_expand_none. apply Contains_joinPath. rewrite <- Heq.
  destruct Hl as (Hh & _). destruct l as [|x l]; [done|].
  simpl in Hh. inversion Hh. by apply elem_of_cons; left.
Qed.

(** *** Every simple path is found *)

Hypothesis Hmem : containsIsMembership am source.
Hypothesis Hne : source <> target.

Lemma expand_keeps p q paths h :
  let st := expand target p (q, paths) h in
  (forall k, k ∈ (items q).*1 -> k ∈ (items st.1).*1) /\
  (forall r, r ∈ paths -> r ∈ st.2).
Proof.
  unfold expand. destruct (Contains p h); simpl; [done|].
  destruct (decide (h = target)); simpl.
  - split; [done|]. intros r Hr. apply elem_of_app. by left.
  - split; [|done]. intros k Hk.
    destruct (items_Push q (p +:+ gap +:+ h) (Finite 0)) as [Hp|[_ Hp]];
      rewrite Hp; [|done].
    simpl. by apply elem_of_cons; right.
Qed.

Lemma expand_adds p q paths h :
  Contains p h = false ->
  let st := expand target p (q, paths) h in
  if decide (h = target) then p +:+ gap +:+ h ∈ st.2
  else p +:+ gap +:+ h ∈ (items st.1).*1.
Proof.
  intros Hc. unfold expand. rewrite Hc.
  destruct (decide (h = target)); simpl.
  - apply elem_of_app. right. by apply list_elem_of_singleton.
  - destruct (items_Push q (p +:+ gap +:+ h) (Finite 0)) as [Hp|[Hin Hp]];
      rewrite Hp; [|done].
    simpl. by apply elem_of_cons; left.
Qed.

Lemma fold_expand_keeps p hs q paths :
  let st := fold_left (expand target p) hs (q, paths) in
  (forall k, k ∈ (items q).*1 -> k ∈ (items st.1).*1) /\
  (forall r, r ∈ paths -> r ∈ st.2).
Proof.
  revert q paths. induction hs as [|h hs IH]; intros q paths; simpl; [done|].
  pose proof (expand_keeps p q paths h) as [Hk Hr].
  destruct (expand target p (q, paths) h) as [q' paths']. simpl in Hk, Hr.
  destruct (IH q' paths') as [Hk' Hr']. split; auto.
Qed.

Lemma fold_expand_adds p hs q paths h :
  h ∈ hs -> Contains p h = false ->
  let st := fold_left (expand target p) hs (q, paths) in
  if decide (h = target) then p +:+ gap +:+ h ∈ st.2
  else p +:+ gap +:+ h ∈ (items st.1).*1.
Proof.
  revert q paths. induction hs as [|h' hs IH]; intros q paths Hin Hc; simpl.
  - by apply elem_of_nil in Hin.
  - apply elem_of_cons in Hin as [->|Hin].
    + pose proof (expand_adds p q paths h' Hc) as Hadd.
      destruct (expand target p (q, paths) h') as [q' paths']. simpl in Hadd.
      destruct (fold_expand_keeps p hs q' paths') as [Hk Hr].
      destruct (decide (h' = target)); auto.
    + destruct (expand target p (q, paths) h') as [q' paths']. by apply IH.
Qed.

Lemma turn_complete q paths p w q' :
  queueOk q -> pathsOk paths -> complete q paths ->
  items q ≡ₚ (p, w) :: items q' ->
  complete (allPathsTurn am target p (q', paths)).1
           (allPathsTurn am target p (q', paths)).2.
Proof.
  intros Hq Hp Hc Hperm l Hl.
  destruct (Hq p w) as (l0 & -> & Hl0).
  { rewrite Hperm. by apply elem_of_cons; left. }
  unfold allPathsTurn. rewrite WalkFrom_Split by done.
  assert (Hlast : exists v, last l0 = Some v).
  { destruct Hl0 as (Hh & _). destruct l0 as [|x l0]; [done|].
    destruct (last (x :: l0)) eqn:E; [by eexists|]. by apply last_None in E. }
  destruct Hlast as [v Hv]. rewrite Hv.
  pose proof (fold_expand_keeps (joinPath l0) (neighbours am v) q' paths)
    as [Hkeep Hkeepr].
  destruct (Hc l Hl) as [Hin|(l1 & l2 & -> & Hl1 & Hl2 & Hin)].
  { left. by apply Hkeepr. }
  assert (Hkeys : (items q).*1 ≡ₚ joinPath l0 :: (items q').*1).
  { by rewrite Hperm. }
  rewrite Hkeys in Hin. apply elem_of_cons in Hin as [Heq|Hin].
  2:{ right. exists l1, l2. repeat split; try done. by apply Hkeep. }
  destruct Hl as [(Hh & Hlt & Hw) Hnd].
  assert (Hw1 : WalkFrom l1).
  { apply (WalkFrom_prefix l1 l2); [done|]. by repeat split. }
  apply joinPath_inj in Heq; try done. subst l1.
  destruct l2 as [|h l2]; [done|].
  assert (Hstep : Step am v h).
  { apply last_Some in Hv as [l' ->]. rewrite <- app_assoc in Hw.
    apply IsWalk_app_inv in Hw as [_ Hw]. by destruct Hw. }
  assert (Hnh : h ∉ l0).
  { apply NoDup_app in Hnd as (_ & Hd & _). intros Hin. apply (Hd h Hin).
    by apply elem_of_cons; left. }
  assert (Hcf : Contains (joinPath l0) h = false).
  { destruct (Contains (joinPath l0) h) eqn:E; [|done].
    exfalso. apply Hnh. apply (Hmem l0 v h); try done.
    destruct Hw1 as (? & ? & ?). by repeat split. }
  assert (Hj : joinPath l0 +:+ gap +:+ h = joinPath (l0 ++ [h])).
  { by rewrite joinPath_snoc. }
  pose proof (fold_expand_adds (joinPath l0) (neighbours am v) q' paths h
                Hstep Hcf) as Hadd.
  rewrite Hj in Hadd. destruct (decide (h = target)) as [->|Hht].
  - left. destruct l2 as [|y l2]; [done|]. exfalso.
    apply NoDup_app in Hnd as (_ & _ & Hnd). apply NoDup_cons in Hnd as [Hn _].
    apply Hn. rewrite last_app in Hlt. simpl in Hlt.
    assert (Hlt' : last (y :: l2) = Some target).
    { destruct (last (y :: l2)) eqn:E; [done|]. by apply last_None in E. }
    apply last_Some in Hlt' as [l' ->]. apply elem_of_app. right.
    by apply list_elem_of_singleton.
  - right. exists (l0 ++ [h]), l2. rewrite <- app_assoc. split; [done|].
    split; [by destruct l0|]. split; [|done].
    intros ->. rewrite last_snoc in Hlt. by inversion Hlt.
Qed.

End AllPathsFacts.

Section AllPathsResults.

Context {T : Type} {Q : PriorityQueue string}.


Context (items : queueOf Q -> list (string * float64)).
Context {QS : PriorityQueueSpec Q items}.

(** C1, for the texts the function returns: when no hash contains the
    separator, every text returned, split at the separator, is the sequence
    of hashes of a path from the source to the target without a repeated
    vertex, and is that sequence joined again. *)
Theorem FindAllPaths_texts (g : Graph string T) am source target fuel :
  AdjacencyMap g = (am, None) ->
  separatorFree (hashesOf am source) = true ->
  (allPathsFuel am source <= fuel)%nat ->
  exists paths, FindAllPaths fuel g source target = Some (paths, None) /\
    forall p, p ∈ paths ->
      SimplePath am source target (Split p gap) /\
      joinPath (Split p gap) = p.
Proof.
  intros Ham Hsep Hf. unfold FindAllPaths. rewrite Ham.
  destruct (start_ok items am source) as [Hq Hpot].
  destruct (findAllPathsLoop_ok items am source target Hsep (fun _ _ => True)
              ltac:(done) fuel (Push newPriorityQueue source (Finite 0)) [])
    as (paths & q' & Hrun & Hp & _); try done.
  { apply pathsOk_nil. }
  { lia. }
  exists paths. split; [done|]. intros p Hin.
  destruct (Hp p Hin) as (l & -> & Hl & Hlast).
  rewrite (WalkFrom_Split am source Hsep l Hl). split; [|done].
  destruct Hl as (Hh & Hw & Hnd). by repeat split.
Qed.

(** For hashes on which the test [strings.Contains(path, adjacency)] is
    right (none contains the separator, and a neighbour that occurs in the
    text of a path is a vertex of the path): when the target is not the
    source, the texts returned are exactly the texts of the paths from the
    source to the target without a repeated vertex; when it is the source,
    nothing is returned. *)
Theorem FindAllPaths_simple_paths (g : Graph string T) am source target fuel :
  AdjacencyMap g = (am, None) ->
  separatorFree (hashesOf am source) = true ->
  containsIsMembership am source ->
  (allPathsFuel am source <= fuel)%nat ->
  exists paths, FindAllPaths fuel g source target = Some (paths, None) /\
    (source <> target ->
     forall p, p ∈ paths <->
       exists l, SimplePath am source target l /\ p = joinPath l) /\
    (source = target -> paths = []).
Proof.
  intros Ham Hsep Hmem Hf. unfold FindAllPaths. rewrite Ham.
  destruct (start_ok items am source) as [Hq Hpot].
  destruct (decide (source = target)) as [Heq|Hne].
  { destruct (findAllPathsLoop_ok items am source target Hsep
                (fun _ paths => paths = [])
                (fun q paths p w q' Hq' Hp' HP Hperm =>
                   turn_none items am source target q paths p w q'
                             Heq Hq' Hp' HP Hperm)
                fuel (Push newPriorityQueue source (Finite 0)) [])
      as (paths & q' & Hrun & _ & _ & Hnil); try done.
    { apply pathsOk_nil. }
    { lia. }
    exists paths. by split. }
  destruct (findAllPathsLoop_ok items am source target Hsep
              (complete items am source target)
              (turn_complete items am source target Hsep Hmem)
              fuel (Push newPriorityQueue source (Finite 0)) [])
    as (paths & q' & Hrun & Hp & Hempty & Hc); try done.
  { apply pathsOk_nil. }
  { intros l Hl. right. destruct Hl as [(Hh & Hlast & Hw) Hnd].
    destruct l as [|x l]; [done|]. simpl in Hh. inversion Hh; subst x.
    exists [source], l. split; [done|]. split; [done|]. split.
    - intros ->. simpl in Hlast. by inversion Hlast.
    - rewrite (start_items items source). simpl.
      by apply list_elem_of_singleton. }
  { lia. }
  exists paths. split; [done|]. split; [|done]. intros _ p. split.
  - intros Hin. destruct (Hp p Hin) as (l & -> & Hl & Hlast).
    exists l. split; [|done]. destruct Hl as (Hh & Hw & Hnd). by repeat split.
  - intros (l & Hl & ->). destruct (Hc l Hl) as [Hin|(l1 & l2 & _ & _ & _ & Hin)];
      [done|].
    rewrite Hempty in Hin. by apply elem_of_nil in Hin.
Qed.

End AllPathsResults.

(** *** Pops *)


Section PopFailures.

Context {K : Type} `{Countable K}.
Context (QK : PriorityQueue K) (itemsK : queueOf QK -> list (K * float64)).
Context (QKS : PriorityQueueSpec QK itemsK).
Context (QS : PriorityQueue string)
        (itemsS : queueOf QS -> list (string * float64)).
Context (QSS : PriorityQueueSpec QS itemsS).




End PopFailures.

(** *** Runs *)

(** The example of the two paths from A to D. *)
Example FindAllPaths_diamond :
  FindAllPaths (Q := listQueue) 100 diamond "A" "D"
  = Some (["A->B->D"; "A->C->D"], None).
Proof. reflexivity. Qed.


Lemma FindAllPaths_texts_witness :
  exists paths, FindAllPaths (Q := listQueue) 100 diamond "A" "D"
                = Some (paths, None) /\
    forall p, p ∈ paths ->
      SimplePath diamondAdjacency "A" "D" (Split p gap) /\
      joinPath (Split p gap) = p.
Proof.
  apply (FindAllPaths_texts (Q := listQueue) (QS := listQueue_spec) (fun q => q)
           diamond diamondAdjacency "A" "D" 100);
    [reflexivity | reflexivity | vm_compute; lia].
Defined.

Lemma FindAllPaths_simple_paths_witness :
  exists paths, FindAllPaths (Q := listQueue) 100 diamond "A" "D"
                = Some (paths, None) /\
    ("A" <> "D" ->
     forall p, p ∈ paths <->
       exists l, SimplePath diamondAdjacency "A" "D" l /\ p = joinPath l) /\
    ("A" = "D" -> paths = []).
Proof.
  apply (FindAllPaths_simple_paths (Q := listQueue) (QS := listQueue_spec)
           (fun q => q) diamond diamondAdjacency "A" "D" 100);
    [reflexivity | reflexivity | | vm_compute; lia].
  apply plainHashes_membership. reflexivity.
Defined.

(** C1 as it is written fails on a hash that contains the separator: the
    text returned for the path from A to the vertex "B->C" splits into three
    hashes that are no path of the graph, and the path that goes on from
    that vertex to D is not found. *)
Lemma FindAllPaths_separator_collision :
  (FindAllPaths (Q := listQueue) 10 separatorGraph "A" "B->C"
   = Some (["A->B->C"], None) /\
   ~ IsPath separatorAdjacency "A" "B->C" (Split "A->B->C" gap)) /\
  (SimplePath separatorAdjacency "A" "D" ["A"; "B->C"; "D"] /\
   FindAllPaths (Q := listQueue) 10 separatorGraph "A" "D" = Some ([], None)).
Proof.
  split; split.
  - reflexivity.
  - intros (_ & Hlast & _). vm_compute in Hlast. discriminate.
  - split; [|apply (bool_decide_eq_true_1 _); reflexivity].
    split; [reflexivity|]. split; [reflexivity|].
    split; [|split; [|exact I]]; unfold Step;
      apply (bool_decide_eq_true_1 _); reflexivity.
  - reflexivity.
Qed.

(** C2: the test [strings.Contains(path, adjacency)] looks for the hash in
    the text of the path, not among its vertices.  With the one edge from AB
    to A the path from AB to A is not returned, because A occurs in the text
    AB; on "2" -> "10" -> "1" -> "3" the path from "2" to "3" is not
    returned, because "1" occurs in the text "2->10". *)
Theorem FindAllPaths_substring_test :
  (SimplePath insideAdjacency "AB" "A" ["AB"; "A"] /\
   FindAllPaths (Q := listQueue) 100 insideGraph "AB" "A" = Some ([], None)) /\
  (SimplePath numberedAdjacency "2" "3" ["2"; "10"; "1"; "3"] /\
   FindAllPaths (Q := listQueue) 100 numbered "2" "3" = Some ([], None)).
Proof.
  split; split; try reflexivity.
  - split; [|apply (bool_decide_eq_true_1 _); reflexivity].
    split; [reflexivity|]. split; [reflexivity|].
    split; [|exact I]. unfold Step. apply (bool_decide_eq_true_1 _); reflexivity.
  - split; [|apply (bool_decide_eq_true_1 _); reflexivity].
    split; [reflexivity|]. split; [reflexivity|].
    repeat split; unfold Step; apply (bool_decide_eq_true_1 _); reflexivity.
Qed.
(** ** More on ShortestPath *)

Section ShortestPathSafety.

Context {K : Type} `{Countable K}.
Context {T : Type}.
Context {Q : PriorityQueue K}.

Implicit Types (st : spState) (am : Snapshot K) (bp : gmap K K).

Lemma relax_alongEdges traits h x st entry am :
  entry ∈ edgesOf am x ->
  alongEdges am (bestPredecessors st) ->
  alongEdges am (bestPredecessors (relax traits h x st entry)).
Proof.
  intros Hin Hbp. unfold relax. destruct (_ && _); [|done]. simpl.
  intros v u Hvu. destruct (decide (entry.1 = v)) as [<-|Hne].
  - rewrite lookup_insert_eq in Hvu. inversion Hvu; subst u.
    unfold Step, neighbours. apply list_elem_of_fmap. by exists entry.
  - rewrite lookup_insert_ne in Hvu by done. by apply Hbp.
Qed.

Lemma fold_relax_alongEdges traits h x es st am :
  (forall entry, entry ∈ es -> entry ∈ edgesOf am x) ->
  alongEdges am (bestPredecessors st) ->
  alongEdges am (bestPredecessors (fold_left (relax traits h x) es st)).
Proof.
  revert st. induction es as [|e es IH]; intros st Hes Hbp; simpl; [done|].
  apply IH.
  - intros entry Hin. apply Hes. by apply elem_of_cons; right.
  - apply relax_alongEdges; [|done]. apply Hes. by apply elem_of_cons; left.
Qed.

Lemma shortestPathLoop_alongEdges fuel traits am st st' :
  shortestPathLoop fuel traits am st = Some st' ->
  alongEdges am (bestPredecessors st) ->
  alongEdges am (bestPredecessors st').
Proof.
  revert st. induction fuel as [|fuel IH]; intros st Hrun Hbp; [done|].
  simpl in Hrun. case_bool_decide; [|by inversion Hrun; subst].
  destruct (Pop (queue st)) as [[vertex err] queue'].
  apply IH in Hrun; [done|]. by apply fold_relax_alongEdges.
Qed.

Lemma walkBack_alongEdges fuel am bp source target current path r :
  alongEdges am bp ->
  walkBack fuel bp source current path = Some (r, None) ->
  head path = Some current -> last path = Some target -> IsWalk am path ->
  IsPath am source target r.
Proof.
  intros Hbp. revert current path.
  induction fuel as [|fuel IH]; intros current path Hrun Hh Hl Hw; [done|].
  simpl in Hrun. destruct (decide (current = source)) as [->|Hne].
  - inversion Hrun; subst r. done.
  - destruct (bp !! current) as [c|] eqn:Hc; [|done].
    apply (IH c (c :: path)); try done.
    + destruct path as [|x path]; [done|]. by rewrite last_cons_cons.
    + destruct path as [|x path]; [done|]. simpl in Hh. inversion Hh; subst x.
      split; [by apply Hbp|done].
Qed.

(** Whatever the signs of the weights and whatever the queue does, a path
    [ShortestPath] returns starts at the source, ends at the target and goes
    along edges of the adjacency snapshot. *)
Theorem ShortestPath_follows_edges (g : Graph K T) am source target fuel path :
  AdjacencyMap g = (am, None) -> exactWeights (Traits g) am = true ->
  ShortestPath fuel g source target = Some (path, None) ->
  IsPath am source target path.
Proof.
  intros Ham _. unfold ShortestPath. rewrite Ham.
  destruct (shortestPathLoop fuel (Traits g) am (shortestPathStart source am))
    as [st|] eqn:Hloop; [|done].
  intros Hrun.
  apply (walkBack_alongEdges fuel am (bestPredecessors st) source target
           target [target]); try done.
  apply (shortestPathLoop_alongEdges _ _ _ _ _ Hloop).
  intros v u Hvu. unfold shortestPathStart in Hvu. simpl in Hvu.
  by rewrite lookup_empty in Hvu.
Qed.

Context (items : queueOf Q -> list (K * float64)).
Context {QS : PriorityQueueSpec Q items}.

(** A target that no edge leads to, other than the source, is reported as not
    reachable, whatever the signs of the weights. *)
Theorem ShortestPath_no_edge_to_target (g : Graph K T) am source target fuel :
  AdjacencyMap g = (am, None) -> exactWeights (Traits g) am = true ->
  target <> source -> target ∉ edgeTargets am ->
  (pathFuel am <= fuel)%nat ->
  ShortestPath fuel g source target = Some ([], Some ErrTargetNotReachable).
Proof.
  intros Ham _ Hne Hno Hf. unfold ShortestPath. rewrite Ham.
  destruct (shortestPathLoop_finishes items fuel (Traits g) am
              (shortestPathStart source am)) as [st Hst].
  { pose proof (shortestPathStart_length items source am).
    unfold pathFuel in Hf. lia. }
  rewrite Hst. destruct fuel as [|fuel]; [unfold pathFuel in Hf; lia|].
  simpl. rewrite decide_False by done.
  destruct (bestPredecessors st !! target) as [u|] eqn:Hu; [|done].
  exfalso. apply Hno.
  assert (Hstep : Step am u target).
  { apply (shortestPathLoop_alongEdges _ _ _ _ _ Hst); [|done].
    intros v w Hvw. unfold shortestPathStart in Hvw. simpl in Hvw.
    by rewrite lookup_empty in Hvw. }
  unfold edgeTargets. apply list_elem_of_In, in_flat_map.
  exists (u, edgesOf am u). split; [|by apply list_elem_of_In].
  apply list_elem_of_In, edgesOf_key. intros E.
  unfold Step, neighbours in Hstep. rewrite E in Hstep.
  by apply elem_of_nil in Hstep.
Qed.





End ShortestPathSafety.

(** *** The weight of the path *)

Section WalkWeights.

Context {K : Type} `{Countable K}.

Implicit Types (am : Snapshot K) (es : EdgeMap K) (l : list K).

Lemma edgeOf_elem es v e : NoDup es.*1 -> (v, e) ∈ es -> edgeOf es v = Some e.
Proof.
  induction es as [|[v' e'] es IH]; simpl; intros Hnd Hin.
  - by apply elem_of_nil in Hin.
  - apply NoDup_cons in Hnd as [Hv' Hnd].
    apply elem_of_cons in Hin as [Heq|Hin].
    + inversion Heq; subst. by rewrite decide_True.
    + destruct (decide (v' = v)) as [->|Hne]; [|by apply IH].
      exfalso. apply Hv'. apply list_elem_of_fmap. by exists (v, e).
Qed.

Lemma edgeOf_Some es v e : edgeOf es v = Some e -> (v, e) ∈ es.
Proof.
  induction es as [|[v' e'] es IH]; simpl; [done|].
  destruct (decide (v' = v)) as [->|Hne].
  - intros [= ->]. by apply elem_of_cons; left.
  - intros He. apply elem_of_cons; right. by apply IH.
Qed.



Lemma wf_inner am u : wellFormed am = true -> NoDup (edgesOf am u).*1.
Proof.
  intros Hwf. destruct (edgesOf am u) as [|e es] eqn:E; [apply NoDup_nil_2|].
  assert (Hent : (u, edgesOf am u) ∈ am).
  { apply edgesOf_key. by rewrite E. }
  unfold wellFormed in Hwf. apply andb_prop in Hwf as [_ Hall].
  rewrite forallb_forall in Hall. apply list_elem_of_In, Hall in Hent.
  apply andb_prop in Hent as [Hnd _]. apply bool_decide_eq_true_1 in Hnd.
  simpl in Hnd. by rewrite E in Hnd.
Qed.

Lemma stepWeight_edge traits am u v e :
  wellFormed am = true -> (v, e) ∈ edgesOf am u ->
  stepWeight traits am u v = effectiveWeight traits e.
Proof.
  intros Hwf Hin. unfold stepWeight, edgeBetween.
  by rewrite (edgeOf_elem _ v e (wf_inner am u Hwf) Hin).
Qed.

Lemma walkWeight_snoc traits am l u v :
  walkWeight traits am ((l ++ [u]) ++ [v])
  = walkWeight traits am (l ++ [u]) + stepWeight traits am u v.
Proof.
  induction l as [|x l IH]; [simpl; lia|].
  destruct l as [|y l].
  - simpl. lia.
  - change (walkWeight traits am (((x :: y :: l) ++ [u]) ++ [v]))
      with (stepWeight traits am x y
            + walkWeight traits am (((y :: l) ++ [u]) ++ [v])).
    change (walkWeight traits am ((x :: y :: l) ++ [u]))
      with (stepWeight traits am x y + walkWeight traits am ((y :: l) ++ [u])).
    rewrite IH. lia.
Qed.







End WalkWeights.

Section ChainWeights.

Context {K : Type} `{Countable K}.
Context {Q : PriorityQueue K} (items : queueOf Q -> list (K * float64)).

Variables (traits : GraphTraits) (am : Snapshot K) (source : K).
Hypothesis Hwf : wellFormed am = true.

Variable rel : K -> K * Edge -> Prop.
Variable st : spState.
Hypothesis Hinv : spInv items traits am source rel st.

Lemma Chain_walkWeight v l :
  Chain (bestPredecessors st) source v l ->
  Wt st v = Finite (walkWeight traits am l).
Proof.
  induction 1 as [|v u l Hne Hbp Hc IH].
  - by rewrite (I_src Hinv).
  - destruct (I_bp Hinv v u Hbp) as (_ & _ & _ & _ & e & He & HW).
    apply Chain_last in Hc as Hlast. apply last_Some in Hlast as [l0 ->].
    rewrite walkWeight_snoc, HW, IH, (stepWeight_edge traits am u v e); done.
Qed.


End ChainWeights.

Section LeastWeight.

Context {K : Type} `{Countable K}.
Context {T : Type}.
Context {Q : PriorityQueue K} (items : queueOf Q -> list (K * float64)).
Context {QS : PriorityQueueSpec Q items}.

Variables (traits : GraphTraits) (am : Snapshot K) (source : K).
Hypothesis Hwf : wellFormed am = true.

Variable st : spState.
Hypothesis Hinv : spInv items traits am source (fun _ _ => True) st.
Hypothesis Hempty : items (queue st) = [].


End LeastWeight.

Section ShortestPathWeight.

Context {K : Type} `{Countable K}.
Context {T : Type}.




End ShortestPathWeight.

Lemma ShortestPath_follows_edges_witness : IsPath looseAdjacency 1 2 [1; 2].
Proof.
  apply (ShortestPath_follows_edges (Q := listQueue) loose looseAdjacency
           1 2 10); reflexivity.
Defined.

Lemma ShortestPath_no_edge_to_target_witness :
  ShortestPath (Q := listQueue) 10 loose 2 1
  = Some ([], Some ErrTargetNotReachable).
Proof.
  apply (ShortestPath_no_edge_to_target (Q := listQueue) (QS := listQueue_spec)
           (fun q => q) loose looseAdjacency 2 1 10);
    [reflexivity | reflexivity | discriminate | | vm_compute; lia].
  apply (bool_decide_eq_false_1 (1 ∈ edgeTargets looseAdjacency)). reflexivity.
Defined.




(** ** More on CreatesCycle *)

Section NewEdge.

Context {K : Type} `{Countable K}.
Context {T : Type}.

Implicit Types (pm : Snapshot K).

(** A walk in the snapshot with the new edge is a walk in the old one, or
    goes through the new edge: then the old snapshot leads from its start to
    [target] and from [source] to its end. *)
Lemma WithEdge_tc pm pm' source target a b :
  WithEdge pm pm' source target ->
  tc (Step pm') a b ->
  tc (Step pm) a b \/ (Reach pm a target /\ Reach pm source b).
Proof.
  intros Hext. induction 1 as [a b Hab|a c b Hac _ IH].
  - apply Hext in Hab as [Hab|[-> ->]]; [left; by apply tc_once|].
    right. split; apply rtc_refl.
  - apply Hext in Hac as [Hac|[-> ->]].
    + destruct IH as [IH|[IH1 IH2]].
      * left. by eapply tc_l.
      * right. split; [|done]. by eapply rtc_l.
    + right. split; [apply rtc_refl|].
      destruct IH as [IH|[_ IH]]; [by apply tc_rtc|done].
Qed.

Lemma WithEdge_Reach pm pm' source target a b :
  WithEdge pm pm' source target -> Reach pm a b -> Reach pm' a b.
Proof.
  intros Hext. induction 1 as [|a c b Hac _ IH]; [apply rtc_refl|].
  eapply rtc_l; [|exact IH]. apply Hext. by left.
Qed.

(** What the answer of [CreatesCycle] means for the edge it is asked about:
    when it is true, the snapshot with the edge from [source] to [target]
    added has a cycle through [source]; when it is false and the snapshot
    had no cycle, the snapshot with the edge has none. *)
Theorem CreatesCycle_new_edge (g : Graph K T) pm pm' source target fuel :
  hasVertex g source -> hasVertex g target ->
  PredecessorMap g = (pm, None) -> (cycleFuel pm <= fuel)%nat ->
  WithEdge pm pm' source target ->
  exists b, CreatesCycle fuel g source target = Some (b, None) /\
    (b = true -> tc (Step pm') source source) /\
    (b = false -> Acyclic pm -> Acyclic pm').
Proof.
  intros Hs Ht Hpm Hfuel Hext.
  assert (Hnew : Step pm' target source) by (apply Hext; by right).
  destruct (decide (source = target)) as [->|Hne].
  { exists true. rewrite CreatesCycle_same by done.
    split; [done|]. split; [|done]. intros _. by apply tc_once. }
  unfold hasVertex in *. unfold CreatesCycle.
  destruct (Vertex g source) as [vs es]. destruct (Vertex g target) as [vt et].
  simpl in Hs, Ht. subst es et. rewrite decide_False by done. rewrite Hpm.
  destruct (createsCycleLoop_finishes fuel pm target [source] ∅) as [b Hb].
  { rewrite unvisitedSize_empty. unfold cycleFuel in Hfuel. simpl. lia. }
  rewrite Hb. exists b. split; [done|].
  pose proof (createsCycleLoop_sound _ _ source _ _ _ _
                (cycleInv_init pm source target) Hb) as Hiff.
  split.
  - intros Hb'. apply Hiff in Hb'.
    eapply tc_rtc_l; [|by apply tc_once].
    by apply (WithEdge_Reach pm pm' source target).
  - intros -> Hac v Hv.
    apply (WithEdge_tc pm pm' source target) in Hv as [Hv|[Hvt Hsv]]; [| |done].
    + by apply (Hac v).
    + assert (Hr : Reach pm source target) by (by etransitivity).
      apply Hiff in Hr. done.
Qed.

(** The answer of a run on two vertices of the graph. *)
Lemma CreatesCycle_answer (g : Graph K T) pm source target fuel :
  hasVertex g source -> hasVertex g target ->
  PredecessorMap g = (pm, None) -> (cycleFuel pm <= fuel)%nat ->
  exists b, CreatesCycle fuel g source target = Some (b, None) /\
    (b = true <-> Reach pm source target).
Proof.
  intros Hs Ht Hpm Hfuel.
  destruct (decide (source = target)) as [->|Hne].
  { exists true. rewrite CreatesCycle_same by done. split; [done|].
    split; [intros _; apply rtc_refl|done]. }
  unfold hasVertex in *. unfold CreatesCycle.
  destruct (Vertex g source) as [vs es]. destruct (Vertex g target) as [vt et].
  simpl in Hs, Ht. subst es et. rewrite decide_False by done. rewrite Hpm.
  destruct (createsCycleLoop_finishes fuel pm target [source] ∅) as [b Hb].
  { rewrite unvisitedSize_empty. unfold cycleFuel in Hfuel. simpl. lia. }
  rewrite Hb. exists b. split; [done|].
  apply (createsCycleLoop_sound _ _ source _ _ _ _
           (cycleInv_init pm source target) Hb).
Qed.

Lemma Reach_same_steps pm1 pm2 a b :
  (forall u v, Step pm1 u v <-> Step pm2 u v) ->
  Reach pm1 a b -> Reach pm2 a b.
Proof.
  intros Hsame. induction 1 as [|a c b Hac _ IH]; [apply rtc_refl|].
  eapply rtc_l; [|exact IH]. by apply Hsame.
Qed.

(** The answer of [CreatesCycle] does not depend on the order in which the
    maps of the predecessor snapshot are ranged over: two runs on snapshots
    with the same edges give the same answer. *)
Theorem CreatesCycle_any_order (g1 g2 : Graph K T) pm1 pm2 source target
    fuel1 fuel2 :
  hasVertex g1 source -> hasVertex g1 target ->
  hasVertex g2 source -> hasVertex g2 target ->
  PredecessorMap g1 = (pm1, None) -> PredecessorMap g2 = (pm2, None) ->
  (forall u v, Step pm1 u v <-> Step pm2 u v) ->
  (cycleFuel pm1 <= fuel1)%nat -> (cycleFuel pm2 <= fuel2)%nat ->
  exists b, CreatesCycle fuel1 g1 source target = Some (b, None) /\
            CreatesCycle fuel2 g2 source target = Some (b, None).
Proof.
  intros Hs1 Ht1 Hs2 Ht2 Hpm1 Hpm2 Hsame Hf1 Hf2.
  destruct (CreatesCycle_answer g1 pm1 source target fuel1 Hs1 Ht1 Hpm1 Hf1)
    as (b1 & Hr1 & Hb1).
  destruct (CreatesCycle_answer g2 pm2 source target fuel2 Hs2 Ht2 Hpm2 Hf2)
    as (b2 & Hr2 & Hb2).
  exists b1. split; [done|]. rewrite Hr2. do 2 f_equal.
  destruct b1, b2; try done.
  - apply (proj2 Hb2). apply (Reach_same_steps pm1 pm2); [done|].
    by apply (proj1 Hb1).
  - symmetry. apply (proj2 Hb1). apply (Reach_same_steps pm2 pm1); [|by apply (proj1 Hb2)].
    intros u v. symmetry. apply Hsame.
Qed.

End NewEdge.

Lemma chain_WithEdge : WithEdge chainPredecessors chainShortcutPredecessors 1 3.
Proof.
  intros u v. unfold Step, neighbours, chainPredecessors,
    chainShortcutPredecessors. simpl.
  repeat (case_decide; subst; simpl); rewrite ?elem_of_cons, ?elem_of_nil;
    intuition congruence.
Qed.

Lemma CreatesCycle_new_edge_witness :
  exists b, CreatesCycle 10 chain 1 3 = Some (b, None) /\
    (b = true -> tc (Step chainShortcutPredecessors) 1 1) /\
    (b = false -> Acyclic chainPredecessors -> Acyclic chainShortcutPredecessors).
Proof.
  apply (CreatesCycle_new_edge chain chainPredecessors chainShortcutPredecessors
           1 3 10);
    [reflexivity | reflexivity | reflexivity | vm_compute; lia
    | apply chain_WithEdge].
Defined.

Lemma chain_same_steps u v :
  Step chainPredecessors u v <-> Step chainReorderedPredecessors u v.
Proof.
  unfold Step, neighbours, chainPredecessors, chainReorderedPredecessors.
  simpl. repeat (case_decide; subst; simpl); rewrite ?elem_of_cons, ?elem_of_nil;
    intuition congruence.
Qed.

Lemma CreatesCycle_any_order_witness :
  exists b, CreatesCycle 10 chain 3 1 = Some (b, None) /\
            CreatesCycle 10 chainAgain 3 1 = Some (b, None).
Proof.
  apply (CreatesCycle_any_order chain chainAgain chainPredecessors
           chainReorderedPredecessors 3 1 10 10);
    [reflexivity | reflexivity | reflexivity | reflexivity | reflexivity
    | reflexivity | apply chain_same_steps | vm_compute; lia | vm_compute; lia].
Defined.
(** ** The sums of a run of ShortestPath *)

Section Sums.

Context {A : Type}.

Lemma sum_nonneg (f : A -> Z) (l : list A) :
  (forall y, 0 <= f y) -> 0 <= foldr Z.add 0 (f <$> l).
Proof.
  intros Hf. induction l as [|y l IH]; csimpl; [lia|]. pose proof (Hf y). lia.
Qed.

Lemma sum_elem (f : A -> Z) (l : list A) x :
  (forall y, 0 <= f y) -> x ∈ l -> f x <= foldr Z.add 0 (f <$> l).
Proof.
  intros Hf. induction l as [|y l IH]; intros Hin.
  - by apply elem_of_nil in Hin.
  - csimpl. apply elem_of_cons in Hin as [->|Hin].
    + pose proof (sum_nonneg f l Hf). lia.
    + pose proof (Hf y). apply IH in Hin. lia.
Qed.

Lemma sum_submseteq (f : A -> Z) (l k : list A) :
  (forall y, 0 <= f y) -> l ⊆+ k ->
  foldr Z.add 0 (f <$> l) <= foldr Z.add 0 (f <$> k).
Proof.
  intros Hf. induction 1 as [|x l k _ IH|x y l|x l k _ IH|l k m _ IH1 _ IH2];
    csimpl; try lia.
  pose proof (Hf x). lia.
Qed.

Lemma sum_app (a b : list Z) :
  foldr Z.add 0 (a ++ b) = foldr Z.add 0 a + foldr Z.add 0 b.
Proof. induction a as [|x a IH]; simpl; lia. Qed.

End Sums.

Section OutWeights.

Context {K : Type} `{Countable K}.

Implicit Types (am : Snapshot K) (l : list K).

Lemma outWeight_nonneg traits am u : 0 <= outWeight traits am u.
Proof. unfold outWeight. apply sum_nonneg. intros f. lia. Qed.

(** The weights of a snapshot, summed vertex by vertex. *)
Lemma weightSum_keys traits am :
  NoDup am.*1 ->
  weightSum traits am = foldr Z.add 0 (outWeight traits am <$> am.*1).
Proof.
  induction am as [|[k es] am IH]; intros Hnd; [done|].
  simpl in Hnd. apply NoDup_cons in Hnd as [Hk Hnd].
  unfold weightSum. simpl. rewrite fmap_app, sum_app.
  fold (weightSum traits am). rewrite (IH Hnd).
  assert (Hout : outWeight traits ((k, es) :: am) k
                 = foldr Z.add 0
                     ((fun f => Z.abs (effectiveWeight traits f.2)) <$> es)).
  { unfold outWeight. simpl. by rewrite decide_True. }
  rewrite Hout. f_equal. f_equal. apply Forall_fmap_ext, Forall_forall.
  intros k' Hk'. unfold outWeight. simpl.
  rewrite decide_False; [done|]. by intros ->.
Qed.

Lemma stepWeight_le traits am u v :
  stepWeight traits am u v <= outWeight traits am u.
Proof.
  unfold stepWeight, edgeBetween.
  destruct (edgeOf (edgesOf am u) v) as [e|] eqn:E.
  - apply edgeOf_Some in E.
    pose proof (sum_elem (fun f : K * Edge => Z.abs (effectiveWeight traits f.2))
                  (edgesOf am u) (v, e) ltac:(intros; lia) E) as Hle.
    simpl in Hle. unfold outWeight. lia.
  - apply outWeight_nonneg.
Qed.

(** A walk weighs no more than the edges that leave its vertices. *)
Lemma walkWeight_le traits am l v :
  walkWeight traits am (l ++ [v]) <= foldr Z.add 0 (outWeight traits am <$> l).
Proof.
  induction l as [|u l IH]; [csimpl; lia|].
  destruct l as [|y l].
  - csimpl. pose proof (stepWeight_le traits am u v). lia.
  - change (walkWeight traits am ((u :: y :: l) ++ [v]))
      with (stepWeight traits am u y + walkWeight traits am ((y :: l) ++ [v])).
    change (foldr Z.add 0 (outWeight traits am <$> u :: y :: l))
      with (outWeight traits am u
            + foldr Z.add 0 (outWeight traits am <$> y :: l)).
    pose proof (stepWeight_le traits am u y). lia.
Qed.

Lemma walkWeight_bound traits am l v :
  NoDup am.*1 -> NoDup l -> (forall y, y ∈ l -> y ∈ am.*1) ->
  walkWeight traits am (l ++ [v]) <= weightSum traits am.
Proof.
  intros Hk Hnd Hsub. rewrite (weightSum_keys traits am Hk).
  etransitivity; [apply walkWeight_le|].
  apply sum_submseteq; [intros; apply outWeight_nonneg|].
  by apply NoDup_submseteq.
Qed.

End OutWeights.

(** Go's [float64] is exact on the whole numbers up to 2^53. *)
Lemma round64_exact z : 0 <= z <= 2 ^ 53 -> round64 z = z.
Proof.
  intros Hz. destruct (decide (z = 2 ^ 53)) as [->|Hne]; [reflexivity|].
  unfold round64. rewrite Z.abs_eq by lia.
  assert (Hlog : Z.log2 z - 52 <= 0).
  { destruct (decide (z = 0)) as [->|Hz0]; [simpl; lia|].
    assert (Z.log2 z < 53); [|lia]. apply Z.log2_lt_pow2; lia. }
  apply Z.leb_le in Hlog. by rewrite Hlog.
Qed.

Lemma ieeeOps_exact : exactUpTo (2 ^ 53) ieeeOps.
Proof.
  split.
  - intros w Hw. simpl. by rewrite round64_exact.
  - intros x y Hx Hy Hxy. simpl. rewrite round64_exact; [done|lia].
Qed.

Section ExactSums.

Context {K : Type} `{Countable K}.
Context {T : Type}.
Context {Q : PriorityQueue K} (items : queueOf Q -> list (K * float64)).
Context {QS : PriorityQueueSpec Q items}.

Variables (traits : GraphTraits) (am : Snapshot K) (source : K).
Hypothesis Hwf : wellFormed am = true.
Hypothesis Hnn : nonNegative traits am = true.
Hypothesis Hex : exactWeights traits am = true.

Variable ops : Float64Ops.
Hypothesis Hops : exactUpTo (2 ^ 53) ops.

Local Abbreviation spInv := (spInv items traits am source).
Local Abbreviation relaxInv := (relaxInv items traits am source).

(** The weight of a vertex is the weight of its chain of best predecessors,
    which has no vertex twice. *)
Lemma chain_of rel st x :
  spInv rel st -> x ∈ am.*1 -> Wt st x <> PosInf ->
  exists l, Chain (bestPredecessors st) source x l /\ NoDup l /\
    forall y, y ∈ l -> y ∈ am.*1.
Proof.
  intros Hinv Hx Hfin. destruct (decide (x = source)) as [->|Hne].
  - exists [source]. split; [apply Chain_source|].
    split; [apply NoDup_singleton|].
    intros y Hy. by apply list_elem_of_singleton in Hy as ->.
  - destruct (I_fin Hinv x Hx Hne Hfin) as [u Hu].
    destruct (I_chain Hinv x u Hu) as (l & Hc & Hnd & Hxl & Hpop).
    exists (l ++ [x]). split; [by apply (Chain_step _ _ x u)|]. split.
    + apply NoDup_app. split; [done|]. split; [|apply NoDup_singleton].
      intros y Hy Hyx. by apply list_elem_of_singleton in Hyx as ->.
    + intros y Hy. apply elem_of_app in Hy as [Hy|Hy].
      * by destruct (Hpop y Hy).
      * by apply list_elem_of_singleton in Hy as ->.
Qed.

(** Every sum a run computes from a finite weight stays within 2^53. *)
Lemma sum_in_range rel st x z v e :
  spInv rel st -> Wt st x = Finite z -> (v, e) ∈ edgesOf am x ->
  0 <= z /\ 0 <= effectiveWeight traits e /\
  z + effectiveWeight traits e <= 2 ^ 53.
Proof.
  intros Hinv Hz Hin.
  assert (Hx : x ∈ am.*1).
  { apply (Step_key am x v). unfold Step, neighbours.
    apply list_elem_of_fmap. by exists (v, e). }
  destruct (chain_of rel st x Hinv Hx) as (l & Hc & Hnd & Hsub).
  { by rewrite Hz. }
  pose proof (Chain_walkWeight items traits am source Hwf rel st Hinv x l Hc)
    as HW.
  rewrite Hz in HW. inversion HW as [Hzl]. clear HW.
  pose proof (Chain_last _ _ _ _ Hc) as Hlast.
  apply last_Some in Hlast as [l0 ->].
  pose proof (walkWeight_bound traits am (l0 ++ [x]) v (wf_NoDup am Hwf)
                Hnd Hsub) as Hb.
  rewrite walkWeight_snoc, (stepWeight_edge traits am x v e Hwf Hin) in Hb.
  apply bool_decide_eq_true_1 in Hex.
  pose proof (nn_edge traits am Hnn x v e Hin).
  pose proof (I_pos Hinv x) as Hpos. rewrite Hz in Hpos.
  unfold f64_le, f64_ltb in Hpos. apply bool_decide_eq_false_1 in Hpos.
  lia.
Qed.

Lemma relaxWith_relax x wx seen st v e :
  relaxInv x wx seen st -> (v, e) ∈ edgesOf am x ->
  relaxWith ops traits (IsInf wx) x st (v, e)
  = relax traits (IsInf wx) x st (v, e).
Proof.
  intros Hinv Hin. unfold relaxWith, relax. simpl.
  pose proof (R_wx _ _ _ _ _ _ _ _ Hinv) as Hwx. unfold Wt in Hwx.
  rewrite Hwx. destruct wx as [z|].
  - destruct (sum_in_range _ st x z v e (R_core _ _ _ _ _ _ _ _ Hinv) Hwx Hin)
      as (Hz & Hw & Hzw).
    destruct Hops as [Hconv Hadd].
    rewrite (Hconv (effectiveWeight traits e)) by lia.
    by rewrite (Hadd z (effectiveWeight traits e)).
  - simpl. by rewrite !andb_false_r.
Qed.

Lemma fold_relaxWith x wx es seen st :
  relaxInv x wx seen st -> (forall ve, ve ∈ es -> ve ∈ edgesOf am x) ->
  fold_left (relaxWith ops traits (IsInf wx) x) es st
  = fold_left (relax traits (IsInf wx) x) es st.
Proof.
  revert seen st. induction es as [|[v e] es IH]; intros seen st Hinv Hes;
    [done|].
  assert (Hin : (v, e) ∈ edgesOf am x) by (apply Hes; by apply elem_of_cons; left).
  simpl. rewrite (relaxWith_relax x wx seen st v e Hinv Hin).
  apply (IH (seen ++ [(v, e)])).
  - by apply (relax_inv items traits am source Hwf Hnn).
  - intros ve Hve. apply Hes. by apply elem_of_cons; right.
Qed.

Lemma shortestPathLoopWith_loop fuel st :
  spInv (fun _ _ => True) st ->
  shortestPathLoopWith ops fuel traits am st = shortestPathLoop fuel traits am st.
Proof.
  revert st. induction fuel as [|fuel IH]; intros st Hinv; [done|].
  simpl. rewrite items_Len. case_bool_decide as Hlen; [|done].
  destruct (items_Pop (queue st)) as (x & p & q' & Hpop & Hperm & Hmin).
  { intros E. rewrite E in Hlen. simpl in Hlen. lia. }
  rewrite Hpop.
  rewrite (fold_relaxWith x (Wt st x) (edgesOf am x) [] (withQueue st q')).
  - apply IH. by apply (turn_inv items traits am source Hwf Hnn st x p q').
  - by apply (pop_inv items traits am source st x p q').
  - done.
Qed.

End ExactSums.

(** On weights that are not negative and sum to at most 2^53, a run of
    [ShortestPath] is the same whatever [float64] does with sums beyond
    2^53: every sum the run computes from a finite weight is at most 2^53,
    where the arithmetic is exact. *)
Theorem ShortestPath_exact_sums {K : Type} `{Countable K} {T : Type}
    {Q : PriorityQueue K} (items : queueOf Q -> list (K * float64))
    {QS : PriorityQueueSpec Q items} (ops : Float64Ops)
    (g : Graph K T) am source target fuel :
  AdjacencyMap g = (am, None) ->
  wellFormed am = true -> nonNegative (Traits g) am = true ->
  exactWeights (Traits g) am = true -> exactUpTo (2 ^ 53) ops ->
  ShortestPathWith ops fuel g source target = ShortestPath fuel g source target.
Proof.
  intros Ham Hwf Hnn Hex Hops. unfold ShortestPathWith, ShortestPath.
  rewrite Ham.
  rewrite (shortestPathLoopWith_loop items (Traits g) am source Hwf Hnn Hex
             ops Hops fuel); [done|].
  by apply init_inv.
Qed.

Lemma ShortestPath_exact_sums_witness :
  ShortestPathWith (Q := listQueue) ieeeOps 10 triangle "A" "C"
  = ShortestPath (Q := listQueue) 10 triangle "A" "C".
Proof.
  apply (ShortestPath_exact_sums (Q := listQueue) (QS := listQueue_spec)
           (fun q => q) ieeeOps triangle triangleAdjacency "A" "C" 10);
    [reflexivity | reflexivity | reflexivity | reflexivity
    | apply ieeeOps_exact].
Defined.

(** Beyond 2^53 the sums are rounded: with the edges A -> B (2^53),
    B -> C (3) and A -> C (2^53 + 4) the way over B weighs 2^53 + 4 in
    [float64] and does not beat the edge from A to C. *)
Example ShortestPath_rounded_sums :
  exactWeights (Traits large) largeAdjacency = false /\
  ShortestPathWith (Q := listQueue) ieeeOps 10 large "A" "C"
  = Some (["A"; "C"], None) /\
  ShortestPath (Q := listQueue) 10 large "A" "C" = Some (["A"; "B"; "C"], None).
Proof. split; [|split]; vm_compute; reflexivity. Qed.
(** ** More on StronglyConnectedComponents *)

Section Lists.

Context {A : Type} `{EqDecision A}.

Lemma elem_of_concat (cs : list (list A)) (x : A) :
  x ∈ concat cs <-> exists i c, cs !! i = Some c /\ x ∈ c.
Proof.
  induction cs as [|c0 cs IH]; simpl.
  - split; [intros Hx; by apply elem_of_nil in Hx|intros (i & c & Hi & _); done].
  - rewrite elem_of_app, IH. split.
    + intros [Hx|(i & c & Hi & Hx)]; [by exists O, c0|by exists (S i), c].
    + intros (i & c & Hi & Hx). destruct i as [|i]; simpl in Hi.
      * left. by inversion Hi; subst.
      * right. by exists i, c.
Qed.

Lemma concat_lookup_unique (cs : list (list A)) i j c c' x :
  NoDup (concat cs) -> cs !! i = Some c -> cs !! j = Some c' ->
  x ∈ c -> x ∈ c' -> i = j.
Proof.
  revert i j. induction cs as [|c0 cs IH]; intros i j Hnd Hi Hj Hc Hc'; [done|].
  simpl in Hnd. apply NoDup_app in Hnd as (Hnd0 & Hdis & Hnd).
  destruct i as [|i], j as [|j]; simpl in Hi, Hj.
  - done.
  - inversion Hi; subst c0. exfalso. apply (Hdis x Hc).
    apply elem_of_concat. by exists j, c'.
  - inversion Hj; subst c0. exfalso. apply (Hdis x Hc').
    apply elem_of_concat. by exists i, c.
  - f_equal. by apply IH.
Qed.

Lemma concat_lookup_NoDup (cs : list (list A)) i c :
  NoDup (concat cs) -> cs !! i = Some c -> NoDup c.
Proof.
  revert i. induction cs as [|c0 cs IH]; intros i Hnd Hi; [done|].
  simpl in Hnd. apply NoDup_app in Hnd as (Hnd0 & _ & Hnd).
  destruct i as [|i]; simpl in Hi; [by inversion Hi; subst|by apply (IH i)].
Qed.

Lemma filter_absent (c : list A) (v : A) :
  v ∉ c -> filter (fun x => x = v) c = [].
Proof.
  induction c as [|a c IH]; intros Hv; [done|].
  apply not_elem_of_cons in Hv as [Hne Hv].
  rewrite filter_cons, decide_False by done. by apply IH.
Qed.

Lemma NoDup_count (c : list A) (v : A) :
  NoDup c -> v ∈ c -> length (filter (fun x => x = v) c) = 1%nat.
Proof.
  induction 1 as [|a c Ha Hnd IH]; intros Hv; [by apply elem_of_nil in Hv|].
  rewrite filter_cons. apply elem_of_cons in Hv as [->|Hv].
  - rewrite decide_True by done. by rewrite filter_absent.
  - rewrite decide_False by (by intros ->). by apply IH.
Qed.

End Lists.

Section SccProofs.

Context {K : Type} `{Countable K} `{GoZero K}.

Local Abbreviation sccState := (sccState (K := K)).

Implicit Types (st : sccState) (v w x y : K) (gray : list K).

Lemma findSCC_unfold fuel v st :
  findSCC (S fuel) v st
  = match sccNeighbours (findSCC fuel) v (neighbours (adjacencyMap st) v)
            (sccPush v st) with
    | None => None
    | Some st' => sccPop v st'
    end.
Proof. reflexivity. Qed.

(** *** What is left to visit *)

Lemma unvisited_mono vs st st' :
  (forall x, isVisited st x -> isVisited st' x) ->
  (unvisited vs st' <= unvisited vs st)%nat.
Proof.
  intros Hm. unfold unvisited. induction vs as [|a vs IH]; [done|].
  rewrite !filter_cons.
  destruct (decide (visited st' !! a = None)) as [Ha'|Ha'];
    destruct (decide (visited st !! a = None)) as [Ha|Ha]; simpl; try lia.
  exfalso. destruct (Hm a) as [u Hu]; [|congruence].
  unfold isVisited. by destruct (visited st !! a).
Qed.

Lemma unvisited_visit vs st st' v :
  (forall x, isVisited st x -> isVisited st' x) ->
  v ∈ vs -> ~ isVisited st v -> isVisited st' v ->
  (unvisited vs st' < unvisited vs st)%nat.
Proof.
  intros Hm Hin Hv Hv'. unfold unvisited.
  induction vs as [|a vs IH]; [by apply elem_of_nil in Hin|].
  pose proof (unvisited_mono vs st st' Hm) as Hle. unfold unvisited in Hle.
  rewrite !filter_cons. apply elem_of_cons in Hin as [<-|Hin].
  - rewrite (decide_False (P := visited st' !! v = None)).
    2: { intros E. destruct Hv' as [u Hu]. congruence. }
    rewrite (decide_True (P := visited st !! v = None)).
    2: { destruct (visited st !! v) eqn:E; [|done]. exfalso. apply Hv. by eexists. }
    simpl. lia.
  - specialize (IH Hin).
    destruct (decide (visited st' !! a = None)) as [Ha'|Ha'];
      destruct (decide (visited st !! a = None)) as [Ha|Ha]; simpl; try lia.
    exfalso. destruct (Hm a) as [u Hu]; [|congruence].
    unfold isVisited. by destruct (visited st !! a).
Qed.

(** *** The pop of a component *)

(** From a stack with [v] under the vertices [ext], none of them [v], the
    loop pops [ext] and [v] and clears their marks. *)
Lemma popComponent_spec v ext s0 : forall h on comp,
  h <> v -> v ∉ ext ->
  exists on',
    popComponent v h (ext ++ v :: s0) on comp
    = Some (s0, on', comp ++ ext ++ [v]) /\
    forall x, on' !! x = if decide (x ∈ ext ++ [v]) then Some false else on !! x.
Proof.
  induction ext as [|a ext IH]; intros h on comp Hh Hv.
  - exists (<[v := false]> on). split.
    + simpl. rewrite decide_False by done.
      destruct s0; simpl; by rewrite decide_True.
    + intros x. simpl. destruct (decide (x = v)) as [->|Hne].
      * rewrite lookup_insert_eq. rewrite decide_True; [done|].
        by apply list_elem_of_singleton.
      * rewrite lookup_insert_ne by done. rewrite decide_False; [done|].
        by intros E%list_elem_of_singleton.
  - apply not_elem_of_cons in Hv as [Hav Hv].
    destruct (IH a (<[a := false]> on) (comp ++ [a])) as (on' & Hpop & Hon);
      [done|done|].
    exists on'. split.
    + simpl. rewrite decide_False by done. rewrite Hpop.
      by rewrite <- app_assoc.
    + intros x. rewrite Hon. simpl. destruct (decide (x = a)) as [->|Hne].
      * rewrite lookup_insert_eq.
        rewrite (decide_True (P := a ∈ a :: ext ++ [v]))
          by (by apply elem_of_cons; left).
        by destruct (decide (a ∈ ext ++ [v])).
      * rewrite lookup_insert_ne by done.
        destruct (decide (x ∈ ext ++ [v])) as [Hx|Hx].
        -- rewrite decide_True; [done|]. by apply elem_of_cons; right.
        -- rewrite decide_False; [done|].
           intros E. apply elem_of_cons in E as [E|E]; done.
Qed.

(** *** The invariant *)

Variable am : Snapshot K.

Local Abbreviation sccInv := (sccInv am).
Local Abbreviation sccLoop := (sccLoop am).
Local Abbreviation sccPost := (sccPost am).

Lemma Step_vertices a b : Step am a b -> b ∈ vertices am.
Proof.
  intros Hstep. unfold vertices. apply elem_of_app. right.
  unfold edgeTargets. apply list_elem_of_In, in_flat_map.
  exists (a, edgesOf am a). split; [|by apply list_elem_of_In].
  apply list_elem_of_In, edgesOf_key. intros E.
  unfold Step, neighbours in Hstep. rewrite E in Hstep.
  by apply elem_of_nil in Hstep.
Qed.

Lemma isVisited_dec st x : {isVisited st x} + {~ isVisited st x}.
Proof.
  unfold isVisited. destruct (visited st !! x); [left; by eexists|right].
  by intros [u Hu].
Qed.

Lemma stack_visited gray st x : sccInv gray st -> x ∈ stack st -> isVisited st x.
Proof.
  intros Hinv Hx. apply (V_visited _ _ _ Hinv). apply elem_of_app. by left.
Qed.

(** Lowering a lowlink touches nothing the invariant speaks of. *)
Lemma sccInv_low gray st v o : sccInv gray st -> sccInv gray (lowerLowlink v o st).
Proof. intros [? ? ? ? ? ? ? ? ? ? ? ?]. by split. Qed.

Lemma low_lower_eq st v o : low (lowerLowlink v o st) v = Z.min (low st v) o.
Proof. unfold low, intOf. simpl. by rewrite lookup_insert_eq. Qed.

Lemma low_lower_ne st v o x : x <> v -> low (lowerLowlink v o st) x = low st x.
Proof. intros Hne. unfold low, intOf. simpl. by rewrite lookup_insert_ne. Qed.

Lemma sccKeeps_low v st0 st o :
  ~ isVisited st0 v -> sccKeeps v st0 st -> sccKeeps v st0 (lowerLowlink v o st).
Proof.
  intros Hv [Km Ki Kl Kn Kx Kt]. split; try done.
  intros x Hx. rewrite low_lower_ne; [by apply Kl|]. by intros ->.
Qed.

Lemma sccKeeps_trans v w st0 st st2 :
  sccKeeps v st0 st -> sccKeeps w st st2 -> isVisited st v -> sccKeeps v st0 st2.
Proof.
  intros [Km Ki Kl Kn Kx Kt] [Km2 Ki2 Kl2 Kn2 Kx2 Kt2] Hv. split.
  - intros x Hx. by apply Km2, Km.
  - intros x Hx. rewrite Ki2 by (by apply Km). by apply Ki.
  - intros x Hx. rewrite Kl2 by (by apply Km). by apply Kl.
  - intros x Hx Hx2. destruct (isVisited_dec st x) as [Hxs|Hxs].
    + rewrite Ki2 by done. by apply Kn.
    + pose proof (Kn2 x Hxs Hx2). lia.
  - by rewrite Ki2.
  - lia.
Qed.

(** The vertices of the components are closed under the edges. *)
Lemma closed_Reach (cs : list (list K)) a b :
  (forall i c a b, cs !! i = Some c -> a ∈ c -> Step am a b ->
     exists j c', (j <= i)%nat /\ cs !! j = Some c' /\ b ∈ c') ->
  Reach am a b -> a ∈ concat cs -> b ∈ concat cs.
Proof.
  intros Hcl. induction 1 as [|a c b Hac _ IH]; [done|].
  intros Ha. apply IH. apply elem_of_concat in Ha as (i & c0 & Hi & Ha).
  destruct (Hcl i c0 a c Hi Ha Hac) as (j & c' & _ & Hj & Hc).
  apply elem_of_concat. by exists j, c'.
Qed.

(** *** The push *)

Lemma push_visited st0 v x :
  isVisited (sccPush v st0) x <-> x = v \/ isVisited st0 x.
Proof.
  unfold isVisited. simpl. destruct (decide (x = v)) as [->|Hne].
  - rewrite lookup_insert_eq. split; [by left|by eexists].
  - rewrite lookup_insert_ne by done. split; [by right|by intros [?|?]].
Qed.

Lemma push_idx_eq st0 v : idx (sccPush v st0) v = time st0.
Proof. unfold idx, intOf. simpl. by rewrite lookup_insert_eq. Qed.

Lemma push_idx_ne st0 v x : x <> v -> idx (sccPush v st0) x = idx st0 x.
Proof. intros Hne. unfold idx, intOf. simpl. by rewrite lookup_insert_ne. Qed.

Lemma push_low_eq st0 v : low (sccPush v st0) v = time st0.
Proof. unfold low, intOf. simpl. by rewrite lookup_insert_eq. Qed.

Lemma push_low_ne st0 v x : x <> v -> low (sccPush v st0) x = low st0 x.
Proof. intros Hne. unfold low, intOf. simpl. by rewrite lookup_insert_ne. Qed.

Lemma sccInv_push gray st0 v :
  sccInv gray st0 -> ~ isVisited st0 v -> v ∈ vertices am ->
  (forall x, x ∈ gray -> Reach am x v) ->
  sccInv (v :: gray) (sccPush v st0).
Proof.
  intros Hinv Hv HvU Hgv.
  assert (Hold : forall x, isVisited st0 x -> x <> v) by (by intros x Hx ->).
  assert (Hst : forall x, x ∈ stack st0 -> x <> v).
  { intros x Hx. apply Hold. by apply (stack_visited gray). }
  assert (Hgr : forall x, x ∈ gray -> x <> v).
  { intros x Hx. apply Hst. by apply (V_gray _ _ _ Hinv). }
  split.
  - apply (V_am _ _ _ Hinv).
  - intros x Hx. apply push_visited in Hx as [->|Hx]; [done|].
    by apply (V_univ _ _ _ Hinv).
  - intros x Hx. simpl. apply push_visited in Hx as [->|Hx].
    + rewrite push_idx_eq. lia.
    + rewrite push_idx_ne by (by apply Hold).
      pose proof (V_time _ _ _ Hinv x Hx). lia.
  - intros x. simpl. destruct (decide (x = v)) as [->|Hne].
    + rewrite lookup_insert_eq. simpl. split; [intros _|done].
      by apply elem_of_cons; left.
    + rewrite lookup_insert_ne by done. rewrite (V_on _ _ _ Hinv x).
      rewrite elem_of_cons. split; [by right|by intros [?|?]].
  - simpl. apply NoDup_cons. split; [|apply (V_nodup _ _ _ Hinv)].
    intros Hin. by apply Hv, (V_visited _ _ _ Hinv).
  - intros x. rewrite push_visited. simpl. rewrite elem_of_cons.
    by rewrite (V_visited _ _ _ Hinv x).
  - intros x Hx. simpl. apply elem_of_cons in Hx as [->|Hx].
    + by apply elem_of_cons; left.
    + apply elem_of_cons; right. by apply (V_gray _ _ _ Hinv).
  - intros x y Hx Hy Hle. simpl in Hy.
    apply elem_of_cons in Hx as [->|Hx]; apply elem_of_cons in Hy as [->|Hy].
    + apply rtc_refl.
    + exfalso. rewrite push_idx_eq in Hle.
      rewrite push_idx_ne in Hle by (by apply Hst).
      pose proof (V_time _ _ _ Hinv y (stack_visited gray st0 y Hinv Hy)). lia.
    + by apply Hgv.
    + rewrite (push_idx_ne st0 v x) in Hle by (by apply Hgr).
      rewrite (push_idx_ne st0 v y) in Hle by (by apply Hst).
      by apply (V_gray_reach _ _ _ Hinv).
  - intros y Hy. simpl in Hy. apply elem_of_cons in Hy as [->|Hy].
    + exists v. split; [by apply elem_of_cons; left|]. split; [lia|apply rtc_refl].
    + destruct (V_stack_reach _ _ _ Hinv y Hy) as (x & Hx & Hle & Hr).
      exists x. split; [by apply elem_of_cons; right|]. split; [|done].
      rewrite (push_idx_ne st0 v x) by (by apply Hgr).
      by rewrite (push_idx_ne st0 v y) by (by apply Hst).
  - intros a b Ha Hag Hab. apply not_elem_of_cons in Hag as [Hne Hag].
    apply push_visited in Ha as [->|Ha]; [done|].
    apply push_visited. right. by apply (V_black _ _ _ Hinv a b).
  - apply (V_closed _ _ _ Hinv).
  - apply (V_scc _ _ _ Hinv).
Qed.

Lemma sccKeeps_push st0 v : ~ isVisited st0 v -> sccKeeps v st0 (sccPush v st0).
Proof.
  intros Hv.
  assert (Hold : forall x, isVisited st0 x -> x <> v) by (by intros x Hx ->).
  split.
  - intros x Hx. apply push_visited. by right.
  - intros x Hx. by apply push_idx_ne, Hold.
  - intros x Hx. by apply push_low_ne, Hold.
  - intros x Hx Hx'. apply push_visited in Hx' as [->|Hx']; [|done].
    rewrite push_idx_eq. lia.
  - apply push_idx_eq.
  - simpl. lia.
Qed.

Lemma sccLoop_push gray st0 v :
  sccInv gray st0 -> ~ isVisited st0 v -> v ∈ vertices am ->
  (forall x, x ∈ gray -> Reach am x v) ->
  sccLoop gray v st0 [] (sccPush v st0).
Proof.
  intros Hinv Hv HvU Hgv. split.
  - by apply sccInv_push.
  - by apply sccKeeps_push.
  - exists []. split; [done|]. intros x Hx. by apply elem_of_nil in Hx.
  - rewrite push_low_eq, push_idx_eq. lia.
  - exists v. split; [by apply elem_of_cons; left|].
    split; [by rewrite push_low_eq, push_idx_eq|apply rtc_refl].
  - intros x y Hx Hx0 Hy Hxy [Hne|Hs]; [|by apply elem_of_nil in Hs].
    simpl in Hx. apply elem_of_cons in Hx as [->|Hx]; done.
  - intros w Hw. by apply elem_of_nil in Hw.
Qed.

(** *** The loop over the neighbours *)

Lemma idx_lower st v o x : idx (lowerLowlink v o st) x = idx st x.
Proof. reflexivity. Qed.

Lemma loop_stack_visited gray v st0 seen st x :
  sccLoop gray v st0 seen st -> x ∈ v :: stack st0 -> isVisited st x.
Proof.
  intros Hl Hx. apply (stack_visited (v :: gray)); [apply (L_inv _ _ _ _ _ _ Hl)|].
  destruct (L_stack _ _ _ _ _ _ Hl) as (ext & -> & _).
  apply elem_of_app. by right.
Qed.

(** Where a vertex of the stack sits, by its index: below [v] it is on the
    stack the call started with. *)
Lemma loop_below gray v st0 seen st y :
  sccLoop gray v st0 seen st -> y ∈ stack st -> idx st y < idx st v ->
  y ∈ stack st0.
Proof.
  intros Hl Hy Hlt. pose proof (L_keeps _ _ _ _ _ _ Hl) as Hk.
  destruct (L_stack _ _ _ _ _ _ Hl) as (ext & Hst & Hext).
  rewrite Hst in Hy. rewrite (K_idx _ _ _ Hk) in Hlt.
  apply elem_of_app in Hy as [Hy|Hy].
  - exfalso. assert (Hvis : isVisited st y).
    { apply (stack_visited (v :: gray)); [apply (L_inv _ _ _ _ _ _ Hl)|].
      rewrite Hst. apply elem_of_app. by left. }
    pose proof (K_new _ _ _ Hk y (Hext y Hy) Hvis). lia.
  - apply elem_of_cons in Hy as [->|Hy]; [|done].
    rewrite (K_idx _ _ _ Hk) in Hlt. lia.
Qed.

(** The neighbour was not visited: [findSCC] has been called on it. *)
Lemma sccLoop_call gray v st0 seen st w st2 :
  ~ isVisited st0 v -> sccLoop gray v st0 seen st -> Step am v w ->
  ~ isVisited st w -> sccPost (v :: gray) w st st2 ->
  sccLoop gray v st0 (seen ++ [w]) (lowerLowlink v (low st2 w) st2).
Proof.
  intros Hv0 Hl Hvw Hw Hp.
  pose proof (L_inv _ _ _ _ _ _ Hl) as Li.
  pose proof (L_keeps _ _ _ _ _ _ Hl) as Lk.
  pose proof (P_inv _ _ _ _ _ Hp) as Pi.
  pose proof (P_keeps _ _ _ _ _ Hp) as Pk.
  assert (Hvst : isVisited st v).
  { apply (loop_stack_visited gray v st0 seen); [done|]. by apply elem_of_cons; left. }
  pose proof (sccKeeps_trans v w st0 st st2 Lk Pk Hvst) as Hk2.
  assert (Hlowv : low st2 v = low st v) by (by apply (K_low _ _ _ Pk)).
  assert (Hidxv : idx st2 v = idx st v) by (by apply (K_index _ _ _ Pk)).
  destruct (L_stack _ _ _ _ _ _ Hl) as (ext & Hst & Hext).
  destruct (P_stack _ _ _ _ _ Hp) as (extw & Hst2 & Hextw & Hcase).
  assert (Hold : forall y, y ∈ stack st0 -> y ∈ stack st).
  { intros y Hy. rewrite Hst. apply elem_of_app. right. by apply elem_of_cons; right. }
  assert (Hsv : forall y, y ∈ stack st -> isVisited st y).
  { intros y Hy. by apply (stack_visited (v :: gray)). }
  pose proof (L_low_le _ _ _ _ _ _ Hl) as Lle.
  split.
  - by apply sccInv_low.
  - by apply sccKeeps_low.
  - exists (extw ++ ext). split.
    + simpl. by rewrite Hst2, Hst, app_assoc.
    + intros x Hx. apply elem_of_app in Hx as [Hx|Hx]; [|by apply Hext].
      intros Hx0. apply (Hextw x Hx). by apply (K_mono _ _ _ Lk).
  - rewrite low_lower_eq, idx_lower. lia.
  - rewrite low_lower_eq.
    destruct (Z.le_gt_cases (low st v) (low st2 w)) as [Hle|Hgt].
    + destruct (L_low_reach _ _ _ _ _ _ Hl) as (y & Hy & Hyl & Hr).
      exists y. split; [done|]. split; [|done]. rewrite idx_lower.
      rewrite (K_index _ _ _ Pk y)
        by (by apply (loop_stack_visited gray v st0 seen)).
      lia.
    + destruct Hcase as [[_ Heq]|(_ & _ & y & Hy & Hyl & Hr)].
      * exfalso. rewrite (K_idx _ _ _ Pk) in Heq.
        pose proof (V_time _ _ _ Li v Hvst). lia.
      * exists y. assert (Hy0 : y ∈ stack st0).
        { apply (loop_below gray v st0 seen st); [done|done|].
          rewrite <- (K_index _ _ _ Pk y) by (by apply Hsv). lia. }
        split; [by apply elem_of_cons; right|]. split.
        -- rewrite idx_lower. lia.
        -- by eapply rtc_l.
  - intros x y Hx Hx0 Hy Hxy Hc. rewrite low_lower_eq, idx_lower.
    simpl in Hx. rewrite Hst2 in Hx.
    assert (Hyi : idx st2 y = idx st y).
    { apply (K_index _ _ _ Pk). by apply Hsv, Hold. }
    apply elem_of_app in Hx as [Hx|Hx].
    + pose proof (P_edges _ _ _ _ _ Hp x y) as He.
      assert (low st2 w <= idx st2 y); [|lia]. apply He; try done.
      * rewrite Hst2. apply elem_of_app. by left.
      * intros Hxs. by apply (Hextw x Hx), Hsv.
      * by apply Hold.
    + assert (low st v <= idx st y); [|lia].
      apply (L_edges _ _ _ _ _ _ Hl x y); try done.
      destruct Hc as [Hne|Hys]; [by left|].
      apply elem_of_app in Hys as [Hys|Hys]; [by right|].
      apply list_elem_of_singleton in Hys as ->.
      exfalso. by apply Hw, Hsv, Hold.
  - intros w' Hw'. change (isVisited st2 w').
    apply elem_of_app in Hw' as [Hw'|Hw'].
    + by apply (K_mono _ _ _ Pk), (L_seen _ _ _ _ _ _ Hl).
    + apply list_elem_of_singleton in Hw' as ->. apply (P_v _ _ _ _ _ Hp).
Qed.

(** The neighbour is on the stack: a back edge. *)
Lemma sccLoop_back gray v st0 seen st w :
  ~ isVisited st0 v -> sccLoop gray v st0 seen st -> Step am v w ->
  isVisited st w -> default false (onStack st !! w) = true ->
  sccLoop gray v st0 (seen ++ [w]) (lowerLowlink v (idx st w) st).
Proof.
  intros Hv0 Hl Hvw Hw Hon.
  pose proof (L_inv _ _ _ _ _ _ Hl) as Li.
  pose proof (L_keeps _ _ _ _ _ _ Hl) as Lk.
  pose proof (L_low_le _ _ _ _ _ _ Hl) as Lle.
  split.
  - by apply sccInv_low.
  - by apply sccKeeps_low.
  - apply (L_stack _ _ _ _ _ _ Hl).
  - rewrite low_lower_eq, idx_lower. lia.
  - rewrite low_lower_eq.
    destruct (Z.le_gt_cases (low st v) (idx st w)) as [Hle|Hgt].
    + destruct (L_low_reach _ _ _ _ _ _ Hl) as (y & Hy & Hyl & Hr).
      exists y. split; [done|]. split; [|done]. rewrite idx_lower. lia.
    + exists w. assert (Hw0 : w ∈ stack st0).
      { apply (loop_below gray v st0 seen st); [done| |lia].
        by apply (V_on _ _ _ Li). }
      split; [by apply elem_of_cons; right|]. split.
      * rewrite idx_lower. lia.
      * by apply rtc_once.
  - intros x y Hx Hx0 Hy Hxy Hc. rewrite low_lower_eq, idx_lower.
    destruct (decide (x = v /\ y = w)) as [[-> ->]|Hn]; [lia|].
    assert (low st v <= idx st y); [|lia].
    apply (L_edges _ _ _ _ _ _ Hl x y); try done.
    destruct Hc as [Hne|Hys]; [by left|].
    apply elem_of_app in Hys as [Hys|Hys]; [by right|].
    apply list_elem_of_singleton in Hys as ->.
    left. intros ->. by apply Hn.
  - intros w' Hw'. change (isVisited st w').
    apply elem_of_app in Hw' as [Hw'|Hw'].
    + by apply (L_seen _ _ _ _ _ _ Hl).
    + by apply list_elem_of_singleton in Hw' as ->.
Qed.

(** The neighbour is in a component that has been popped. *)
Lemma sccLoop_skip gray v st0 seen st w :
  sccLoop gray v st0 seen st -> isVisited st w ->
  default false (onStack st !! w) <> true ->
  sccLoop gray v st0 (seen ++ [w]) st.
Proof.
  intros Hl Hw Hon.
  pose proof (L_inv _ _ _ _ _ _ Hl) as Li.
  split; try apply Hl.
  - intros x y Hx Hx0 Hy Hxy Hc.
    apply (L_edges _ _ _ _ _ _ Hl x y); try done.
    destruct Hc as [Hne|Hys]; [by left|].
    apply elem_of_app in Hys as [Hys|Hys]; [by right|].
    apply list_elem_of_singleton in Hys as ->.
    exfalso. apply Hon. apply (V_on _ _ _ Li).
    destruct (L_stack _ _ _ _ _ _ Hl) as (ext & -> & _).
    apply elem_of_app. right. by apply elem_of_cons; right.
  - intros w' Hw'. apply elem_of_app in Hw' as [Hw'|Hw'].
    + by apply (L_seen _ _ _ _ _ _ Hl).
    + by apply list_elem_of_singleton in Hw' as ->.
Qed.

(** *** The end of a call *)

Section EndOfCall.

Variables (gray : list K) (v : K) (st0 st : sccState).
Hypothesis Hinv0 : sccInv gray st0.
Hypothesis Hv0 : ~ isVisited st0 v.
Hypothesis Hl : sccLoop gray v st0 (neighbours am v) st.

Local Lemma end_inv : sccInv (v :: gray) st.
Proof. apply (L_inv _ _ _ _ _ _ Hl). Qed.

Local Lemma end_keeps : sccKeeps v st0 st.
Proof. apply (L_keeps _ _ _ _ _ _ Hl). Qed.

Local Lemma end_old_index y : y ∈ stack st0 -> idx st y < idx st v.
Proof.
  intros Hy. pose proof (stack_visited gray st0 y Hinv0 Hy) as Hvis.
  rewrite (K_index _ _ _ end_keeps y Hvis), (K_idx _ _ _ end_keeps).
  apply (V_time _ _ _ Hinv0 y Hvis).
Qed.

Local Lemma end_black a b :
  isVisited st a -> a ∉ gray -> Step am a b -> isVisited st b.
Proof.
  intros Ha Hag Hab. destruct (decide (a = v)) as [->|Hne].
  - by apply (L_seen _ _ _ _ _ _ Hl).
  - apply (V_black _ _ _ end_inv a b); [done| |done].
    by apply not_elem_of_cons.
Qed.

Local Lemma end_edges x y :
  x ∈ stack st -> x ∉ stack st0 -> y ∈ stack st0 -> Step am x y ->
  low st v <= idx st y.
Proof.
  intros Hx Hx0 Hy Hxy. apply (L_edges _ _ _ _ _ _ Hl x y); try done.
  destruct (decide (x = v)) as [->|Hne]; [by right|by left].
Qed.

(** The lowlink of [v] is below its index: [v] stays on the stack. *)
Lemma sccPost_kept : low st v <> idx st v -> sccPost gray v st0 st.
Proof.
  intros Hne. pose proof end_inv as Li.
  pose proof (L_low_le _ _ _ _ _ _ Hl) as Lle.
  destruct (L_stack _ _ _ _ _ _ Hl) as (ext & Hst & Hext).
  destruct (L_low_reach _ _ _ _ _ _ Hl) as (z & Hz & Hzl & Hvz).
  assert (Hz0 : z ∈ stack st0).
  { apply elem_of_cons in Hz as [->|Hz]; [lia|done]. }
  assert (Hzs : z ∈ stack st).
  { rewrite Hst. apply elem_of_app. right. by apply elem_of_cons; right. }
  split.
  - split; try apply Li.
    + intros x Hx. apply (V_gray _ _ _ Li). by apply elem_of_cons; right.
    + intros x y Hx Hy Hle. apply (V_gray_reach _ _ _ Li); try done.
      by apply elem_of_cons; right.
    + intros y Hy. destruct (V_stack_reach _ _ _ Li y Hy) as (x & Hx & Hle & Hr).
      apply elem_of_cons in Hx as [->|Hx]; [|by exists x].
      destruct (V_stack_reach _ _ _ Li z Hzs) as (x' & Hx' & Hle' & Hr').
      apply elem_of_cons in Hx' as [->|Hx']; [lia|].
      exists x'. split; [done|]. split; [lia|].
      etransitivity; [exact Hr|]. by etransitivity.
    + apply end_black.
  - apply end_keeps.
  - apply (loop_stack_visited gray v st0 (neighbours am v)); [done|].
    by apply elem_of_cons; left.
  - exists (ext ++ [v]). split; [by rewrite Hst, <- app_assoc|]. split.
    + intros x Hx. apply elem_of_app in Hx as [Hx|Hx]; [by apply Hext|].
      by apply list_elem_of_singleton in Hx as ->.
    + right. split; [apply elem_of_app; right; by apply list_elem_of_singleton|].
      split; [lia|]. by exists z.
  - apply end_edges.
Qed.

(** The lowlink of [v] is its index: the stack down to [v] is popped, and is
    a component. *)
Lemma sccPost_popped :
  v <> zeroValue -> low st v = idx st v ->
  exists st', sccPop v st = Some st' /\ sccPost gray v st0 st'.
Proof.
  intros Hzero Heq. pose proof end_inv as Li. pose proof end_keeps as Lk.
  destruct (L_stack _ _ _ _ _ _ Hl) as (ext & Hst & Hext).
  set (s0 := stack st0) in *. set (cs := components st).
  set (N := ext ++ [v]).
  assert (F1 : NoDup ((ext ++ v :: s0) ++ concat cs)).
  { rewrite <- Hst. apply (V_nodup _ _ _ Li). }
  assert (F2 : forall x, isVisited st x <-> x ∈ (ext ++ v :: s0) ++ concat cs).
  { intros x. rewrite <- Hst. apply (V_visited _ _ _ Li). }
  pose proof F1 as F1'. apply NoDup_app in F1' as (Fs & D2 & Fc).
  apply NoDup_app in Fs as Fs'. destruct Fs' as (_ & Dv & _).
  assert (Hvext : v ∉ ext).
  { intros Hin. apply (Dv v Hin). by apply elem_of_cons; left. }
  assert (D1 : forall x, x ∈ N -> x ∉ s0).
  { intros x Hx Hx0. apply elem_of_app in Hx as [Hx|Hx].
    - apply (Dv x Hx). by apply elem_of_cons; right.
    - apply list_elem_of_singleton in Hx as ->.
      apply NoDup_app in Fs as (_ & _ & Fv). apply NoDup_cons in Fv as [Fv _].
      done. }
  assert (HN : forall x, x ∈ N -> x ∈ stack st).
  { intros x Hx. rewrite Hst. apply elem_of_app in Hx as [Hx|Hx].
    - apply elem_of_app. by left.
    - apply elem_of_app. right. apply list_elem_of_singleton in Hx as ->.
      by apply elem_of_cons; left. }
  assert (Hsplit : forall x, x ∈ ext ++ v :: s0 <-> x ∈ N \/ x ∈ s0).
  { intros x. unfold N. rewrite !elem_of_app, elem_of_cons, list_elem_of_singleton.
    tauto. }
  assert (Hcc : concat (cs ++ [N]) = concat cs ++ N).
  { rewrite concat_app. simpl. by rewrite app_nil_r. }
  assert (Hperm : (ext ++ v :: s0) ++ concat cs ≡ₚ s0 ++ concat (cs ++ [N])).
  { rewrite Hcc. replace (ext ++ v :: s0) with (N ++ s0)
      by (unfold N; by rewrite <- app_assoc).
    rewrite <- app_assoc. rewrite (Permutation_app_comm N). by rewrite <- app_assoc. }
  destruct (popComponent_spec v ext s0 zeroValue (onStack st) [])
    as (on' & Hpop & Hon); [done|done|].
  unfold sccPop. rewrite decide_True by exact Heq. rewrite Hst, Hpop.
  eexists. split; [reflexivity|]. simpl app.
  set (st' := {| adjacencyMap := adjacencyMap st; components := cs ++ [N];
                 stack := s0; onStack := on'; visited := visited st;
                 lowlink := lowlink st; index := index st; time := time st |}).
  assert (Hstep : forall a b, a ∈ N -> Step am a b ->
                    b ∈ N \/ b ∈ concat cs).
  { intros a b Ha Hab.
    assert (Hb : isVisited st b).
    { apply (end_black a b); [by apply (stack_visited (v :: gray)), HN| |done].
      intros Hag. apply (D1 a Ha). by apply (V_gray _ _ _ Hinv0). }
    apply F2, elem_of_app in Hb as [Hb|Hb]; [|by right].
    apply Hsplit in Hb as [Hb|Hb]; [by left|]. exfalso.
    pose proof (end_edges a b (HN a Ha) (D1 a Ha) Hb Hab).
    pose proof (end_old_index b Hb). lia. }
  assert (Hclosed : forall i c a b,
            (cs ++ [N]) !! i = Some c -> a ∈ c -> Step am a b ->
            exists j c', (j <= i)%nat /\ (cs ++ [N]) !! j = Some c' /\ b ∈ c').
  { intros i c a b Hi Ha Hab. apply lookup_app_Some in Hi as [Hi|[Hlen Hi]].
    - destruct (V_closed _ _ _ Li i c a b Hi Ha Hab) as (j & c' & Hj & Hc' & Hb).
      exists j, c'. split; [done|]. split; [|done].
      by apply lookup_app_l_Some.
    - destruct (i - length cs)%nat as [|k] eqn:Ek; simpl in Hi; [|done].
      inversion Hi; subst c.
      destruct (Hstep a b Ha Hab) as [Hb|Hb].
      + exists i, N. split; [done|]. split; [|done].
        rewrite lookup_app_r by done. by rewrite Ek.
      + apply elem_of_concat in Hb as (j & c' & Hj & Hb).
        exists j, c'. split; [apply lookup_lt_Some in Hj; lia|].
        split; [|done]. by apply lookup_app_l_Some. }
  assert (HfromV : forall y, y ∈ N -> Reach am v y).
  { intros y Hy. apply (V_gray_reach _ _ _ Li); [by apply elem_of_cons; left
      |by apply HN|].
    apply elem_of_app in Hy as [Hy|Hy].
    - pose proof (K_new _ _ _ Lk y (Hext y Hy)) as Hn.
      rewrite (K_idx _ _ _ Lk). apply Hn.
      apply (stack_visited (v :: gray)); [done|]. apply HN.
      apply elem_of_app. by left.
    - apply list_elem_of_singleton in Hy as ->. lia. }
  assert (HtoV : forall y, y ∈ N -> Reach am y v).
  { intros y Hy.
    destruct (V_stack_reach _ _ _ Li y (HN y Hy)) as (x & Hx & _ & Hr).
    apply elem_of_cons in Hx as [->|Hx]; [done|]. exfalso.
    pose proof (V_gray _ _ _ Hinv0 x Hx) as Hx0.
    assert (Hin : x ∈ concat (cs ++ [N])).
    { apply (closed_Reach (cs ++ [N]) y x Hclosed Hr).
      rewrite Hcc. apply elem_of_app. by right. }
    rewrite Hcc in Hin. apply elem_of_app in Hin as [Hin|Hin].
    - apply (D2 x); [|done]. apply Hsplit. by right.
    - by apply (D1 x). }
  split.
  - split.
    + apply (V_am _ _ _ Li).
    + apply (V_univ _ _ _ Li).
    + apply (V_time _ _ _ Li).
    + intros x. simpl. rewrite Hon. destruct (decide (x ∈ ext ++ [v])) as [Hx|Hx].
      * simpl. split; [done|]. intros Hx0. by destruct (D1 x Hx).
      * rewrite (V_on _ _ _ Li x), Hst, Hsplit. split; [by intros [?|?]|by right].
    + change (NoDup (s0 ++ concat (cs ++ [N]))). by rewrite <- Hperm.
    + intros x. change (isVisited st x <-> x ∈ s0 ++ concat (cs ++ [N])).
      rewrite <- Hperm. apply F2.
    + intros x Hx. simpl. by apply (V_gray _ _ _ Hinv0).
    + intros x y Hx Hy Hle. apply (V_gray_reach _ _ _ Li); try done.
      * by apply elem_of_cons; right.
      * rewrite Hst. apply Hsplit. by right.
    + intros y Hy. simpl in Hy.
      assert (Hys : y ∈ stack st) by (rewrite Hst; apply Hsplit; by right).
      destruct (V_stack_reach _ _ _ Li y Hys) as (x & Hx & Hle & Hr).
      apply elem_of_cons in Hx as [->|Hx]; [|by exists x].
      pose proof (end_old_index y Hy). change (idx st v <= idx st y) in Hle. lia.
    + apply end_black.
    + apply Hclosed.
    + intros c Hc. simpl in Hc. apply elem_of_app in Hc as [Hc|Hc];
        [by apply (V_scc _ _ _ Li)|].
      apply list_elem_of_singleton in Hc as ->. split.
      { unfold N. by destruct ext. }
      intros u w Hu. split.
      * intros Hw. split.
        -- etransitivity; [by apply HtoV|by apply HfromV].
        -- etransitivity; [by apply HtoV|by apply HfromV].
      * intros [Huw Hwu].
        assert (Hin : w ∈ concat (cs ++ [N])).
        { apply (closed_Reach (cs ++ [N]) u w Hclosed Huw).
          rewrite Hcc. apply elem_of_app. by right. }
        rewrite Hcc in Hin. apply elem_of_app in Hin as [Hin|Hin]; [|done].
        exfalso. apply (D2 u); [apply Hsplit; by left|].
        by apply (closed_Reach cs w u (V_closed _ _ _ Li) Hwu).
  - destruct Lk as [? ? ? ? ? ?]. by split.
  - apply (loop_stack_visited gray v st0 (neighbours am v) st); [done|].
    by apply elem_of_cons; left.
  - exists []. split; [done|]. split; [|by left].
    intros x Hx. by apply elem_of_nil in Hx.
  - intros x y Hx Hx0. done.
Qed.

End EndOfCall.

(** *** The calls *)

Lemma unvisited_pos vs st v :
  v ∈ vs -> ~ isVisited st v -> (0 < unvisited vs st)%nat.
Proof.
  intros Hin Hv. unfold unvisited.
  induction vs as [|a vs IH]; [by apply elem_of_nil in Hin|].
  rewrite filter_cons. apply elem_of_cons in Hin as [<-|Hin].
  - rewrite decide_True; [simpl; lia|].
    destruct (visited st !! v) eqn:E; [|done]. exfalso. apply Hv. by eexists.
  - specialize (IH Hin). destruct (decide (visited st !! a = None)); simpl; lia.
Qed.

Lemma sccNeighbours_nil call v st : sccNeighbours call v [] st = Some st.
Proof. reflexivity. Qed.

Lemma sccNeighbours_cons call v w rest st :
  sccNeighbours call v (w :: rest) st
  = match visited st !! w with
    | None =>
      match call w st with
      | None => None
      | Some st2 =>
          sccNeighbours call v rest (lowerLowlink v (low st2 w) st2)
      end
    | Some _ =>
      if default false (onStack st !! w)
      then sccNeighbours call v rest (lowerLowlink v (idx st w) st)
      else sccNeighbours call v rest st
    end.
Proof. reflexivity. Qed.

(** The loop over the neighbours of [v], when the calls it makes do what
    [findSCC] is to do. *)
Lemma sccNeighbours_ok call fuel gray v st0 :
  (forall w st, sccInv (v :: gray) st -> ~ isVisited st w ->
     w ∈ vertices am -> (forall x, x ∈ v :: gray -> Reach am x w) ->
     (unvisited (vertices am) st <= fuel)%nat ->
     exists st2, call w st = Some st2 /\ sccPost (v :: gray) w st st2) ->
  ~ isVisited st0 v -> (forall x, x ∈ gray -> Reach am x v) ->
  forall rest seen st,
    sccLoop gray v st0 seen st -> (forall w, w ∈ rest -> Step am v w) ->
    (unvisited (vertices am) st <= fuel)%nat ->
    exists st', sccNeighbours call v rest st = Some st' /\
      sccLoop gray v st0 (seen ++ rest) st'.
Proof.
  intros Hcall Hv0 Hgv. induction rest as [|w rest IH]; intros seen st Hl Hrest Hf.
  - exists st. rewrite app_nil_r. by split.
  - assert (Hvw : Step am v w) by (apply Hrest; by apply elem_of_cons; left).
    assert (Hrest' : forall w', w' ∈ rest -> Step am v w').
    { intros w' Hw'. apply Hrest. by apply elem_of_cons; right. }
    rewrite sccNeighbours_cons, (cons_middle w seen rest), app_assoc.
    destruct (visited st !! w) as [u|] eqn:E.
    + assert (Hw : isVisited st w) by (unfold isVisited; rewrite E; by eexists).
      destruct (default false (onStack st !! w)) eqn:Eon.
      * apply IH; [by apply sccLoop_back|done|done].
      * apply IH; [|done|done]. apply sccLoop_skip; [done|done|].
        by rewrite Eon.
    + assert (Hw : ~ isVisited st w).
      { unfold isVisited. rewrite E. by intros [? ?]. }
      destruct (Hcall w st) as (st2 & Hrun & Hp); try done.
      * apply (L_inv _ _ _ _ _ _ Hl).
      * by apply (Step_vertices v).
      * intros x Hx. apply elem_of_cons in Hx as [->|Hx]; [by apply rtc_once|].
        eapply rtc_r; [by apply Hgv|done].
      * rewrite Hrun.
        apply IH; [by apply (sccLoop_call gray v st0 seen st w st2)|done|].
        etransitivity; [|exact Hf].
        apply (unvisited_mono (vertices am) st
                 (lowerLowlink v (low st2 w) st2)).
        intros x Hx. change (isVisited st2 x).
        by apply (K_mono _ _ _ (P_keeps _ _ _ _ _ Hp)).
Qed.

Section Search.

Hypothesis Hzero : zeroValue ∉ vertices am.

(** A call of [findSCC] on a vertex that is not visited returns, and leaves
    the state as [sccPost] says. *)
Lemma findSCC_ok fuel : forall gray v st0,
  sccInv gray st0 -> ~ isVisited st0 v -> v ∈ vertices am ->
  (forall x, x ∈ gray -> Reach am x v) ->
  (unvisited (vertices am) st0 <= fuel)%nat ->
  exists st', findSCC fuel v st0 = Some st' /\ sccPost gray v st0 st'.
Proof.
  induction fuel as [|fuel IH]; intros gray v st0 Hinv Hv HvU Hgv Hf.
  { pose proof (unvisited_pos (vertices am) st0 v HvU Hv). lia. }
  rewrite findSCC_unfold, (V_am _ _ _ Hinv).
  destruct (sccNeighbours_ok (findSCC fuel) fuel gray v st0
              (fun w st => IH (v :: gray) w st) Hv Hgv
              (neighbours am v) [] (sccPush v st0))
    as (st1 & Hrun & Hloop).
  - by apply sccLoop_push.
  - done.
  - assert (unvisited (vertices am) (sccPush v st0)
            < unvisited (vertices am) st0)%nat; [|lia].
    apply (unvisited_visit (vertices am) st0 (sccPush v st0) v); try done.
    + intros x Hx. apply push_visited. by right.
    + apply push_visited. by left.
  - rewrite Hrun. simpl in Hloop.
    destruct (decide (low st1 v = idx st1 v)) as [Heq|Hne].
    + apply (sccPost_popped gray v st0 st1); try done. by intros ->.
    + exists st1. split; [|by apply sccPost_kept].
      unfold sccPop. by rewrite decide_False.
Qed.

(** The loop over the keys of the adjacency map. *)
Lemma sccRange_ok fuel : forall ks st,
  sccInv [] st -> (forall k, k ∈ ks -> k ∈ vertices am) ->
  (unvisited (vertices am) st <= fuel)%nat ->
  exists st', sccRange fuel ks st = Some st' /\ sccInv [] st' /\
    (forall x, isVisited st x -> isVisited st' x) /\
    forall k, k ∈ ks -> isVisited st' k.
Proof.
  induction ks as [|k ks IH]; intros st Hinv Hks Hf.
  - exists st. split; [done|]. split; [done|]. split; [done|].
    intros k Hk. by apply elem_of_nil in Hk.
  - assert (Hks' : forall k', k' ∈ ks -> k' ∈ vertices am).
    { intros k' Hk'. apply Hks. by apply elem_of_cons; right. }
    simpl. destruct (visited st !! k) as [u|] eqn:E.
    + destruct (IH st Hinv Hks' Hf) as (st' & Hrun & Hinv' & Hm & Hall).
      exists st'. split; [done|]. split; [done|]. split; [done|].
      intros k' Hk'. apply elem_of_cons in Hk' as [->|Hk']; [|by apply Hall].
      apply Hm. unfold isVisited. rewrite E. by eexists.
    + destruct (findSCC_ok fuel [] k st) as (st1 & Hcall & Hp); try done.
      * unfold isVisited. rewrite E. by intros [? ?].
      * apply Hks. by apply elem_of_cons; left.
      * intros x Hx. by apply elem_of_nil in Hx.
      * rewrite Hcall.
        pose proof (K_mono _ _ _ (P_keeps _ _ _ _ _ Hp)) as Hm1.
        destruct (IH st1 (P_inv _ _ _ _ _ Hp) Hks') as (st' & Hrun & Hinv' & Hm & Hall).
        { etransitivity; [|exact Hf]. by apply unvisited_mono. }
        exists st'. split; [done|]. split; [done|].
        split; [intros x Hx; by apply Hm, Hm1|].
        intros k' Hk'. apply elem_of_cons in Hk' as [->|Hk']; [|by apply Hall].
        apply Hm, (P_v _ _ _ _ _ Hp).
Qed.

End Search.

(** *** The whole search *)

Lemma sccInv_start :
  sccInv [] {| adjacencyMap := am; components := []; stack := [];
               onStack := ∅; visited := ∅; lowlink := ∅; index := ∅;
               time := 0 |}.
Proof.
  assert (Hno : forall x,
            ~ isVisited {| adjacencyMap := am; components := []; stack := [];
                           onStack := ∅; visited := ∅; lowlink := ∅;
                           index := ∅; time := 0 |} x).
  { intros x [u Hu]. simpl in Hu. by rewrite lookup_empty in Hu. }
  split; simpl.
  - done.
  - intros v Hv. by destruct (Hno v).
  - intros v Hv. by destruct (Hno v).
  - intros v. rewrite lookup_empty. simpl. split; [done|].
    intros Hv. by apply elem_of_nil in Hv.
  - apply NoDup_nil_2.
  - intros v. split; [intros Hv; by destruct (Hno v)|].
    intros Hv. by apply elem_of_nil in Hv.
  - intros x Hx. by apply elem_of_nil in Hx.
  - intros x y Hx. by apply elem_of_nil in Hx.
  - intros y Hy. by apply elem_of_nil in Hy.
  - intros a b Ha. by destruct (Hno a).
  - intros i c a b Hi. done.
  - intros c Hc. by apply elem_of_nil in Hc.
Qed.

Lemma edgeTargets_Step v :
  NoDup am.*1 -> v ∈ edgeTargets am -> exists k, k ∈ am.*1 /\ Step am k v.
Proof.
  intros Hnd Hv. unfold edgeTargets in Hv.
  apply list_elem_of_In, in_flat_map in Hv as ([k es] & Hin & Hv).
  apply list_elem_of_In in Hin, Hv. simpl in Hv. exists k. split.
  - apply list_elem_of_fmap. by exists (k, es).
  - unfold Step, neighbours. by rewrite (edgesOf_elem am k es Hnd Hin).
Qed.

(** With enough fuel the search returns; the stack is empty then, and every
    vertex is in a component. *)
Lemma StronglyConnectedComponents_run {T : Type} (g : Graph K T) fuel :
  IsDirected (Traits g) = true -> AdjacencyMap g = (am, None) ->
  NoDup am.*1 -> zeroValue ∉ vertices am -> (sccFuel am <= fuel)%nat ->
  exists st, StronglyConnectedComponents fuel g = Some (components st, None) /\
    sccInv [] st /\ stack st = [] /\
    forall v, v ∈ vertices am -> v ∈ concat (components st).
Proof.
  intros Hdir Ham Hnd Hz Hf. unfold StronglyConnectedComponents.
  rewrite Hdir, Ham. simpl.
  destruct (sccRange_ok Hz fuel am.*1 _ sccInv_start)
    as (st & Hrun & Hinv & _ & Hall).
  - intros k Hk. unfold vertices. apply elem_of_app. by left.
  - unfold sccFuel in Hf. unfold unvisited.
    etransitivity; [apply length_filter|]. lia.
  - rewrite Hrun. exists st. split; [done|]. split; [done|].
    assert (Hempty : stack st = []).
    { destruct (stack st) as [|y s] eqn:E; [done|]. exfalso.
      destruct (V_stack_reach _ _ _ Hinv y) as (x & Hx & _).
      - rewrite E. by apply elem_of_cons; left.
      - by apply elem_of_nil in Hx. }
    split; [done|]. intros v Hv.
    assert (Hvis : isVisited st v).
    { unfold vertices in Hv. apply elem_of_app in Hv as [Hv|Hv]; [by apply Hall|].
      destruct (edgeTargets_Step v Hnd Hv) as (k & Hk & Hkv).
      apply (V_black _ _ _ Hinv k v); [by apply Hall| |done].
      apply not_elem_of_nil. }
    apply (V_visited _ _ _ Hinv) in Hvis. by rewrite Hempty in Hvis.
Qed.

(** When no hash is the zero value of its type, the components returned
    are a partition of the vertices: every key of the adjacency map and
    every far end of an edge is in one component, once, and the components
    hold nothing else. *)
Theorem StronglyConnectedComponents_partition {T : Type} (g : Graph K T) fuel :
  IsDirected (Traits g) = true -> AdjacencyMap g = (am, None) ->
  NoDup am.*1 -> zeroValue ∉ vertices am -> (sccFuel am <= fuel)%nat ->
  exists comps, StronglyConnectedComponents fuel g = Some (comps, None) /\
    Partitions comps (vertices am) /\
    forall c v, c ∈ comps -> v ∈ c -> v ∈ vertices am.
Proof.
  intros Hdir Ham Hnd Hz Hf.
  destruct (StronglyConnectedComponents_run g fuel Hdir Ham Hnd Hz Hf)
    as (st & Hrun & Hinv & Hempty & Hall).
  exists (components st). split; [done|].
  assert (Hcs : NoDup (concat (components st))).
  { pose proof (V_nodup _ _ _ Hinv) as Hn. by rewrite Hempty in Hn. }
  split.
  - intros v Hv. apply Hall, elem_of_concat in Hv as (i & c & Hi & Hc).
    exists i, c. split; [done|]. split; [done|]. split.
    + apply NoDup_count; [|done].
      by apply (concat_lookup_NoDup (components st) i).
    + intros j c' Hj Hc'. by apply (concat_lookup_unique (components st) j i c' c v).
  - intros c v Hc Hv. apply (V_univ _ _ _ Hinv), (V_visited _ _ _ Hinv).
    rewrite Hempty. simpl. apply list_elem_of_lookup in Hc as [i Hi].
    apply elem_of_concat. by exists i, c.
Qed.

(** When no hash is the zero value of its type, every component returned is
    a strongly connected component: it is not empty, and with any of its
    vertices it holds exactly the vertices that reach it and are reached
    from it. *)
Theorem StronglyConnectedComponents_components {T : Type} (g : Graph K T) fuel :
  IsDirected (Traits g) = true -> AdjacencyMap g = (am, None) ->
  NoDup am.*1 -> zeroValue ∉ vertices am -> (sccFuel am <= fuel)%nat ->
  exists comps, StronglyConnectedComponents fuel g = Some (comps, None) /\
    forall c, c ∈ comps ->
      c <> [] /\
      forall u v, u ∈ c -> (v ∈ c <-> Reach am u v /\ Reach am v u).
Proof.
  intros Hdir Ham Hnd Hz Hf.
  destruct (StronglyConnectedComponents_run g fuel Hdir Ham Hnd Hz Hf)
    as (st & Hrun & Hinv & _ & _).
  exists (components st). split; [done|]. apply (V_scc _ _ _ Hinv).
Qed.

(** When no hash is the zero value of its type, the components come in
    the order in which the search finishes them: an edge leads from a
    component into the same component or into one returned before it. *)
Theorem StronglyConnectedComponents_order {T : Type} (g : Graph K T) fuel :
  IsDirected (Traits g) = true -> AdjacencyMap g = (am, None) ->
  NoDup am.*1 -> zeroValue ∉ vertices am -> (sccFuel am <= fuel)%nat ->
  exists comps, StronglyConnectedComponents fuel g = Some (comps, None) /\
    forall i j c c' a b,
      comps !! i = Some c -> comps !! j = Some c' ->
      a ∈ c -> b ∈ c' -> Step am a b -> (j <= i)%nat.
Proof.
  intros Hdir Ham Hnd Hz Hf.
  destruct (StronglyConnectedComponents_run g fuel Hdir Ham Hnd Hz Hf)
    as (st & Hrun & Hinv & Hempty & _).
  exists (components st). split; [done|].
  assert (Hcs : NoDup (concat (components st))).
  { pose proof (V_nodup _ _ _ Hinv) as Hn. by rewrite Hempty in Hn. }
  intros i j c c' a b Hi Hj Ha Hb Hab.
  destruct (V_closed _ _ _ Hinv i c a b Hi Ha Hab) as (j0 & c0 & Hle & Hj0 & Hb0).
  by rewrite (concat_lookup_unique (components st) j j0 c' c0 b).
Qed.

End SccProofs.

Lemma loop_no_zero : zeroValue ∉ vertices loopAdjacency.
Proof. apply (bool_decide_eq_false_1 (zeroValue ∈ vertices loopAdjacency)). reflexivity. Qed.

Lemma loop_keys : NoDup loopAdjacency.*1.
Proof. apply (bool_decide_eq_true_1 (NoDup loopAdjacency.*1)). reflexivity. Qed.

Lemma StronglyConnectedComponents_partition_witness :
  exists comps, StronglyConnectedComponents 10 loopGraph = Some (comps, None) /\
    Partitions comps (vertices loopAdjacency) /\
    forall c v, c ∈ comps -> v ∈ c -> v ∈ vertices loopAdjacency.
Proof.
  apply (StronglyConnectedComponents_partition loopAdjacency loopGraph 10);
    [reflexivity | reflexivity | apply loop_keys | apply loop_no_zero
    | vm_compute; lia].
Defined.

Lemma StronglyConnectedComponents_components_witness :
  exists comps, StronglyConnectedComponents 10 loopGraph = Some (comps, None) /\
    forall c, c ∈ comps ->
      c <> [] /\
      forall u v, u ∈ c ->
        (v ∈ c <-> Reach loopAdjacency u v /\ Reach loopAdjacency v u).
Proof.
  apply (StronglyConnectedComponents_components loopAdjacency loopGraph 10);
    [reflexivity | reflexivity | apply loop_keys | apply loop_no_zero
    | vm_compute; lia].
Defined.

Lemma StronglyConnectedComponents_order_witness :
  exists comps, StronglyConnectedComponents 10 loopGraph = Some (comps, None) /\
    forall i j c c' a b,
      comps !! i = Some c -> comps !! j = Some c' ->
      a ∈ c -> b ∈ c' -> Step loopAdjacency a b -> (j <= i)%nat.
Proof.
  apply (StronglyConnectedComponents_order loopAdjacency loopGraph 10);
    [reflexivity | reflexivity | apply loop_keys | apply loop_no_zero
    | vm_compute; lia].
Defined.

(** The example of the two components. *)
Example StronglyConnectedComponents_loop :
  StronglyConnectedComponents 10 loopGraph = Some ([[3]; [2; 1]], None).
Proof. reflexivity. Qed.
(** ** More on FindAllPaths *)

Section Filters.

Context {A : Type} (P P' : A -> Prop).
Context `{!forall x, Decision (P x)} `{!forall x, Decision (P' x)}.

Lemma filter_length_le (l : list A) :
  (forall x, P' x -> P x) -> (length (filter P' l) <= length (filter P l))%nat.
Proof.
  intros Hsub. induction l as [|a l IH]; [done|]. rewrite !filter_cons.
  destruct (decide (P' a)) as [Ha'|Ha']; destruct (decide (P a)) as [Ha|Ha];
    simpl; try lia.
  exfalso. by apply Ha, Hsub.
Qed.

Lemma filter_length_lt (l : list A) (a : A) :
  (forall x, P' x -> P x) -> a ∈ l -> P a -> ~ P' a ->
  (length (filter P' l) < length (filter P l))%nat.
Proof.
  intros Hsub Hin Ha Ha'. induction l as [|b l IH]; [by apply elem_of_nil in Hin|].
  pose proof (filter_length_le l Hsub) as Hle. rewrite !filter_cons.
  apply elem_of_cons in Hin as [<-|Hin].
  - rewrite (decide_True (P := P a)), (decide_False (P := P' a)) by done.
    simpl. lia.
  - specialize (IH Hin).
    destruct (decide (P' b)) as [Hb'|Hb']; destruct (decide (P b)) as [Hb|Hb];
      simpl; try lia.
    exfalso. by apply Hb, Hsub.
Qed.

End Filters.

Lemma pathBudget_le d n m : (n <= m)%nat -> (pathBudget d n <= pathBudget d m)%nat.
Proof.
  induction 1 as [|m _ IH]; [done|].
  etransitivity; [exact IH|apply pathBudget_mono].
Qed.

Section AllPathsTermination.

Context {T : Type} {Q : PriorityQueue string}.
Context (items : queueOf Q -> list (string * float64)).
Context {QS : PriorityQueueSpec Q items}.

Variables (am : Snapshot string) (source target : string).

Local Abbreviation freeHashes := (freeHashes am source).
Local Abbreviation textPotential := (textPotential items am source).
Local Abbreviation extensionBudget := (extensionBudget am source).
Local Abbreviation fromSource := (fromSource items source).
Local Abbreviation toTarget := (toTarget source target).

(** The text extended by a hash that did not occur in it has fewer hashes
    to take. *)
Lemma freeHashes_extend p a :
  a ∈ hashesOf am source -> Contains p a = false ->
  (freeHashes (p +:+ gap +:+ a) < freeHashes p)%nat.
Proof.
  intros Ha Hc. unfold freeHashes.
  apply (filter_length_lt _ _ _ a).
  - intros h Hh. destruct (Contains p h) eqn:E; [|done].
    by rewrite (Contains_app_l p (gap +:+ a) h E) in Hh.
  - by apply elem_of_remove_dups.
  - done.
  - rewrite (Contains_app_r p (gap +:+ a) a); [done|].
    apply Contains_app_r, Contains_refl.
Qed.

Lemma HasPrefix_app p b : HasPrefix p source = true -> HasPrefix (p +:+ b) source = true.
Proof.
  intros Hp. apply HasPrefix_spec in Hp as [c ->]. apply HasPrefix_spec.
  exists (c +:+ b). by rewrite sapp_assoc.
Qed.

Lemma expand_pot p a q paths :
  HasPrefix p source = true -> a ∈ hashesOf am source ->
  fromSource q -> toTarget paths ->
  let st := expand target p (q, paths) a in
  fromSource st.1 /\ toTarget st.2 /\
  (textPotential st.1 <= textPotential q + extensionBudget p)%nat.
Proof.
  intros Hp Ha Hq Hpaths. unfold expand.
  destruct (Contains p a) eqn:Hc; simpl;
    [repeat split; try done; apply Nat.le_add_r|].
  destruct (decide (a = target)) as [->|Hne]; simpl.
  - split; [done|]. split; [|apply Nat.le_add_r]. intros p' Hin.
    apply elem_of_app in Hin as [Hin|Hin]; [by apply Hpaths|].
    apply list_elem_of_singleton in Hin as ->. by exists p.
  - assert (Hb : (textBudget am source (p +:+ gap +:+ a, Finite 0)
                  <= extensionBudget p)%nat).
    { pose proof (freeHashes_extend p a Ha Hc) as Hlt.
      unfold textBudget, extensionBudget. simpl.
      destruct (freeHashes p) as [|n]; [lia|].
      apply pathBudget_le. lia. }
    destruct (items_Push q (p +:+ gap +:+ a) (Finite 0)) as [Hpush|[_ Hpush]].
    + split; [|split; [done|]].
      * intros p' w Hin. rewrite Hpush in Hin.
        apply elem_of_cons in Hin as [Heq|Hin]; [|by apply (Hq p' w)].
        inversion Heq; subst. by apply HasPrefix_app.
      * unfold textPotential. rewrite Hpush. simpl. lia.
    + split; [|split; [done|]].
      * intros p' w Hin. rewrite Hpush in Hin. by apply (Hq p' w).
      * unfold textPotential. rewrite Hpush. lia.
Qed.

Lemma fold_expand_pot p hs : forall q paths,
  HasPrefix p source = true -> (forall h, h ∈ hs -> h ∈ hashesOf am source) ->
  fromSource q -> toTarget paths ->
  let st := fold_left (expand target p) hs (q, paths) in
  fromSource st.1 /\ toTarget st.2 /\
  (textPotential st.1 <= textPotential q + length hs * extensionBudget p)%nat.
Proof.
  induction hs as [|h hs IH]; intros q paths Hp Hhs Hq Hpaths; simpl.
  - repeat split; try done. lia.
  - destruct (expand_pot p h q paths) as (Hq' & Hp' & Hpot); try done.
    { apply Hhs. by apply elem_of_cons; left. }
    destruct (expand target p (q, paths) h) as [q' paths'].
    simpl in Hq', Hp', Hpot.
    destruct (IH q' paths') as (Hq'' & Hp'' & Hpot'); try done.
    { intros h' Hh'. apply Hhs. by apply elem_of_cons; right. }
    repeat split; try done. lia.
Qed.

(** One turn of the loop after the pop of the text [p]. *)
Lemma turn_pot p q paths :
  HasPrefix p source = true -> fromSource q -> toTarget paths ->
  let st := allPathsTurn am target p (q, paths) in
  fromSource st.1 /\ toTarget st.2 /\
  (textPotential st.1
   <= textPotential q + maxDegree am * extensionBudget p)%nat.
Proof.
  intros Hp Hq Hpaths. unfold allPathsTurn.
  destruct (last (Split p gap)) as [v|]; simpl; [|repeat split; try done; lia].
  destruct (fold_expand_pot p (neighbours am v) q paths) as (Hq' & Hp' & Hpot);
    try done.
  { intros h Hh. by apply (Step_hashes am source v). }
  repeat split; try done. etransitivity; [exact Hpot|].
  apply Nat.add_le_mono_l, Nat.mul_le_mono_r.
  unfold neighbours. rewrite length_fmap. apply length_edgesOf.
Qed.

Lemma textBudget_turn p w :
  (S (maxDegree am * extensionBudget p) <= textBudget am source (p, w))%nat.
Proof.
  unfold textBudget, extensionBudget. simpl.
  destruct (freeHashes p) as [|n]; simpl; lia.
Qed.

(** The loop ends, whatever the hashes are. *)
Lemma findAllPathsLoop_ends fuel : forall q paths,
  fromSource q -> toTarget paths -> (textPotential q < fuel)%nat ->
  exists paths', findAllPathsLoop fuel am target q paths = Some (paths', None) /\
    toTarget paths'.
Proof.
  induction fuel as [|fuel IH]; intros q paths Hq Hpaths Hf; [lia|].
  simpl. rewrite items_Len. case_bool_decide as Hlen; [|by exists paths].
  destruct (items_Pop q) as (p & w & q' & Hpop & Hperm & _).
  { intros E. rewrite E in Hlen. simpl in Hlen. lia. }
  rewrite Hpop.
  assert (Hp : HasPrefix p source = true).
  { apply (Hq p w). rewrite Hperm. by apply elem_of_cons; left. }
  assert (Hq' : fromSource q').
  { intros p' w' Hin. apply (Hq p' w'). rewrite Hperm. by apply elem_of_cons; right. }
  destruct (turn_pot p q' paths Hp Hq' Hpaths) as (Hq'' & Hp'' & Hpot).
  apply IH; [done|done|].
  assert (Hsum : textPotential q = (textBudget am source (p, w) + textPotential q')%nat).
  { unfold textPotential. by rewrite Hperm. }
  pose proof (textBudget_turn p w). lia.
Qed.

(** [FindAllPaths] returns on every graph, whatever its hashes: every text
    it returns begins with the source and ends with the separator and the
    target, which does not occur before; from a vertex to itself it returns
    nothing. *)
Theorem FindAllPaths_returns (g : Graph string T) fuel :
  AdjacencyMap g = (am, None) -> (allPathsFuel am source <= fuel)%nat ->
  exists paths, FindAllPaths fuel g source target = Some (paths, None) /\
    (forall p, p ∈ paths ->
       exists p0, HasPrefix p0 source = true /\ Contains p0 target = false /\
                  p = p0 +:+ gap +:+ target) /\
    (source = target -> paths = []).
Proof.
  intros Ham Hf. unfold FindAllPaths. rewrite Ham.
  pose proof (start_items items source) as Hstart.
  assert (Hself : HasPrefix source source = true).
  { apply HasPrefix_spec. exists EmptyString. by rewrite sapp_nil_r. }
  destruct (findAllPathsLoop_ends fuel (Push newPriorityQueue source (Finite 0)) [])
    as (paths & Hrun & Hpaths).
  - intros p w Hin. rewrite Hstart in Hin.
    apply list_elem_of_singleton in Hin. by inversion Hin; subst.
  - intros p Hin. by apply elem_of_nil in Hin.
  - unfold textPotential. rewrite Hstart. simpl.
    unfold textBudget, allPathsFuel in *. simpl.
    assert (pathBudget (maxDegree am) (freeHashes source)
            <= pathBudget (maxDegree am)
                 (length (remove_dups (hashesOf am source))))%nat; [|lia].
    apply pathBudget_le. apply length_filter.
  - exists paths. split; [done|]. split; [done|]. intros <-.
    destruct paths as [|p paths]; [done|]. exfalso.
    destruct (Hpaths p) as (p0 & Hpre & Hc & _); [by apply elem_of_cons; left|].
    apply HasPrefix_spec in Hpre as [b ->].
    assert (Contains (source +:+ b) source = true); [|congruence].
    apply Contains_app_l, Contains_refl.
Qed.

End AllPathsTermination.

Lemma FindAllPaths_returns_witness :
  exists paths, FindAllPaths (Q := listQueue) 100 separatorGraph "A" "D"
                = Some (paths, None) /\
    (forall p, p ∈ paths ->
       exists p0, HasPrefix p0 "A" = true /\ Contains p0 "D" = false /\
                  p = p0 +:+ gap +:+ "D") /\
    ("A" = "D" -> paths = []).
Proof.
  apply (FindAllPaths_returns (Q := listQueue) (QS := listQueue_spec)
           (fun q => q) separatorAdjacency "A" "D" separatorGraph 100);
    [reflexivity | vm_compute; lia].
Defined.
